(** * stream-server: a TCP connection dispatcher with a fixed worker pool

    Shallow embedding of [source/platform/x64/linux/stream-server.c].

    The C functions are written as programs over the calls they make to
    the C library, to pthreads, to the kernel, to the dynamic queue and to
    the caller's handler.  A program is a finite tree: a node is one call,
    its branches are the values the call may return.  Three semantics are
    given to these trees:

    - [runs]: the sequences of calls one thread can make, with the values
      it gets back (no assumption on the environment);
    - [op_step]: what one call does to the state of the process (heap,
      descriptors, queue, mutex, condition variable);
    - [step]: the interleaving of the main thread and of the workers. *)

From Stdlib Require Import ZArith Lia String.
From stdpp Require Import base list gmap sets.

Local Open Scope Z_scope.

(** ** Values *)

(** Thread identifiers: 0 is the thread that calls [stream_server_create],
    the workers are numbered from 1 in creation order. *)
Abbreviation tid := nat (only parsing).

(** A non-null pointer is the identifier of an allocated block.  Blocks are
    numbered in allocation order and a number is never given twice, so a
    block identifies one allocation even after it was freed.  A pointer
    that may be NULL is an [option ptr]. *)
Abbreviation ptr := nat (only parsing).

(** The fields of [struct stream_server] and [struct
    stream_server_connection] that are read through a pointer by another
    function than the one that wrote them. *)
Inductive field : Set :=
| connection_handler
| connection_handler_context
| socket_fd
| id.

Global Instance field_eq_dec : EqDecision field.
Proof. solve_decision. Defined.

(** [size_t] has 64 bits on this platform (x64, Linux): what is passed
    for a [size_t] is taken modulo 2^64, so that -1 arrives as
    [SIZE_MAX]. *)
Definition SIZE_MAX : Z := 2 ^ 64 - 1.
Definition to_size_t (z : Z) : Z := z mod 2 ^ 64.

(** What [write(2)] does on a socket: it returns (a count, or -1), or,
    when the peer has closed the connection, the process gets SIGPIPE. *)
Inductive written : Set :=
| Returned (r : Z)
| Sigpipe.

(** What [calloc] is asked for. *)
Inductive ctype : Set :=
| stream_server_t
| pthread_t
| stream_server_connection_t.

(** ** Calls *)

(** [op X] is a call returning an [X].  A call whose result the source
    never looks at ([pthread_create], the calls on the mutex and on the
    condition variable, [dynamic_queue_enqueue]) returns [unit]. *)
Inductive op : Type -> Type :=
(* C library *)
| Calloc (nmemb : Z) (ty : ctype) : op (option ptr)
| Free (p : ptr) : op unit
| Load (p : ptr) (f : field) : op Z
| Store (p : ptr) (f : field) (v : Z) : op unit
| LogE (msg : string) : op unit
(* pthreads, on the mutex and condition variable of the server *)
| MutexInit (server : ptr) : op unit
| CondInit (server : ptr) : op unit
| MutexLock (server : ptr) : op unit
| MutexUnlock (server : ptr) : op unit
| CondSleep (server : ptr) : op unit
| CondWake (server : ptr) : op unit
| CondSignal (server : ptr) : op unit
| PthreadCreate (pool : ptr) (i : nat) (server : ptr) : op unit
(* dynamic-queue *)
| QueueCreate (server : ptr) : op unit
| Enqueue (server : ptr) (item : ptr) : op unit
| Dequeue (server : ptr) : op (option ptr)
(* sockets *)
| Socket : op Z
| Setsockopt (fd : Z) : op Z
| Bind (fd : Z) (port : Z) : op Z
| Listen (fd : Z) (backlog : Z) : op Z
| Accept (fd : Z) : op Z
| Read (fd : Z) (buf : ptr) (count : Z) : op Z
| Write (fd : Z) (buf : ptr) (count : Z) : op written
| Close (fd : Z) : op Z
(* the caller's callback *)
| CallHandler (handler : Z) (server : ptr) (connection : ptr) (context : Z) : op unit.

(** A call together with the value it returned. *)
Inductive event : Type :=
| EvCalloc (nmemb : Z) (ty : ctype) (r : option ptr)
| EvFree (p : ptr)
| EvLoad (p : ptr) (f : field) (v : Z)
| EvStore (p : ptr) (f : field) (v : Z)
| EvLogE (msg : string)
| EvMutexInit (server : ptr)
| EvCondInit (server : ptr)
| EvMutexLock (server : ptr)
| EvMutexUnlock (server : ptr)
| EvCondSleep (server : ptr)
| EvCondWake (server : ptr)
| EvCondSignal (server : ptr)
| EvPthreadCreate (pool : ptr) (i : nat) (server : ptr)
| EvQueueCreate (server : ptr)
| EvEnqueue (server : ptr) (item : ptr)
| EvDequeue (server : ptr) (r : option ptr)
| EvSocket (r : Z)
| EvSetsockopt (fd : Z) (r : Z)
| EvBind (fd : Z) (port : Z) (r : Z)
| EvListen (fd : Z) (backlog : Z) (r : Z)
| EvAccept (fd : Z) (r : Z)
| EvRead (fd : Z) (buf : ptr) (count : Z) (r : Z)
| EvWrite (fd : Z) (buf : ptr) (count : Z) (r : written)
| EvClose (fd : Z) (r : Z)
| EvCallHandler (handler : Z) (server : ptr) (connection : ptr) (context : Z).

Definition ev {X} (o : op X) : X -> event :=
  match o in op X return X -> event with
  | Calloc n ty => fun r => EvCalloc n ty r
  | Free p => fun _ => EvFree p
  | Load p f => fun v => EvLoad p f v
  | Store p f v => fun _ => EvStore p f v
  | LogE msg => fun _ => EvLogE msg
  | MutexInit s => fun _ => EvMutexInit s
  | CondInit s => fun _ => EvCondInit s
  | MutexLock s => fun _ => EvMutexLock s
  | MutexUnlock s => fun _ => EvMutexUnlock s
  | CondSleep s => fun _ => EvCondSleep s
  | CondWake s => fun _ => EvCondWake s
  | CondSignal s => fun _ => EvCondSignal s
  | PthreadCreate pool i s => fun _ => EvPthreadCreate pool i s
  | QueueCreate s => fun _ => EvQueueCreate s
  | Enqueue s c => fun _ => EvEnqueue s c
  | Dequeue s => fun r => EvDequeue s r
  | Socket => fun r => EvSocket r
  | Setsockopt fd => fun r => EvSetsockopt fd r
  | Bind fd port => fun r => EvBind fd port r
  | Listen fd n => fun r => EvListen fd n r
  | Accept fd => fun r => EvAccept fd r
  | Read fd buf n => fun r => EvRead fd buf n r
  | Write fd buf n => fun r => EvWrite fd buf n r
  | Close fd => fun r => EvClose fd r
  | CallHandler h s c x => fun _ => EvCallHandler h s c x
  end.

(** ** Programs *)

(** [Exit] is [exit(code)].  [Crash] is the death of the process by a
    signal: SIGSEGV at a dereference of NULL, SIGPIPE at a [write] on a
    connection that the peer has closed. *)
Inductive prog (A : Type) : Type :=
| Ret (a : A)
| Exit (code : Z)
| Crash
| Vis {X : Type} (o : op X) (k : X -> prog A).

Arguments Ret {A} a.
Arguments Exit {A} code.
Arguments Crash {A}.
Arguments Vis {A X} o k.

Fixpoint bind {A B} (p : prog A) (f : A -> prog B) : prog B :=
  match p with
  | Ret a => f a
  | Exit code => Exit code
  | Crash => Crash
  | Vis o k => Vis o (fun x => bind (k x) f)
  end.

Definition call {X} (o : op X) : prog X := Vis o Ret.

Declare Scope prog_scope.
Delimit Scope prog_scope with prog.
Bind Scope prog_scope with prog.
Notation "x <- p ;; q" := (bind p (fun x => q))
  (at level 100, p at next level, right associativity) : prog_scope.
Notation "p ;; q" := (bind p (fun _ => q))
  (at level 100, right associativity) : prog_scope.
Local Open Scope prog_scope.

(** How a program ends. *)
Inductive outcome (A : Type) : Type :=
| Done (a : A)
| Exited (code : Z)
| Crashed.

Arguments Done {A} a.
Arguments Exited {A} code.
Arguments Crashed {A}.

(** ** The calls of the source, by their C names *)

Definition calloc (nmemb : Z) (ty : ctype) : prog (option ptr) := call (Calloc nmemb ty).
Definition free (p : ptr) : prog unit := call (Free p).
Definition E (msg : string) : prog unit := call (LogE msg).
Definition pthread_mutex_init (server : ptr) : prog unit := call (MutexInit server).
Definition pthread_cond_init (server : ptr) : prog unit := call (CondInit server).
Definition pthread_mutex_lock (server : ptr) : prog unit := call (MutexLock server).
Definition pthread_mutex_unlock (server : ptr) : prog unit := call (MutexUnlock server).
Definition pthread_cond_signal (server : ptr) : prog unit := call (CondSignal server).

(** [write] is the plain [write(2)]: nothing in the source handles or
    ignores SIGPIPE, so a [write] on a connection that the peer has closed
    kills the process in the call. *)
Definition write (fd : Z) (buf : ptr) (count : Z) : prog Z :=
  result <- call (Write fd buf count) ;;
  match result with
  | Returned r => Ret r
  | Sigpipe => Crash
  end.

(** [pthread_cond_wait] has two halves: the thread releases the mutex and
    blocks on the condition variable in one atomic action, and when it has
    been woken it takes the mutex again before it returns. *)
Definition pthread_cond_wait (server : ptr) : prog unit :=
  call (CondSleep server) ;; call (CondWake server).

(** Modelled from the spec: the dynamic queue is an external collaborator,
    "opaque FIFO with create(), enqueue(item), dequeue() -> item-or-empty";
    [dynamic_queue_dequeue] returns NULL on an empty queue. *)
Definition dynamic_queue_create (server : ptr) : prog unit := call (QueueCreate server).
Definition dynamic_queue_enqueue (server : ptr) (item : ptr) : prog unit :=
  call (Enqueue server item).
Definition dynamic_queue_dequeue (server : ptr) : prog (option ptr) :=
  call (Dequeue server).

(** ** The source *)

(** Lines 42-48. *)
Definition CHECK_IF_INVALID (x : Z) (msg : string) : prog unit :=
  if x <? 0 then E msg ;; Exit (-1) else Ret tt.

(** Line 75: the call of the handler. *)
Definition invoke (server : ptr) (connection : ptr) : prog unit :=
  handler <- call (Load server connection_handler) ;;
  context <- call (Load server connection_handler_context) ;;
  call (CallHandler handler server connection context).

(** Lines 74-77, the body of [if (connection)]. *)
Definition serve (server : ptr) (connection : ptr) : prog unit :=
  invoke server connection ;;
  free connection.

(** Lines 67-77: one turn of the [while (true)] of [thread_pool_handler]. *)
Definition thread_pool_handler (server : ptr) : prog unit :=
  pthread_mutex_lock server ;;
  connection <- dynamic_queue_dequeue server ;;
  connection <- match connection with
                | None => pthread_cond_wait server ;; dynamic_queue_dequeue server
                | Some _ => Ret connection
                end ;;
  pthread_mutex_unlock server ;;
  match connection with
  | Some connection => serve server connection
  | None => Ret tt
  end.

(** Lines 96-98: [for (i = 0; i < thread_pool_size; i++)], with [n] turns
    left.  [server->thread_pool] is used unchecked: if it is NULL the first
    [pthread_create] writes through it. *)
Fixpoint create_threads (thread_pool : option ptr) (server : ptr) (i n : nat) : prog unit :=
  match n with
  | O => Ret tt
  | S n' =>
      match thread_pool with
      | None => Crash
      | Some pool => call (PthreadCreate pool i server)
      end ;;
      create_threads thread_pool server (S i) n'
  end.

(** Lines 81-118.  [thread_pool_size] is a [size_t], only counted up to. *)
Definition stream_server_create (port : Z) (max_waiting_connections : Z)
    (thread_pool_size : nat) (handler : Z) (handler_context : Z) : prog (option ptr) :=
  server <- calloc 1 stream_server_t ;;
  match server with
  | None => Ret None
  | Some server =>
      call (Store server connection_handler handler) ;;
      call (Store server connection_handler_context handler_context) ;;
      dynamic_queue_create server ;;
      pthread_mutex_init server ;;
      pthread_cond_init server ;;
      thread_pool <- calloc (Z.of_nat thread_pool_size) pthread_t ;;
      create_threads thread_pool server 0 thread_pool_size ;;
      fd <- call Socket ;;
      call (Store server socket_fd fd) ;;
      CHECK_IF_INVALID fd "Could not create a new socket" ;;
      status <- call (Setsockopt fd) ;;
      CHECK_IF_INVALID status "Could not set socket options" ;;
      status <- call (Bind fd port) ;;
      CHECK_IF_INVALID status "Could not bind to port" ;;
      status <- call (Listen fd max_waiting_connections) ;;
      CHECK_IF_INVALID status "Could not listen" ;;
      Ret (Some server)
  end.

(** Lines 120-130.  [max_data_size] is a [size_t], so that
    [max_data_size < 1] is [max_data_size == 0]; the result is
    [(size_t)read_bytes]. *)
Definition stream_server_read (connection : option ptr) (data : option ptr)
    (max_data_size : Z) : prog Z :=
  let max_data_size := to_size_t max_data_size in
  match connection, data with
  | Some connection, Some data =>
      if max_data_size <? 1 then Ret 0
      else
        fd <- call (Load connection id) ;;
        read_bytes <- call (Read fd data max_data_size) ;;
        if read_bytes >? 0 then Ret (to_size_t read_bytes) else Ret 0
  | _, _ => Ret 0
  end.

(** Lines 132-137.  [data_size] is a [size_t]. *)
Definition stream_server_write (connection : option ptr) (data : option ptr)
    (data_size : Z) : prog unit :=
  let data_size := to_size_t data_size in
  match connection, data with
  | Some connection, Some data =>
      if data_size <? 1 then Ret tt
      else
        fd <- call (Load connection id) ;;
        write fd data data_size ;;
        Ret tt
  | _, _ => Ret tt
  end.

(** Lines 139-144. *)
Definition stream_server_close (connection : option ptr) : prog unit :=
  match connection with
  | None => Ret tt
  | Some connection =>
      fd <- call (Load connection id) ;;
      call (Close fd) ;;
      Ret tt
  end.

(** Lines 146-158.  The result of [calloc] is used unchecked. *)
Definition stream_server_loop (server : option ptr) : prog unit :=
  match server with
  | None => Ret tt
  | Some server =>
      listen_fd <- call (Load server socket_fd) ;;
      connection_fd <- call (Accept listen_fd) ;;
      CHECK_IF_INVALID connection_fd "Could not accept a connection" ;;
      connection <- calloc 1 stream_server_connection_t ;;
      match connection with
      | None => Crash
      | Some connection =>
          call (Store connection id connection_fd) ;;
          pthread_mutex_lock server ;;
          dynamic_queue_enqueue server connection ;;
          pthread_cond_signal server ;;
          pthread_mutex_unlock server
      end
  end.

(** ** What one thread does *)

(** [runs p tr o]: [p] can make the calls [tr], in this order and with
    these results, and then end as [o]. *)
Fixpoint runs {A} (p : prog A) (tr : list event) (o : outcome A) : Prop :=
  match p with
  | Ret a => tr = [] /\ o = Done a
  | Exit code => tr = [] /\ o = Exited code
  | Crash => tr = [] /\ o = Crashed
  | Vis op k => exists x tr', tr = ev op x :: tr' /\ runs (k x) tr' o
  end.

(** A call to the kernel that failed. *)
Definition failed (e : event) : bool :=
  match e with
  | EvSocket r | EvSetsockopt _ r | EvBind _ _ r | EvListen _ _ r | EvAccept _ r => r <? 0
  | _ => false
  end.

(** The calls of [create_threads]. *)
Definition spawning (thread_pool : option ptr) (server : ptr) (n : nat) : list event :=
  match thread_pool with
  | Some pool => map (fun i => EvPthreadCreate pool i server) (seq 0 n)
  | None => []
  end.

(** The calls of [stream_server_create] up to the creation of the
    workers. *)
Definition setting_up (server : ptr) (n : nat) (handler context : Z)
    (thread_pool : option ptr) : list event :=
  [EvCalloc 1 stream_server_t (Some server);
   EvStore server connection_handler handler;
   EvStore server connection_handler_context context;
   EvQueueCreate server; EvMutexInit server; EvCondInit server;
   EvCalloc (Z.of_nat n) pthread_t thread_pool].

(** The calls of [stream_server_create] after [socket], and how it ends:
    the first call that fails is followed by the message and [exit(-1)]. *)
Definition opening (port backlog : Z) (server : ptr) (fd : Z) (rest : list event)
    (o : outcome (option ptr)) : Prop :=
  (fd < 0 /\ rest = [EvLogE "Could not create a new socket"] /\ o = Exited (-1)) \/
  exists r1, 0 <= fd /\
    ((r1 < 0 /\
      rest = [EvSetsockopt fd r1; EvLogE "Could not set socket options"] /\
      o = Exited (-1)) \/
     exists r2, 0 <= r1 /\
       ((r2 < 0 /\
         rest = [EvSetsockopt fd r1; EvBind fd port r2; EvLogE "Could not bind to port"] /\
         o = Exited (-1)) \/
        exists r3, 0 <= r2 /\
          ((r3 < 0 /\
            rest = [EvSetsockopt fd r1; EvBind fd port r2; EvListen fd backlog r3;
                    EvLogE "Could not listen"] /\
            o = Exited (-1)) \/
           (0 <= r3 /\
            rest = [EvSetsockopt fd r1; EvBind fd port r2; EvListen fd backlog r3] /\
            o = Done (Some server))))).

(** ** What one call does to the process *)

(** The state of the process.  It holds the mutex, the condition variable
    and the queue of one server: [stream_server_create] is called once. *)
Record world : Type := World {
  next_block : ptr;                (* blocks allocated so far *)
  mem : gmap ptr (field -> Z);     (* live blocks *)
  fds : gset Z;                    (* open descriptors *)
  queue : list ptr;                (* server->pool_queue, oldest first *)
  mutex : option tid;              (* owner of server->mutex *)
  waiting : gset tid;              (* threads blocked on server->condition_var *)
  incoming : list Z;               (* what the next calls of accept return *)
  spurious : nat;                  (* spurious wake-ups still to come *)
  history : list (tid * event)     (* the calls made so far, oldest first *)
}.

Definition set_mem (f : gmap ptr (field -> Z) -> gmap ptr (field -> Z)) (w : world) : world :=
  World (next_block w) (f (mem w)) (fds w) (queue w) (mutex w) (waiting w)
        (incoming w) (spurious w) (history w).
Definition set_fds (f : gset Z -> gset Z) (w : world) : world :=
  World (next_block w) (mem w) (f (fds w)) (queue w) (mutex w) (waiting w)
        (incoming w) (spurious w) (history w).
Definition set_queue (q : list ptr) (w : world) : world :=
  World (next_block w) (mem w) (fds w) q (mutex w) (waiting w)
        (incoming w) (spurious w) (history w).
Definition set_mutex (m : option tid) (w : world) : world :=
  World (next_block w) (mem w) (fds w) (queue w) m (waiting w)
        (incoming w) (spurious w) (history w).
Definition set_waiting (s : gset tid) (w : world) : world :=
  World (next_block w) (mem w) (fds w) (queue w) (mutex w) s
        (incoming w) (spurious w) (history w).
Definition set_incoming (l : list Z) (w : world) : world :=
  World (next_block w) (mem w) (fds w) (queue w) (mutex w) (waiting w)
        l (spurious w) (history w).
Definition set_spurious (n : nat) (w : world) : world :=
  World (next_block w) (mem w) (fds w) (queue w) (mutex w) (waiting w)
        (incoming w) n (history w).
Definition record (t : tid) (e : event) (w : world) : world :=
  World (next_block w) (mem w) (fds w) (queue w) (mutex w) (waiting w)
        (incoming w) (spurious w) (history w ++ [(t, e)]).

(** [calloc] returns a new block filled with zeroes. *)
Definition alloc (w : world) : world :=
  World (S (next_block w)) (<[next_block w := fun _ => 0]> (mem w)) (fds w) (queue w)
        (mutex w) (waiting w) (incoming w) (spurious w) (history w).

Definition write_field (f : field) (v : Z) (blk : field -> Z) : field -> Z :=
  fun g => if decide (g = f) then v else blk g.

(** A descriptor returned by the kernel is open when it is not negative. *)
Definition open_fd (r : Z) (w : world) : world :=
  if r <? 0 then w else set_fds (fun s => {[r]} ∪ s) w.

(** [op_step o t w x w']: thread [t] can make the call [o] in state [w]; the
    call returns [x] and leaves the process in state [w'].  A call that
    cannot be made in [w] blocks [t].

    - A mutex is taken when it is free; [CondSleep] releases it and blocks
      the caller until a signal (or a spurious wake-up) takes it out of
      [waiting]; [CondWake] then takes the mutex again.
    - [pthread_cond_signal] wakes one of the waiting threads, if any.
    - The queue is not thread-safe: it is used with the mutex held.
    - [accept] blocks when no connection is pending.
    - The handler is the caller's code.  It is taken to return, to leave
      the queue, the mutex and the handle alone, and to have closed the
      descriptor of its connection ([stream_server_close]) or not. *)
Definition op_step {X} (o : op X) (t : tid) (w : world) : X -> world -> Prop :=
  match o in op X return X -> world -> Prop with
  | Calloc _ _ => fun x w' =>
      (x = None /\ w' = w) \/ (x = Some (next_block w) /\ w' = alloc w)
  | Free p => fun _ w' => w' = set_mem (delete p) w
  | Load p f => fun x w' =>
      w' = w /\ forall blk, mem w !! p = Some blk -> x = blk f
  | Store p f v => fun _ w' => w' = set_mem (alter (write_field f v) p) w
  | LogE _ => fun _ w' => w' = w
  | MutexInit _ => fun _ w' => w' = set_mutex None w
  | CondInit _ => fun _ w' => w' = set_waiting ∅ w
  | MutexLock _ => fun _ w' => mutex w = None /\ w' = set_mutex (Some t) w
  | MutexUnlock _ => fun _ w' => mutex w = Some t /\ w' = set_mutex None w
  | CondSleep _ => fun _ w' =>
      mutex w = Some t /\ w' = set_waiting ({[t]} ∪ waiting w) (set_mutex None w)
  | CondWake _ => fun _ w' =>
      (t ∉ waiting w) /\ mutex w = None /\ w' = set_mutex (Some t) w
  | CondSignal _ => fun _ w' =>
      (waiting w = ∅ /\ w' = w) \/
      (exists t', t' ∈ waiting w /\ w' = set_waiting (waiting w ∖ {[t']}) w)
  | PthreadCreate _ _ _ => fun _ w' => w' = w
  | QueueCreate _ => fun _ w' => w' = set_queue [] w
  | Enqueue _ c => fun _ w' => mutex w = Some t /\ w' = set_queue (queue w ++ [c]) w
  | Dequeue _ => fun x w' =>
      mutex w = Some t /\
      match queue w with
      | [] => x = None /\ w' = w
      | c :: q => x = Some c /\ w' = set_queue q w
      end
  | Socket => fun x w' => w' = open_fd x w
  | Setsockopt _ => fun _ w' => w' = w
  | Bind _ _ => fun _ w' => w' = w
  | Listen _ _ => fun _ w' => w' = w
  | Accept _ => fun x w' =>
      exists rest, incoming w = x :: rest /\ w' = open_fd x (set_incoming rest w)
  | Read _ _ _ => fun _ w' => w' = w
  | Write _ _ _ => fun _ w' => w' = w
  | Close fd => fun x w' =>
      w' = if x =? 0 then set_fds (fun s => s ∖ {[fd]}) w else w
  | CallHandler _ _ c _ => fun _ w' =>
      w' = w \/
      exists blk, mem w !! c = Some blk /\ w' = set_fds (fun s => s ∖ {[blk id]}) w
  end.

(** [exec p t w o w']: thread [t], alone, runs [p] from state [w] to the
    end; the calls it makes are added to the history. *)
Fixpoint exec {A} (p : prog A) (t : tid) (w : world) (o : outcome A) (w' : world) : Prop :=
  match p with
  | Ret a => o = Done a /\ w' = w
  | Exit code => o = Exited code /\ w' = w
  | Crash => o = Crashed /\ w' = w
  | Vis op k =>
      exists x w1, op_step op t w x w1 /\ exec (k x) t (record t (ev op x) w1) o w'
  end.

(** ** The process *)

(** What a thread is doing, and what it has left to do of it. *)
Inductive thread : Type :=
| Main (p : prog (option ptr))              (* in stream_server_create *)
| Acceptor (server : ptr) (p : prog unit)   (* in stream_server_loop *)
| Worker (server : ptr) (p : prog unit)     (* in the loop of thread_pool_handler *)
| Finished.

(** Modelled from the spec: the caller of the library is not in the
    repository; "AcceptOnce(server): performs one blocking
    accept-and-enqueue cycle; caller must invoke repeatedly to keep
    accepting".  The main thread calls [stream_server_create] and then
    [stream_server_loop] over and over; it stops if it got no server. *)
Definition settle (th : thread) : thread :=
  match th with
  | Main (Ret (Some server)) => Acceptor server (stream_server_loop (Some server))
  | Main (Ret None) => Finished
  | Acceptor server (Ret _) => Acceptor server (stream_server_loop (Some server))
  | Worker server (Ret _) => Worker server (thread_pool_handler server)
  | _ => th
  end.

Definition stopped {A} (p : prog A) : bool :=
  match p with
  | Exit _ | Crash => true
  | _ => false
  end.

(** The thread has ended the process ([exit] or a crash). *)
Definition halted (th : thread) : bool :=
  match th with
  | Main p => stopped p
  | Acceptor _ p => stopped p
  | Worker _ p => stopped p
  | Finished => false
  end.

(** The thread that the next call of the program starts, when the call
    is a [pthread_create] that succeeds. *)
Definition spawned {A} (p : prog A) : list thread :=
  match p with
  | Vis o _ =>
      match o with
      | PthreadCreate _ _ server => [Worker server (thread_pool_handler server)]
      | _ => []
      end
  | _ => []
  end.

Definition prog_step {A} (t : tid) (p : prog A) (w : world) (p' : prog A) (w' : world) : Prop :=
  match p with
  | Vis o k => exists x w1, op_step o t w x w1 /\ w' = record t (ev o x) w1 /\ p' = k x
  | _ => False
  end.

(** [pthread_create] can fail (EAGAIN, when the system has no thread
    left to give).  The source does not look at its result (line 97): the
    call is given no result here, it goes on in the same way whether the
    thread was started or not, and the step of the process that makes the
    call starts the thread or starts nothing. *)
Definition starts {A} (p : prog A) (new : list thread) : Prop :=
  new = spawned p \/ new = [].

Definition thread_step (t : tid) (th : thread) (w : world) (th' : thread) (w' : world)
    (new : list thread) : Prop :=
  match th with
  | Main p => exists p', prog_step t p w p' w' /\ th' = settle (Main p') /\ starts p new
  | Acceptor s p =>
      exists p', prog_step t p w p' w' /\ th' = settle (Acceptor s p') /\ starts p new
  | Worker s p =>
      exists p', prog_step t p w p' w' /\ th' = settle (Worker s p') /\ starts p new
  | Finished => False
  end.

Record state : Type := State {
  the_world : world;
  threads : list thread
}.

Definition running (st : state) : Prop :=
  Forall (fun th => halted th = false) (threads st).

(** One step of the process: a thread makes a call, or a thread blocked on
    the condition variable wakes up by itself. *)
Inductive step (st : state) : state -> Prop :=
| step_call t th th' w' new :
    running st ->
    threads st !! t = Some th ->
    thread_step t th (the_world st) th' w' new ->
    step st (State w' (<[t := th']> (threads st) ++ new))
| step_spurious t n :
    running st ->
    spurious (the_world st) = S n ->
    t ∈ waiting (the_world st) ->
    step st (State (set_spurious n
                      (set_waiting (waiting (the_world st) ∖ {[t]}) (the_world st)))
                   (threads st)).

(** A run of [n] steps. *)
Inductive steps : nat -> state -> state -> Prop :=
| steps_O st : steps O st st
| steps_S n st1 st2 st3 : steps n st1 st2 -> step st2 st3 -> steps (S n) st1 st3.

(** The configuration of a process: the arguments of
    [stream_server_create] and what the environment will do. *)
Record config : Type := Config {
  cfg_port : Z;
  cfg_max_waiting_connections : Z;
  cfg_thread_pool_size : nat;
  cfg_handler : Z;
  cfg_handler_context : Z;
  cfg_incoming : list Z;
  cfg_spurious : nat
}.

Definition initial (cfg : config) : state :=
  State (World O ∅ ∅ [] None ∅ (cfg_incoming cfg) (cfg_spurious cfg) [])
        [Main (stream_server_create (cfg_port cfg) (cfg_max_waiting_connections cfg)
                 (cfg_thread_pool_size cfg) (cfg_handler cfg) (cfg_handler_context cfg))].

Definition reachable (cfg : config) (st : state) : Prop :=
  exists n, steps n (initial cfg) st.

(** Nothing can move. *)
Definition quiescent (st : state) : Prop := forall st', ~ step st st'.

(** *** Reading the history *)

(** The handles put in the queue, oldest first. *)
Definition enqueued (h : list (tid * event)) : list ptr :=
  omap (fun te => match te.2 with EvEnqueue _ c => Some c | _ => None end) h.

(** The handles taken out of the queue, oldest first. *)
Definition dequeued (h : list (tid * event)) : list ptr :=
  omap (fun te => match te.2 with EvDequeue _ (Some c) => Some c | _ => None end) h.

(** The handles given to the handler and the worker that did it, oldest
    first. *)
Definition dispatched (h : list (tid * event)) : list (tid * ptr) :=
  omap (fun te => match te.2 with EvCallHandler _ _ c _ => Some (te.1, c) | _ => None end) h.

(** The connections accepted, oldest first. *)
Definition accepted (h : list (tid * event)) : list Z :=
  omap (fun te => match te.2 with
                  | EvAccept _ r => if r <? 0 then None else Some r
                  | _ => None
                  end) h.

(** The calls of [pthread_create] of a trace, by the index of the entry of
    [server->thread_pool] that each is given. *)
Definition creations (tr : list event) : list nat :=
  omap (fun e => match e with EvPthreadCreate _ i _ => Some i | _ => None end) tr.

Definition created (h : list (tid * event)) : list nat := creations (h.*2).

(** ** Where a thread is *)

(** The points of the source at which a thread can be between two calls.
    [MCalloc] to [MListen] are in [stream_server_create], [ALoad] to
    [AUnlock] in [stream_server_loop], [WLock] to [WFree] in
    [thread_pool_handler].  A point is named after the call that comes
    next.  A worker in [pthread_cond_wait] is [WBlocked] until it is taken
    out of the waiters, [WWoken] from then on. *)
Inductive pc : Type :=
| MCalloc
| MStoreHandler
| MStoreContext
| MQueueCreate
| MMutexInit
| MCondInit
| MCallocPool
| MCreate (pool : ptr) (i k : nat)        (* [S k] turns of the loop are left *)
| MSocket
| MStoreFd (fd : Z)
| MSetsockopt (fd : Z)
| MBind (fd : Z)
| MListen (fd : Z)
| MLog (msg : string)
| MExit
| MCrash
| MFinished
| ALoad
| AAccept (listen_fd : Z)
| ACalloc (fd : Z)
| AStore (fd : Z) (c : ptr)
| ALock (c : ptr)
| AEnqueue (c : ptr)
| ASignal
| AUnlock
| ALog
| AExit
| ACrash
| WLock
| WDeq1
| WSleep
| WBlocked
| WWoken
| WDeq2
| WUnlock (c : option ptr)
| WLoadHandler (c : ptr)
| WLoadContext (c : ptr) (handler : Z)
| WCall (c : ptr) (handler context : Z)
| WFree (c : ptr).

Section Code.

Variable cfg : config.
Variable server : ptr.

Let port := cfg_port cfg.
Let backlog := cfg_max_waiting_connections cfg.
Let size := cfg_thread_pool_size cfg.

(** What is left of [stream_server_create], from the end. *)
Definition after_listen (status : Z) : prog (option ptr) :=
  CHECK_IF_INVALID status "Could not listen" ;;
  Ret (Some server).
Definition from_listen (fd : Z) : prog (option ptr) :=
  status <- call (Listen fd backlog) ;; after_listen status.
Definition after_bind (fd status : Z) : prog (option ptr) :=
  CHECK_IF_INVALID status "Could not bind to port" ;; from_listen fd.
Definition from_bind (fd : Z) : prog (option ptr) :=
  status <- call (Bind fd port) ;; after_bind fd status.
Definition after_setsockopt (fd status : Z) : prog (option ptr) :=
  CHECK_IF_INVALID status "Could not set socket options" ;; from_bind fd.
Definition from_setsockopt (fd : Z) : prog (option ptr) :=
  status <- call (Setsockopt fd) ;; after_setsockopt fd status.
Definition from_store_fd (fd : Z) : prog (option ptr) :=
  call (Store server socket_fd fd) ;;
  CHECK_IF_INVALID fd "Could not create a new socket" ;;
  from_setsockopt fd.
Definition from_socket : prog (option ptr) :=
  fd <- call Socket ;; from_store_fd fd.
Definition from_create (thread_pool : option ptr) (i n : nat) : prog (option ptr) :=
  create_threads thread_pool server i n ;; from_socket.
Definition from_calloc_pool : prog (option ptr) :=
  thread_pool <- calloc (Z.of_nat size) pthread_t ;; from_create thread_pool 0 size.
Definition from_cond_init : prog (option ptr) :=
  pthread_cond_init server ;; from_calloc_pool.
Definition from_mutex_init : prog (option ptr) :=
  pthread_mutex_init server ;; from_cond_init.
Definition from_queue_create : prog (option ptr) :=
  dynamic_queue_create server ;; from_mutex_init.
Definition from_store_context : prog (option ptr) :=
  call (Store server connection_handler_context (cfg_handler_context cfg)) ;;
  from_queue_create.
Definition from_store_handler : prog (option ptr) :=
  call (Store server connection_handler (cfg_handler cfg)) ;; from_store_context.

(** What is left of [stream_server_loop]. *)
Definition from_unlock : prog unit := pthread_mutex_unlock server.
Definition from_signal : prog unit := pthread_cond_signal server ;; from_unlock.
Definition from_enqueue (c : ptr) : prog unit :=
  dynamic_queue_enqueue server c ;; from_signal.
Definition from_lock (c : ptr) : prog unit := pthread_mutex_lock server ;; from_enqueue c.
Definition from_store_id (fd : Z) (c : ptr) : prog unit :=
  call (Store c id fd) ;; from_lock c.
Definition from_calloc_connection (fd : Z) : prog unit :=
  connection <- calloc 1 stream_server_connection_t ;;
  match connection with
  | None => Crash
  | Some c => from_store_id fd c
  end.
Definition from_accept (listen_fd : Z) : prog unit :=
  fd <- call (Accept listen_fd) ;;
  CHECK_IF_INVALID fd "Could not accept a connection" ;;
  from_calloc_connection fd.

(** What is left of a turn of [thread_pool_handler]. *)
Definition from_free (c : ptr) : prog unit := free c.
Definition from_call (c : ptr) (handler context : Z) : prog unit :=
  call (CallHandler handler server c context) ;; from_free c.
Definition from_load_context (c : ptr) (handler : Z) : prog unit :=
  context <- call (Load server connection_handler_context) ;; from_call c handler context.
Definition from_load_handler (c : ptr) : prog unit :=
  handler <- call (Load server connection_handler) ;; from_load_context c handler.
Definition from_worker_unlock (connection : option ptr) : prog unit :=
  pthread_mutex_unlock server ;;
  match connection with
  | Some c => from_load_handler c
  | None => Ret tt
  end.
Definition from_second_dequeue : prog unit :=
  connection <- dynamic_queue_dequeue server ;; from_worker_unlock connection.
Definition from_wake : prog unit := call (CondWake server) ;; from_second_dequeue.
Definition from_sleep : prog unit := call (CondSleep server) ;; from_wake.
Definition from_first_dequeue : prog unit :=
  connection <- dynamic_queue_dequeue server ;;
  connection <- match connection with
                | None => pthread_cond_wait server ;; dynamic_queue_dequeue server
                | Some _ => Ret connection
                end ;;
  from_worker_unlock connection.

(** The thread at a point. *)
Definition code_at (p : pc) : thread :=
  match p with
  | MCalloc =>
      Main (stream_server_create port backlog size (cfg_handler cfg) (cfg_handler_context cfg))
  | MStoreHandler => Main from_store_handler
  | MStoreContext => Main from_store_context
  | MQueueCreate => Main from_queue_create
  | MMutexInit => Main from_mutex_init
  | MCondInit => Main from_cond_init
  | MCallocPool => Main from_calloc_pool
  | MCreate pool i k => Main (from_create (Some pool) i (S k))
  | MSocket => Main from_socket
  | MStoreFd fd => Main (from_store_fd fd)
  | MSetsockopt fd => Main (from_setsockopt fd)
  | MBind fd => Main (from_bind fd)
  | MListen fd => Main (from_listen fd)
  | MLog msg => Main (E msg ;; Exit (-1))
  | MExit => Main (Exit (-1))
  | MCrash => Main Crash
  | MFinished => Finished
  | ALoad => Acceptor server (stream_server_loop (Some server))
  | AAccept listen_fd => Acceptor server (from_accept listen_fd)
  | ACalloc fd => Acceptor server (from_calloc_connection fd)
  | AStore fd c => Acceptor server (from_store_id fd c)
  | ALock c => Acceptor server (from_lock c)
  | AEnqueue c => Acceptor server (from_enqueue c)
  | ASignal => Acceptor server from_signal
  | AUnlock => Acceptor server from_unlock
  | ALog => Acceptor server (E "Could not accept a connection" ;; Exit (-1))
  | AExit => Acceptor server (Exit (-1))
  | ACrash => Acceptor server Crash
  | WLock => Worker server (thread_pool_handler server)
  | WDeq1 => Worker server from_first_dequeue
  | WSleep => Worker server from_sleep
  | WBlocked | WWoken => Worker server from_wake
  | WDeq2 => Worker server from_second_dequeue
  | WUnlock c => Worker server (from_worker_unlock c)
  | WLoadHandler c => Worker server (from_load_handler c)
  | WLoadContext c handler => Worker server (from_load_context c handler)
  | WCall c handler context => Worker server (from_call c handler context)
  | WFree c => Worker server (from_free c)
  end.

End Code.

(** ** What holds between two calls *)

(** The thread is in [stream_server_create] or [stream_server_loop]. *)
Definition is_main (p : pc) : bool :=
  match p with
  | WLock | WDeq1 | WSleep | WBlocked | WWoken | WDeq2 | WUnlock _
  | WLoadHandler _ | WLoadContext _ _ | WCall _ _ _ | WFree _ => false
  | _ => true
  end.

(** The thread is between a lock and the matching unlock (or wait). *)
Definition holds (p : pc) : bool :=
  match p with
  | AEnqueue _ | ASignal | AUnlock | WDeq1 | WSleep | WDeq2 | WUnlock _ => true
  | _ => false
  end.

(** The connection a worker has taken from the queue and not yet given to
    the handler. *)
Definition holding (p : pc) : option ptr :=
  match p with
  | WUnlock (Some c) | WLoadHandler c | WLoadContext c _ | WCall c _ _ => Some c
  | _ => None
  end.

(** The connection the acceptor has allocated and not yet enqueued. *)
Definition fresh_handle (p : pc) : option ptr :=
  match p with
  | AStore _ c | ALock c | AEnqueue c => Some c
  | _ => None
  end.

(** A worker that is not blocked on the condition variable. *)
Definition active (p : pc) : bool :=
  match p with
  | WBlocked => false
  | _ => negb (is_main p)
  end.

(** The process has ended. *)
Definition ended (p : pc) : bool :=
  match p with
  | MExit | MCrash | AExit | ACrash => true
  | _ => false
  end.

(** The calls of [pthread_create] made when the main thread is at [p],
    for a pool of [size]. *)
Definition started (size : nat) (p : pc) : nat :=
  match p with
  | MCalloc | MStoreHandler | MStoreContext | MQueueCreate | MMutexInit | MCondInit
  | MCallocPool | MCrash | MFinished => O
  | MCreate _ i _ => i
  | _ => size
  end.

(** Where the main thread is after the call of [pthread_create] on entry
    [i] of the pool, [S k] turns of the loop being left. *)
Definition after_create (pool : ptr) (i k : nat) : pc :=
  match k with
  | O => MSocket
  | S k' => MCreate pool (S i) k'
  end.

Definition well_placed (size : nat) (p : pc) : Prop :=
  match p with
  | MCreate _ i k => (i + S k)%nat = size
  | _ => True
  end.

(** [stream_server_create] has returned a server. *)
Definition initialised (p : pc) : bool :=
  match p with
  | ALoad | AAccept _ | ACalloc _ | AStore _ _ | ALock _ | AEnqueue _ | ASignal | AUnlock
  | ALog | AExit | ACrash => true
  | _ => false
  end.

(** A call that does not show in [enqueued], [dequeued], [dispatched] or
    [created]. *)
Definition quiet (e : event) : bool :=
  match e with
  | EvEnqueue _ _ | EvDequeue _ (Some _) | EvCallHandler _ _ _ _ | EvPthreadCreate _ _ _ => false
  | _ => true
  end.

(** The main thread is thread 0, the others are workers, at most one for
    each call of [pthread_create] that the main thread has made. *)
Definition shape_ok (size : nat) (pcs : list pc) : Prop :=
  exists m,
    pcs !! O = Some m /\ is_main m = true /\
    (length pcs <= S (started size m))%nat /\ well_placed size m /\
    forall t p, pcs !! S t = Some p -> is_main p = false.

(** The owner of the mutex is the thread between lock and unlock. *)
Definition mutex_ok (pcs : list pc) (w : world) : Prop :=
  forall t, mutex w = Some t <-> exists p, pcs !! t = Some p /\ holds p = true.

(** The waiters are the workers blocked in [pthread_cond_wait]. *)
Definition waiting_ok (pcs : list pc) (w : world) : Prop :=
  forall t, t ∈ waiting w <-> pcs !! t = Some WBlocked.

(** A worker goes to sleep on an empty queue. *)
Definition sleep_ok (pcs : list pc) (w : world) : Prop :=
  forall t, pcs !! t = Some WSleep -> queue w = [].

(** Nothing is enqueued before [stream_server_create] has returned. *)
Definition early_ok (pcs : list pc) (w : world) : Prop :=
  forall m, pcs !! O = Some m -> initialised m = false -> enqueued (history w) = [].

(** What was enqueued has been dequeued, in the same order, or is still
    in the queue. *)
Definition fifo_ok (w : world) : Prop :=
  dequeued (history w) ++ queue w = enqueued (history w).

(** What was dequeued has been given to the handler or is in the hands of
    a worker. *)
Definition flight_ok (pcs : list pc) (w : world) : Prop :=
  dequeued (history w) ≡ₚ (dispatched (history w)).*2 ++ omap holding pcs.

(** The handles thread [t] has taken from the queue, oldest first. *)
Definition taken_by (t : tid) (h : list (tid * event)) : list ptr :=
  omap (fun te : tid * event =>
          if decide (te.1 = t)
          then match te.2 with EvDequeue _ (Some c) => Some c | _ => None end
          else None) h.

(** The handles thread [t] has given to the handler, oldest first. *)
Definition served_by (t : tid) (h : list (tid * event)) : list ptr :=
  omap (fun te : tid * event =>
          if decide (te.1 = t)
          then match te.2 with EvCallHandler _ _ c _ => Some c | _ => None end
          else None) h.

(** A worker gives to the handler what it has taken, in the order in
    which it has taken it. *)
Definition own_ok (pcs : list pc) (w : world) : Prop :=
  forall t,
    taken_by t (history w)
    = served_by t (history w)
      ++ match pcs !! t with
         | Some p => option_list (holding p)
         | None => []
         end.

(** The handles enqueued are distinct blocks, and the handle the acceptor
    is about to enqueue is not among them. *)
Definition fresh_ok (pcs : list pc) (w : world) : Prop :=
  Forall (fun c => (c < next_block w)%nat) (enqueued (history w)) /\
  NoDup (enqueued (history w)) /\
  forall t p c,
    pcs !! t = Some p -> fresh_handle p = Some c ->
    (c < next_block w)%nat /\ c ∉ enqueued (history w).

(** When the queue is not empty and there is a worker, a worker is on its
    way to the queue or the acceptor is about to signal. *)
Definition progress_ok (pcs : list pc) (w : world) : Prop :=
  (2 <= length pcs)%nat -> queue w <> [] ->
  pcs !! O = Some ASignal \/ exists t p, pcs !! t = Some p /\ active p = true.

(** The handler is called by workers. *)
Definition dispatch_ok (pcs : list pc) (w : world) : Prop :=
  Forall (fun tc : tid * ptr => (1 <= tc.1 < length pcs)%nat) (dispatched (history w)).

(** [pthread_create] has been called for the first entries of the pool,
    in order. *)
Definition created_ok (size : nat) (pcs : list pc) (w : world) : Prop :=
  forall m, pcs !! O = Some m -> created (history w) = seq 0 (started size m).

Record invariant (cfg : config) (server : ptr) (pcs : list pc) (st : state) : Prop := {
  inv_code : threads st = code_at cfg server <$> pcs;
  inv_shape : shape_ok (cfg_thread_pool_size cfg) pcs;
  inv_mutex : mutex_ok pcs (the_world st);
  inv_waiting : waiting_ok pcs (the_world st);
  inv_sleep : sleep_ok pcs (the_world st);
  inv_early : early_ok pcs (the_world st);
  inv_fifo : fifo_ok (the_world st);
  inv_flight : flight_ok pcs (the_world st);
  inv_fresh : fresh_ok pcs (the_world st);
  inv_progress : progress_ok pcs (the_world st);
  inv_dispatch : dispatch_ok pcs (the_world st);
  inv_created : created_ok (cfg_thread_pool_size cfg) pcs (the_world st);
  inv_own : own_ok pcs (the_world st)
}.

(** ** How far the process is from rest *)

(** A bound on the calls a thread at [p] has left, when [r] connections
    are still to come, the queue is empty and nobody wakes it.  What a
    thread gets from others is paid by them: 7 for a connection put in
    the queue, 6 for a wake-up, 3 for the start of a worker (whether
    [pthread_create] starts it or not). *)
Definition weight (size r : nat) (p : pc) : nat :=
  let base := (21 * r + 1)%nat in
  match p with
  | MCalloc => 4 * size + base + 12
  | MStoreHandler => 4 * size + base + 11
  | MStoreContext => 4 * size + base + 10
  | MQueueCreate => 4 * size + base + 9
  | MMutexInit => 4 * size + base + 8
  | MCondInit => 4 * size + base + 7
  | MCallocPool => 4 * size + base + 6
  | MCreate _ _ k => 4 * S k + base + 5
  | MSocket => base + 5
  | MStoreFd _ => base + 4
  | MSetsockopt _ => base + 3
  | MBind _ => base + 2
  | MListen _ => base + 1
  | MLog _ => 1
  | MExit | MCrash | MFinished => 0
  | ALoad => base
  | AAccept _ => 21 * r
  | ACalloc _ => base + 19
  | AStore _ _ => base + 18
  | ALock _ => base + 17
  | AEnqueue _ => base + 16
  | ASignal => base + 8
  | AUnlock => base + 1
  | ALog => 1
  | AExit | ACrash => 0
  | WLock => 3
  | WDeq1 => 2
  | WSleep => 1
  | WBlocked => 0
  | WWoken => 6
  | WDeq2 => 5
  | WUnlock None => 4
  | WUnlock (Some _) => 8
  | WLoadHandler _ => 7
  | WLoadContext _ _ => 6
  | WCall _ _ _ => 5
  | WFree _ => 4
  end%nat.

Definition potential (cfg : config) (pcs : list pc) (w : world) : nat :=
  (sum_list_with (weight (cfg_thread_pool_size cfg) (length (incoming w))) pcs
   + 7 * length (queue w) + 7 * spurious w)%nat.

(** The calls a process can make at most. *)
Definition budget (cfg : config) : nat :=
  (4 * cfg_thread_pool_size cfg + 21 * length (cfg_incoming cfg) + 13
   + 7 * cfg_spurious cfg)%nat.

(** ** When a thread can move *)

(** The thread [t], at [p], can make its next call in [w]. *)
Definition ready (w : world) (t : tid) (p : pc) : Prop :=
  match p with
  | MFinished | MExit | MCrash | AExit | ACrash => False
  | AAccept _ => incoming w <> []
  | ALock _ | WLock => mutex w = None
  | WBlocked | WWoken => mutex w = None /\ t ∉ waiting w
  | AEnqueue _ | AUnlock | WDeq1 | WSleep | WDeq2 | WUnlock _ => mutex w = Some t
  | _ => True
  end.

(** ** Running a schedule *)

(** [answer o c t w] makes the call [o] of thread [t] in [w] when it is
    possible.  What [op_step] leaves to the environment is fixed by [c]:
    the value returned by the kernel, what an invalid read gives, whether
    [calloc] succeeds and whether the handler closes its connection (both
    when [c] is not 0), whether [write] ends in SIGPIPE (when [c] is below
    -1), the waiter that a signal wakes. *)
Definition answer {X} (o : op X) (c : Z) (t : tid) (w : world) : option (X * world) :=
  match o in op X return option (X * world) with
  | Calloc _ _ =>
      Some (if c =? 0 then (None, w) else (Some (next_block w), alloc w))
  | Free p => Some (tt, set_mem (delete p) w)
  | Load p f => Some (match mem w !! p with Some blk => blk f | None => c end, w)
  | Store p f v => Some (tt, set_mem (alter (write_field f v) p) w)
  | LogE _ => Some (tt, w)
  | MutexInit _ => Some (tt, set_mutex None w)
  | CondInit _ => Some (tt, set_waiting ∅ w)
  | MutexLock _ =>
      match mutex w with
      | None => Some (tt, set_mutex (Some t) w)
      | Some _ => None
      end
  | MutexUnlock _ =>
      if decide (mutex w = Some t) then Some (tt, set_mutex None w) else None
  | CondSleep _ =>
      if decide (mutex w = Some t)
      then Some (tt, set_waiting ({[t]} ∪ waiting w) (set_mutex None w))
      else None
  | CondWake _ =>
      if decide (t ∈ waiting w) then None
      else match mutex w with
           | None => Some (tt, set_mutex (Some t) w)
           | Some _ => None
           end
  | CondSignal _ =>
      if decide (waiting w = ∅) then Some (tt, w)
      else if decide (Z.to_nat c ∈ waiting w)
           then Some (tt, set_waiting (waiting w ∖ {[Z.to_nat c]}) w)
           else None
  | PthreadCreate _ _ _ => Some (tt, w)
  | QueueCreate _ => Some (tt, set_queue [] w)
  | Enqueue _ item =>
      if decide (mutex w = Some t) then Some (tt, set_queue (queue w ++ [item]) w) else None
  | Dequeue _ =>
      if decide (mutex w = Some t)
      then Some (match queue w with
                 | [] => (None, w)
                 | item :: q => (Some item, set_queue q w)
                 end)
      else None
  | Socket => Some (c, open_fd c w)
  | Setsockopt _ => Some (c, w)
  | Bind _ _ => Some (c, w)
  | Listen _ _ => Some (c, w)
  | Accept _ =>
      match incoming w with
      | x :: rest => Some (x, open_fd x (set_incoming rest w))
      | [] => None
      end
  | Read _ _ _ => Some (c, w)
  | Write _ _ _ => Some (if c <? -1 then Sigpipe else Returned c, w)
  | Close fd => Some (c, if c =? 0 then set_fds (fun s => s ∖ {[fd]}) w else w)
  | CallHandler _ _ connection _ =>
      if c =? 0 then Some (tt, w)
      else match mem w !! connection with
           | Some blk => Some (tt, set_fds (fun s => s ∖ {[blk id]}) w)
           | None => None
           end
  end.

Definition prog_move {A} (t : tid) (c : Z) (p : prog A) (w : world) : option (prog A * world) :=
  match p with
  | Vis o k =>
      match answer o c t w with
      | Some (x, w1) => Some (k x, record t (ev o x) w1)
      | None => None
      end
  | _ => None
  end.

(** A [pthread_create] starts its thread when [c] is 0, and fails
    otherwise. *)
Definition started_by {A} (c : Z) (p : prog A) : list thread :=
  if c =? 0 then spawned p else [].

Definition thread_move (t : tid) (c : Z) (th : thread) (w : world)
    : option (thread * world * list thread) :=
  match th with
  | Main p =>
      match prog_move t c p w with
      | Some (p', w') => Some (settle (Main p'), w', started_by c p)
      | None => None
      end
  | Acceptor s p =>
      match prog_move t c p w with
      | Some (p', w') => Some (settle (Acceptor s p'), w', started_by c p)
      | None => None
      end
  | Worker s p =>
      match prog_move t c p w with
      | Some (p', w') => Some (settle (Worker s p'), w', started_by c p)
      | None => None
      end
  | Finished => None
  end.

(** What the scheduler decides: thread [t] makes its next call, with [c]
    for the environment, or the waiter [t] wakes up by itself. *)
Inductive choice : Type :=
| Call (t : tid) (c : Z)
| Wake (t : tid).

Definition move (m : choice) (st : state) : option state :=
  if forallb (fun th => negb (halted th)) (threads st) then
    match m with
    | Call t c =>
        match threads st !! t with
        | Some th =>
            match thread_move t c th (the_world st) with
            | Some (th', w', new) => Some (State w' (<[t:=th']> (threads st) ++ new))
            | None => None
            end
        | None => None
        end
    | Wake t =>
        match spurious (the_world st) with
        | S n =>
            if decide (t ∈ waiting (the_world st))
            then Some (State (set_spurious n
                                (set_waiting (waiting (the_world st) ∖ {[t]}) (the_world st)))
                             (threads st))
            else None
        | O => None
        end
    end
  else None.

Fixpoint schedule (l : list choice) (st : state) : option state :=
  match l with
  | [] => Some st
  | m :: l' =>
      match move m st with
      | Some st' => schedule l' st'
      | None => None
      end
  end.

(** The schedule can be followed to its end. *)
Definition followable (l : list choice) (st : state) : bool :=
  match schedule l st with
  | Some _ => true
  | None => false
  end.

(** The state a schedule leads to (the state it starts from if it cannot
    be followed). *)
Definition after (l : list choice) (st : state) : state :=
  match schedule l st with
  | Some st' => st'
  | None => st
  end.

(** ** The order of the handlers *)

(** The handler is called on the connections in the order in which they
    were enqueued. *)
Definition handlers_in_order (h : list (tid * event)) : Prop :=
  (dispatched h).*2 `prefix_of` enqueued h.

(** Two workers, two connections: both workers take a connection, the
    second one calls the handler first. *)
Definition two_workers : config := Config 8080 16 2 100 200 [10; 11] 0.

Definition overtaking : list choice :=
  [Call 0 1; Call 0 0; Call 0 0; Call 0 0; Call 0 0; Call 0 0; Call 0 1;
   Call 0 0; Call 0 0;
   Call 0 3; Call 0 0; Call 0 0; Call 0 0; Call 0 0;
   Call 0 0; Call 0 0; Call 0 1; Call 0 0; Call 0 0; Call 0 0; Call 0 0; Call 0 0;
   Call 0 0; Call 0 0; Call 0 1; Call 0 0; Call 0 0; Call 0 0; Call 0 0; Call 0 0;
   Call 1 0; Call 1 0; Call 1 0;
   Call 2 0; Call 2 0; Call 2 0; Call 2 0; Call 2 0; Call 2 0;
   Call 1 0; Call 1 0; Call 1 0]%nat.

(** ** The pool *)

Definition is_worker (th : thread) : bool :=
  match th with
  | Worker _ _ => true
  | _ => false
  end.

(** The main thread has got a server from [stream_server_create]. *)
Definition has_server (th : thread) : bool :=
  match th with
  | Acceptor _ _ => true
  | _ => false
  end.

(** The thread is about to call [pthread_create]. *)
Definition creating (th : thread) : bool :=
  match th with
  | Main p | Acceptor _ p | Worker _ p =>
      match spawned p with
      | [] => false
      | _ => true
      end
  | Finished => false
  end.

(** One worker, one connection. *)
Definition one_worker : config := Config 8080 16 1 100 200 [10] 0.

(** The worker finds the queue empty and waits; the connection arrives
    and the signal wakes the worker; the worker serves the connection and
    waits again; the main thread waits for a second connection. *)
Definition to_rest : list choice :=
  [Call 0 1; Call 0 0; Call 0 0; Call 0 0; Call 0 0; Call 0 0; Call 0 1;
   Call 0 0;
   Call 0 3; Call 0 0; Call 0 0; Call 0 0; Call 0 0;
   Call 1 0; Call 1 0; Call 1 0;
   Call 0 0; Call 0 0; Call 0 1; Call 0 0; Call 0 0; Call 0 0; Call 0 1; Call 0 0;
   Call 1 0; Call 1 0; Call 1 0; Call 1 0; Call 1 0; Call 1 0; Call 1 0;
   Call 1 0; Call 1 0; Call 1 0;
   Call 0 0]%nat.

(** A pool of two, and both calls of [pthread_create] fail: the server is
    returned all the same, the two connections are accepted and enqueued,
    and they stay in the queue. *)
Definition unstarted : list choice :=
  [Call 0 1; Call 0 0; Call 0 0; Call 0 0; Call 0 0; Call 0 0; Call 0 1;
   Call 0 1; Call 0 1;
   Call 0 3; Call 0 0; Call 0 0; Call 0 0; Call 0 0;
   Call 0 0; Call 0 0; Call 0 1; Call 0 0; Call 0 0; Call 0 0; Call 0 0; Call 0 0;
   Call 0 0; Call 0 0; Call 0 1; Call 0 0; Call 0 0; Call 0 0; Call 0 0; Call 0 0;
   Call 0 0]%nat.

(** ** The next call of a thread *)

(** [upcoming f d th] is [f] of the call that [th] makes next, and [d]
    when [th] has no call left. *)
Definition upcoming {B} (f : forall X, op X -> B) (d : B) (th : thread) : B :=
  match th with
  | Main (Vis o _) => f _ o
  | Acceptor _ (Vis o _) => f _ o
  | Worker _ (Vis o _) => f _ o
  | _ => d
  end.

(** The calls that the source makes between [pthread_mutex_lock] and the
    matching unlock (lines 68-73 and 154-157), the unlock and the wait
    included. *)
Definition guarded {X} (o : op X) : bool :=
  match o with
  | Enqueue _ _ | Dequeue _ | CondSignal _ | CondSleep _ | MutexUnlock _ => true
  | _ => false
  end.

(** The thread is in the critical section. *)
Definition in_critical_section (th : thread) : bool := upcoming (@guarded) false th.

(** The connection the thread is about to call the handler on. *)
Definition calling (th : thread) : option ptr :=
  upcoming (fun X (o : op X) =>
              match o with CallHandler _ _ c _ => Some c | _ => None end) None th.

(** The block the thread is about to free. *)
Definition releasing (th : thread) : option ptr :=
  upcoming (fun X (o : op X) => match o with Free p => Some p | _ => None end) None th.

(** The thread is blocked in [accept]. *)
Definition accepting (th : thread) : bool :=
  upcoming (fun X (o : op X) => match o with Accept _ => true | _ => false end) false th.

(** A call of [pthread_create]. *)
Definition is_create (e : event) : bool :=
  match e with
  | EvPthreadCreate _ _ _ => true
  | _ => false
  end.

(** ** More of the history *)

(** The blocks freed, oldest first. *)
Definition freed (h : list (tid * event)) : list ptr :=
  omap (fun te : tid * event => match te.2 with EvFree p => Some p | _ => None end) h.

(** The blocks thread [t] has freed, oldest first. *)
Definition freed_by (t : tid) (h : list (tid * event)) : list ptr :=
  omap (fun te : tid * event =>
          if decide (te.1 = t)
          then match te.2 with EvFree p => Some p | _ => None end
          else None) h.

(** The connection handles and the descriptor written in each
    ([connection->id = connection_fd], line 153), oldest first. *)
Definition handles (h : list (tid * event)) : list (ptr * Z) :=
  omap (fun te : tid * event =>
          match te.2 with EvStore c id fd => Some (c, fd) | _ => None end) h.

(** What [socket] has returned. *)
Definition sockets (h : list (tid * event)) : list Z :=
  omap (fun te : tid * event => match te.2 with EvSocket fd => Some fd | _ => None end) h.

(** The descriptors [accept] was called on. *)
Definition accepts_on (h : list (tid * event)) : list Z :=
  omap (fun te : tid * event =>
          match te.2 with EvAccept listen_fd _ => Some listen_fd | _ => None end) h.

(** The handler, the server and the context of each call of a handler. *)
Definition calls (h : list (tid * event)) : list (Z * ptr * Z) :=
  omap (fun te : tid * event =>
          match te.2 with
          | EvCallHandler handler server _ context => Some (handler, server, context)
          | _ => None
          end) h.

(** The servers allocated ([calloc(1, sizeof(stream_server_t))], line
    86). *)
Definition servers (h : list (tid * event)) : list ptr :=
  omap (fun te : tid * event =>
          match te.2 with EvCalloc _ stream_server_t (Some s) => Some s | _ => None end) h.

(** ** The heap between two calls *)

(** The server is allocated. *)
Definition placed (p : pc) : bool :=
  match p with
  | MCalloc | MFinished => false
  | _ => is_main p
  end.

(** [server->connection_handler] is written. *)
Definition handler_stored (p : pc) : bool :=
  match p with
  | MStoreHandler => false
  | _ => placed p
  end.

(** [server->connection_handler_context] is written. *)
Definition context_stored (p : pc) : bool :=
  match p with
  | MStoreContext => false
  | _ => handler_stored p
  end.

(** [socket] has been called. *)
Definition socket_called (p : pc) : bool :=
  match p with
  | MStoreFd _ | MSetsockopt _ | MBind _ | MListen _ | MLog _ | MExit => true
  | _ => initialised p
  end.

(** [server->socket_fd] is written. *)
Definition socket_stored (p : pc) : bool :=
  match p with
  | MStoreFd _ => false
  | _ => socket_called p
  end.

(** The handle whose descriptor the acceptor has written and that it has
    not enqueued yet. *)
Definition stored (p : pc) : option ptr :=
  match p with
  | ALock c | AEnqueue c => Some c
  | _ => None
  end.

(** The descriptor the acceptor has got from [accept] and not yet written
    in a handle. *)
Definition pending (p : pc) : option Z :=
  match p with
  | ACalloc fd | AStore fd _ => Some fd
  | _ => None
  end.

(** The handle a worker has given to the handler and not yet freed. *)
Definition freeing (p : pc) : option ptr :=
  match p with
  | WFree c => Some c
  | _ => None
  end.

(** How far the main thread is with the server. *)
Definition main_flags (p : pc) : bool * bool * bool * bool * bool :=
  (placed p, handler_stored p, context_stored p, socket_called p, socket_stored p).

(** A call that shows in none of [sockets], [accepts_on], [servers],
    [handles], [freed], [calls], [enqueued], [accepted] and [dispatched]. *)
Definition silent (e : event) : bool :=
  match e with
  | EvFree _ | EvSocket _ | EvAccept _ _ | EvCallHandler _ _ _ _ | EvEnqueue _ _
  | EvStore _ id _ | EvCalloc _ stream_server_t (Some _) => false
  | _ => true
  end.

(** What a thread has read from the server is what
    [stream_server_create] has written there. *)
Definition regs_ok (cfg : config) (listen : list Z) (p : pc) : Prop :=
  match p with
  | MStoreFd fd => listen = [fd]
  | AAccept listen_fd => listen = [listen_fd]
  | WLoadContext _ handler => handler = cfg_handler cfg
  | WCall _ handler context =>
      handler = cfg_handler cfg /\ context = cfg_handler_context cfg
  | _ => True
  end.

(** The block of the server, when the main thread is at [m]. *)
Definition server_ok (cfg : config) (server : ptr) (m : pc) (w : world) : Prop :=
  (placed m = false -> servers (history w) = []) /\
  (socket_called m = false -> sockets (history w) = [] /\ accepts_on (history w) = []) /\
  (placed m = true ->
   servers (history w) = [server] /\
   (server < next_block w)%nat /\
   exists blk,
     mem w !! server = Some blk /\
     (handler_stored m = true -> blk connection_handler = cfg_handler cfg) /\
     (context_stored m = true -> blk connection_handler_context = cfg_handler_context cfg) /\
     (socket_stored m = true -> sockets (history w) = [blk socket_fd])).

(** The handles: the [k]-th handle enqueued holds the [k]-th descriptor
    accepted, and it is allocated until it is freed. *)
Definition handles_ok (server : ptr) (m : pc) (w : world) : Prop :=
  (handles (history w)).*1 = enqueued (history w) ++ option_list (stored m) /\
  (m <> ACrash ->
   accepted (history w) = (handles (history w)).*2 ++ option_list (pending m)) /\
  (handles (history w)).*2 `prefix_of` accepted (history w) /\
  (forall c fd,
      (c, fd) ∈ handles (history w) -> c ∉ freed (history w) ->
      exists blk, mem w !! c = Some blk /\ blk id = fd) /\
  (forall fd c, m = AStore fd c -> is_Some (mem w !! c) /\ (server < c)%nat) /\
  Forall (fun c => (server < c)%nat) (handles (history w)).*1.

(** What was given to the handler has been freed, by the same worker, or
    is about to be; what was freed is no longer allocated. *)
Definition freed_ok (pcs : list pc) (w : world) : Prop :=
  (forall t,
      served_by t (history w)
      = freed_by t (history w)
        ++ match pcs !! t with
           | Some p => option_list (freeing p)
           | None => []
           end) /\
  (dispatched (history w)).*2 ≡ₚ freed (history w) ++ omap freeing pcs /\
  (forall c, c ∈ freed (history w) -> mem w !! c = None).

Record heap_invariant (cfg : config) (server : ptr) (pcs : list pc) (w : world) : Prop := {
  hp_regs : Forall (regs_ok cfg (sockets (history w))) pcs;
  hp_server : forall m, pcs !! O = Some m -> server_ok cfg server m w;
  hp_handles : forall m, pcs !! O = Some m -> handles_ok server m w;
  hp_calls :
    Forall (fun a => a = (cfg_handler cfg, server, cfg_handler_context cfg))
           (calls (history w));
  hp_accepts : Forall (fun listen_fd => sockets (history w) = [listen_fd])
                      (accepts_on (history w));
  hp_freed : freed_ok pcs w
}.

(** ** The descriptors of the connections *)

(** The descriptors among the results of [accept]: a negative result is a
    failure. *)
Definition connections (l : list Z) : list Z :=
  omap (fun r => if r <? 0 then None else Some r) l.

(** The descriptor of a connection accepted is open as long as the handler
    has not been called on the handle of the connection. *)
Definition open_ok (w : world) : Prop :=
  forall k fd,
    accepted (history w) !! k = Some fd ->
    (forall c fd', handles (history w) !! k = Some (c, fd') ->
                   c ∉ (dispatched (history w)).*2) ->
    fd ∈ fds w.

(** ** More runs *)

(** No worker: the connection is accepted and enqueued, and stays in the
    queue. *)
Definition no_worker : config := Config 8080 16 0 100 200 [10] 0.

Definition piling : list choice :=
  [Call 0 1; Call 0 0; Call 0 0; Call 0 0; Call 0 0; Call 0 0; Call 0 0;
   Call 0 3; Call 0 0; Call 0 0; Call 0 0; Call 0 0;
   Call 0 0; Call 0 0; Call 0 1; Call 0 0; Call 0 0; Call 0 0; Call 0 0; Call 0 0;
   Call 0 0]%nat.

(** * One thread at a time *)

(** ** Runs of a sequence *)

Lemma runs_bind {A B} (p : prog A) (f : A -> prog B) tr o :
  runs (bind p f) tr o <->
  (exists a tr1 tr2, runs p tr1 (Done a) /\ runs (f a) tr2 o /\ tr = tr1 ++ tr2) \/
  (exists code, runs p tr (Exited code) /\ o = Exited code) \/
  (runs p tr Crashed /\ o = Crashed).
Proof.
  revert tr. induction p as [a|code| |X op k IH]; intros tr; simpl.
  - split.
    + intros H. left. exists a, [], tr. auto.
    + intros [(a' & tr1 & tr2 & (-> & [= <-]) & Hr & ->)|[(c & (_ & [=]) & _)|((_ & [=]) & _)]].
      exact Hr.
  - split.
    + intros (-> & ->). right. left. exists code. auto.
    + intros [(a' & tr1 & tr2 & (_ & [=]) & _)|[(c & (-> & [= <-]) & ->)|((_ & [=]) & _)]].
      auto.
  - split.
    + intros (-> & ->). right. right. auto.
    + intros [(a' & tr1 & tr2 & (_ & [=]) & _)|[(c & (_ & [=]) & _)|((-> & _) & ->)]].
      auto.
  - split.
    + intros (x & tr' & -> & H). apply IH in H.
      destruct H as [(a & tr1 & tr2 & H1 & H2 & ->)|[(c & H1 & ->)|(H1 & ->)]].
      * left. exists a, (ev op x :: tr1), tr2. eauto 10.
      * right. left. eauto 10.
      * right. right. eauto 10.
    + intros [(a & tr1 & tr2 & (x & tr' & -> & H1) & H2 & ->)
             |[(c & (x & tr' & -> & H1) & ->)|((x & tr' & -> & H1) & ->)]];
        exists x; eexists; (split; [reflexivity|]); apply IH; eauto 10.
Qed.

(** A program has a run whatever the calls return: it cannot get stuck
    by itself. *)
Lemma runs_total {A} (p : prog A) (pick : forall X, op X -> X) :
  exists tr o, runs p tr o.
Proof.
  induction p as [a|code| |X op k IH]; simpl; eauto.
  destruct (IH (pick X op)) as (tr & o & H). eauto 10.
Qed.


(** Reading a run off a program, one call at a time. *)
Ltac next_call H :=
  cbn in H;
  first [ destruct H as (? & ? & -> & H) | destruct H as (-> & ->) ].

Tactic Notation "result" "of" hyp(H) "as" ident(x) :=
  cbn in H; destruct H as (x & ? & -> & H).

Ltac units := repeat match goal with u : unit |- _ => destruct u end.

Ltac follow H := repeat (next_call H); units.

(** Checking that a trace known call by call is a run. *)
Ltac replay :=
  cbn;
  repeat first
    [ split; reflexivity
    | eexists; eexists; split; [reflexivity|]; cbn
    | match goal with
      | |- context [Z.ltb ?a 0] => destruct (Z.ltb_spec a 0); [try lia|try lia]; cbn
      end ].

Ltac make_run := cbn; repeat first [ split; reflexivity | eexists ].

(** A size that is known. *)
Ltac known_size :=
  unfold stream_server_read, stream_server_write;
  repeat match goal with
         | |- context [to_size_t ?n] =>
             let v := eval vm_compute in (to_size_t n) in change (to_size_t n) with v
         end.

(** ** [stream_server_read], [stream_server_write], [stream_server_close] *)

(** What is passed for a [size_t] arrives unchanged when it is one, and a
    negative value arrives as a large one: -1 as [SIZE_MAX]. *)
Lemma to_size_t_id n : 0 <= n <= SIZE_MAX -> to_size_t n = n.
Proof. unfold to_size_t, SIZE_MAX. intros H. apply Z.mod_small. lia. Qed.

Lemma to_size_t_range n : 0 <= to_size_t n <= SIZE_MAX.
Proof.
  unfold to_size_t, SIZE_MAX.
  pose proof (Z.mod_pos_bound n (2 ^ 64) ltac:(lia)). lia.
Qed.

Lemma to_size_t_negative n : - 2 ^ 64 <= n < 0 -> to_size_t n = n + 2 ^ 64.
Proof.
  unfold to_size_t. intros H. symmetry. apply (Z.mod_unique n (2 ^ 64) (-1)); lia.
Qed.

(** C6.  [stream_server_read] with a null connection, a null buffer or a
    size below 1 returns 0 without any call.  Otherwise it reads the
    descriptor of the connection and makes one [read] of at most
    [max_data_size] bytes; it returns what [read] returned, as a [size_t],
    when that is positive, and 0 when [read] returned 0 (the peer closed)
    or a negative value (an error).  The size is a [size_t], from 0 to
    [SIZE_MAX]: below 1 is 0.  What is given for it is taken modulo 2^64:
    a negative number arrives as a large size, which is not below 1, and
    [read] is called. *)
Theorem stream_server_read_returns :
  (forall connection data max_data_size tr o,
      0 <= max_data_size <= SIZE_MAX ->
      runs (stream_server_read connection data max_data_size) tr o <->
      ((connection = None \/ data = None \/ max_data_size < 1) /\ tr = [] /\ o = Done 0) \/
      (exists c d fd r,
          connection = Some c /\ data = Some d /\ 1 <= max_data_size /\
          tr = [EvLoad c id fd; EvRead fd d max_data_size r] /\
          ((0 < r /\ o = Done (to_size_t r)) \/ (r <= 0 /\ o = Done 0)))) /\
  (forall connection data max_data_size tr o,
      runs (stream_server_read connection data max_data_size) tr o <->
      runs (stream_server_read connection data (to_size_t max_data_size)) tr o) /\
  (forall n,
      0 <= to_size_t n <= SIZE_MAX /\
      (0 <= n <= SIZE_MAX -> to_size_t n = n) /\
      (- 2 ^ 64 <= n < 0 -> to_size_t n = n + 2 ^ 64)).
Proof.
  split; [|split].
  - intros connection data max_data_size tr o Hsize.
    unfold stream_server_read. rewrite (to_size_t_id _ Hsize). split.
    + intros H. destruct connection as [c|], data as [d|]; try solve [follow H; left; auto].
      destruct (Z.ltb_spec max_data_size 1) as [Hlt|Hge].
      * follow H. left. auto.
      * result of H as fd. result of H as r. right.
        destruct (Z.gtb_spec r 0); follow H; exists c, d, fd, r; repeat split; auto; lia.
    + intros [([->|[->|Hlt]] & -> & ->)|(c & d & fd & r & -> & -> & Hge & -> & Hr)].
      * cbn; auto.
      * destruct connection; cbn; auto.
      * destruct connection, data; try (cbn; auto; fail).
        destruct (Z.ltb_spec max_data_size 1); [cbn; auto|lia].
      * destruct (Z.ltb_spec max_data_size 1); [lia|].
        cbn. exists fd. eexists. split; [reflexivity|]. exists r. eexists.
        split; [reflexivity|].
        destruct Hr as [[Hr ->]|[Hr ->]]; destruct (Z.gtb_spec r 0); try lia; cbn; auto.
  - intros connection data max_data_size tr o. unfold stream_server_read.
    rewrite (to_size_t_id (to_size_t max_data_size)) by apply to_size_t_range.
    reflexivity.
  - intros n. split; [apply to_size_t_range|].
    split; [apply to_size_t_id|apply to_size_t_negative].
Qed.

(** C7, amended.  [stream_server_write] returns nothing.  With a null
    connection, a null buffer or a size below 1 (the size is a [size_t])
    it makes no call.  Otherwise it reads the descriptor of the connection
    and makes one [write].  When [write] returns, whatever it returns (an
    error, a short count), nothing else is done and nothing is reported.
    When [write] ends in SIGPIPE, which the source neither handles nor
    ignores, the process dies in the call. *)
Theorem stream_server_write_runs connection data data_size tr o :
  runs (stream_server_write connection data data_size) tr o <->
  ((connection = None \/ data = None \/ to_size_t data_size < 1) /\ tr = [] /\ o = Done tt) \/
  (exists c d fd,
      connection = Some c /\ data = Some d /\ 1 <= to_size_t data_size /\
      ((exists r, tr = [EvLoad c id fd; EvWrite fd d (to_size_t data_size) (Returned r)] /\
                  o = Done tt) \/
       (tr = [EvLoad c id fd; EvWrite fd d (to_size_t data_size) Sigpipe] /\ o = Crashed))).
Proof.
  unfold stream_server_write. generalize (to_size_t data_size) as size. intros size. split.
  - intros H. destruct connection as [c|], data as [d|]; try solve [follow H; left; auto].
    destruct (Z.ltb_spec size 1) as [Hlt|Hge].
    + follow H. left. auto.
    + result of H as fd. result of H as r. right. exists c, d, fd.
      destruct r as [r|]; follow H; repeat split; eauto.
  - intros [([->|[->|Hlt]] & -> & ->)|(c & d & fd & -> & -> & Hge & Hr)].
    + cbn; auto.
    + destruct connection; cbn; auto.
    + destruct connection, data; try (cbn; auto; fail).
      destruct (Z.ltb_spec size 1); [cbn; auto|lia].
    + destruct (Z.ltb_spec size 1); [lia|].
      destruct Hr as [(r & -> & ->)|(-> & ->)]; cbn; exists fd; eexists;
        (split; [reflexivity|]).
      * exists (Returned r). eexists. split; [reflexivity|]. cbn. auto.
      * exists Sigpipe. eexists. split; [reflexivity|]. cbn. auto.
Qed.

(** C7, as stated, fails.  The peer has closed the connection: [write]
    ends in SIGPIPE and [stream_server_write] does not return, so that
    not every call returns with the failure dropped. *)
Lemma stream_server_write_killed :
  runs (stream_server_write (Some 2%nat) (Some 7%nat) 256)
       [EvLoad 2 id 10; EvWrite 10 7 256 Sigpipe] Crashed /\
  ~ (forall tr o,
        runs (stream_server_write (Some 2%nat) (Some 7%nat) 256) tr o -> o = Done tt).
Proof.
  assert (H : runs (stream_server_write (Some 2%nat) (Some 7%nat) 256)
                [EvLoad 2 id 10; EvWrite 10 7 256 Sigpipe] Crashed).
  { known_size. cbn. exists 10. eexists. split; [reflexivity|].
    exists Sigpipe. eexists. split; [reflexivity|]. cbn. auto. }
  split; [exact H|].
  intros Hall. specialize (Hall _ _ H). discriminate Hall.
Qed.

(** [stream_server_close] closes the descriptor of the connection. *)
Lemma stream_server_close_runs connection tr o :
  runs (stream_server_close connection) tr o <->
  o = Done tt /\
  match connection with
  | None => tr = []
  | Some c => exists fd r, tr = [EvLoad c id fd; EvClose fd r]
  end.
Proof.
  unfold stream_server_close. destruct connection as [c|]; split.
  - intros H. follow H. eauto.
  - intros (-> & fd & r & ->). cbn. exists fd. eexists. split; [reflexivity|].
    exists r. eexists. auto.
  - intros H. follow H. auto.
  - intros (-> & ->). cbn; auto.
Qed.

(** ** [stream_server_loop] *)

(** C10.  [stream_server_loop] on a null server returns at once: it makes
    no call (no [accept], no [calloc], no enqueue, no signal) and it does
    not end the process. *)
Theorem stream_server_loop_null tr o :
  runs (stream_server_loop None) tr o <-> tr = [] /\ o = Done tt.
Proof. reflexivity. Qed.

(** Every run of [stream_server_loop] on a server. *)
Lemma stream_server_loop_runs server tr o :
  runs (stream_server_loop (Some server)) tr o <->
  exists listen_fd connection_fd,
    (connection_fd < 0 /\
     tr = [EvLoad server socket_fd listen_fd; EvAccept listen_fd connection_fd;
           EvLogE "Could not accept a connection"] /\
     o = Exited (-1)) \/
    (0 <= connection_fd /\
     tr = [EvLoad server socket_fd listen_fd; EvAccept listen_fd connection_fd;
           EvCalloc 1 stream_server_connection_t None] /\
     o = Crashed) \/
    (exists connection,
        0 <= connection_fd /\
        tr = [EvLoad server socket_fd listen_fd; EvAccept listen_fd connection_fd;
              EvCalloc 1 stream_server_connection_t (Some connection);
              EvStore connection id connection_fd;
              EvMutexLock server; EvEnqueue server connection;
              EvCondSignal server; EvMutexUnlock server] /\
        o = Done tt).
Proof.
  unfold stream_server_loop, CHECK_IF_INVALID. split.
  - intros H. result of H as lfd. result of H as fd. exists lfd, fd.
    destruct (Z.ltb_spec fd 0) as [Hlt|Hge].
    + follow H. left. auto.
    + result of H as r. destruct r as [c|].
      * follow H. right. right. exists c. auto.
      * cbn in H. destruct H as (-> & ->). right. left. auto.
  - intros (lfd & fd & [(Hlt & -> & ->)|[(Hge & -> & ->)|(c & Hge & -> & ->)]]);
      cbn; exists lfd; eexists; (split; [reflexivity|]);
      exists fd; eexists; (split; [reflexivity|]);
      destruct (Z.ltb_spec fd 0); try lia.
    + make_run.
    + cbn. exists None. make_run.
    + cbn. exists (Some c). make_run.
Qed.

(** C3.  One call of [stream_server_loop] on a server makes one [accept]
    on the listening descriptor and, when it gave a connection and the
    handle could be allocated, exactly these calls after it: one [calloc]
    of a connection, the store of the descriptor in it, the lock of the
    mutex, the enqueue of the handle, one signal, the unlock.  Then it
    returns; there is no second [accept].  The signal wakes one of the
    threads that wait on the condition variable, if there is one. *)
Theorem stream_server_loop_once :
  (forall server tr o,
      runs (stream_server_loop (Some server)) tr o <->
      exists listen_fd connection_fd,
        (connection_fd < 0 /\
         tr = [EvLoad server socket_fd listen_fd; EvAccept listen_fd connection_fd;
               EvLogE "Could not accept a connection"] /\
         o = Exited (-1)) \/
        (0 <= connection_fd /\
         tr = [EvLoad server socket_fd listen_fd; EvAccept listen_fd connection_fd;
               EvCalloc 1 stream_server_connection_t None] /\
         o = Crashed) \/
        (exists connection,
            0 <= connection_fd /\
            tr = [EvLoad server socket_fd listen_fd; EvAccept listen_fd connection_fd;
                  EvCalloc 1 stream_server_connection_t (Some connection);
                  EvStore connection id connection_fd;
                  EvMutexLock server; EvEnqueue server connection;
                  EvCondSignal server; EvMutexUnlock server] /\
            o = Done tt)) /\
  (forall server t w w',
      op_step (CondSignal server) t w tt w' <->
      (waiting w = ∅ /\ w' = w) \/
      (exists t', t' ∈ waiting w /\ w' = set_waiting (waiting w ∖ {[t']}) w)) /\
  (forall listen_fd t w connection_fd w',
      op_step (Accept listen_fd) t w connection_fd w' <->
      exists rest,
        incoming w = connection_fd :: rest /\
        w' = open_fd connection_fd (set_incoming rest w)).
Proof.
  split; [exact stream_server_loop_runs|]. split; reflexivity.
Qed.

(** ** [thread_pool_handler] *)

(** The three ways through one turn of the loop. *)
Lemma thread_pool_handler_runs server tr o :
  runs (thread_pool_handler server) tr o <->
  o = Done tt /\
  ((exists c handler context,
       tr = [EvMutexLock server; EvDequeue server (Some c); EvMutexUnlock server;
             EvLoad server connection_handler handler;
             EvLoad server connection_handler_context context;
             EvCallHandler handler server c context; EvFree c]) \/
   (exists c handler context,
       tr = [EvMutexLock server; EvDequeue server None;
             EvCondSleep server; EvCondWake server; EvDequeue server (Some c);
             EvMutexUnlock server;
             EvLoad server connection_handler handler;
             EvLoad server connection_handler_context context;
             EvCallHandler handler server c context; EvFree c]) \/
   tr = [EvMutexLock server; EvDequeue server None;
         EvCondSleep server; EvCondWake server; EvDequeue server None;
         EvMutexUnlock server]).
Proof.
  unfold thread_pool_handler, serve, invoke. split.
  - intros H. next_call H. result of H as first. destruct first as [c|].
    + next_call H. result of H as handler. result of H as context. follow H.
      split; [reflexivity|]. left. exists c, handler, context. reflexivity.
    + next_call H. next_call H. result of H as second. destruct second as [c|].
      * next_call H. result of H as handler. result of H as context. follow H.
        split; [reflexivity|]. right. left. exists c, handler, context. reflexivity.
      * follow H. auto.
  - intros (-> & [(c & h & x & ->)|[(c & h & x & ->)| ->]]); cbn.
    + exists tt. eexists. split; [reflexivity|]. exists (Some c). make_run.
    + exists tt. eexists. split; [reflexivity|]. exists None. eexists.
      split; [reflexivity|]. cbn. exists tt. eexists. split; [reflexivity|].
      exists tt. eexists. split; [reflexivity|]. exists (Some c). make_run.
    + exists tt. eexists. split; [reflexivity|]. exists None. eexists.
      split; [reflexivity|]. cbn. exists tt. eexists. split; [reflexivity|].
      exists tt. eexists. split; [reflexivity|]. exists None. make_run.
Qed.

(** C2.  One turn of the loop of a worker makes these calls, in this
    order: lock the mutex; dequeue; if that gave nothing, wait once on the
    condition variable and dequeue once more; unlock the mutex; if either
    dequeue gave a connection, call the handler with the server, the
    connection and the context and, when it has returned, free the
    connection.  Waiting releases the mutex and puts the thread among the
    waiters; waking takes the mutex again. *)
Theorem thread_pool_handler_turn :
  (forall server tr o,
      runs (thread_pool_handler server) tr o <->
      o = Done tt /\
      exists first second handler context,
        tr = [EvMutexLock server; EvDequeue server first]
             ++ match first with
                | None => [EvCondSleep server; EvCondWake server; EvDequeue server second]
                | Some _ => []
                end
             ++ [EvMutexUnlock server]
             ++ match first, second with
                | Some c, _ | None, Some c =>
                    [EvLoad server connection_handler handler;
                     EvLoad server connection_handler_context context;
                     EvCallHandler handler server c context; EvFree c]
                | None, None => []
                end) /\
  (forall server t w w',
      op_step (CondSleep server) t w tt w' <->
      mutex w = Some t /\ w' = set_waiting ({[t]} ∪ waiting w) (set_mutex None w)) /\
  (forall server t w w',
      op_step (CondWake server) t w tt w' <->
      (t ∉ waiting w) /\ mutex w = None /\ w' = set_mutex (Some t) w).
Proof.
  split; [|split; reflexivity].
  intros server tr o. rewrite thread_pool_handler_runs. split.
  - intros (-> & [(c & h & x & ->)|[(c & h & x & ->)| ->]]); split; try reflexivity.
    + exists (Some c), None, h, x. reflexivity.
    + exists None, (Some c), h, x. reflexivity.
    + exists None, None, 0, 0. reflexivity.
  - intros (-> & first & second & h & x & ->). split; [reflexivity|].
    destruct first as [c|]; [|destruct second as [c|]]; cbn; eauto 10.
Qed.

(** What [free] does to the process: the block is gone, the descriptors
    are as they were. *)
Lemma exec_free connection t w o w' :
  exec (free connection) t w o w' <->
  o = Done tt /\ w' = record t (EvFree connection) (set_mem (delete connection) w).
Proof.
  cbn. split.
  - intros ([] & w1 & -> & -> & ->). auto.
  - intros (-> & ->). exists tt. eexists. eauto.
Qed.

Lemma exec_bind {A B} (p : prog A) (f : A -> prog B) t w o w' :
  exec (bind p f) t w o w' <->
  (exists a w1, exec p t w (Done a) w1 /\ exec (f a) t w1 o w') \/
  (exists code, exec p t w (Exited code) w' /\ o = Exited code) \/
  (exec p t w Crashed w' /\ o = Crashed).
Proof.
  revert w. induction p as [a|code| |X op k IH]; intros w; cbn.
  - split.
    + intros H. left. exists a, w. auto.
    + intros [(a' & w1 & ([= <-] & ->) & Hr)|[(c & ([=] & _) & _)|(([=] & _) & _)]].
      exact Hr.
  - split.
    + intros (-> & ->). right. left. exists code. auto.
    + intros [(a' & w1 & ([=] & _) & _)|[(c & ([= <-] & ->) & ->)|(([=] & _) & _)]].
      auto.
  - split.
    + intros (-> & ->). right. right. auto.
    + intros [(a' & w1 & ([=] & _) & _)|[(c & ([=] & _) & _)|((_ & ->) & ->)]].
      auto.
  - split.
    + intros (x & w1 & Hop & H). apply IH in H.
      destruct H as [(a & w2 & H1 & H2)|[(c & H1 & ->)|(H1 & ->)]].
      * left. exists a, w2. eauto 10.
      * right. left. eauto 10.
      * right. right. eauto 10.
    + intros [(a & w2 & (x & w1 & Hop & H1) & H2)
             |[(c & (x & w1 & Hop & H1) & ->)|((x & w1 & Hop & H1) & ->)]];
        exists x, w1; (split; [exact Hop|]); apply IH; eauto 10.
Qed.

(** The handler returns: its only effect on the descriptors is that it
    may have closed the one of its connection. *)
Lemma exec_invoke server connection t w o w1 :
  exec (invoke server connection) t w o w1 ->
  o = Done tt /\ mem w1 = mem w /\
  (fds w1 = fds w \/ exists blk, mem w !! connection = Some blk /\ fds w1 = fds w ∖ {[blk id]}).
Proof.
  unfold invoke. cbn.
  intros (h & ? & (-> & _) & x & ? & (-> & _) & [] & w2 & Hcall & -> & ->).
  cbn in Hcall. destruct Hcall as [->|(blk & Hblk & ->)]; cbn; eauto 10.
Qed.

(** Finding a call in a trace that is known call by call. *)
Ltac find_call Htr before :=
  repeat (destruct before as [|? before]; cbn in Htr;
          [ try discriminate Htr; try (injection Htr; intros; subst; reflexivity)
          | injection Htr as _ Htr ]);
  try (destruct before; discriminate Htr).

(** C8.  In a turn of a worker the only call after the handler is
    [free(connection)]: there is no [close].  Freeing releases the block
    of the handle and leaves the descriptors as they were when the handler
    returned; the handler itself has closed the descriptor of its
    connection or has left the descriptors alone.  So a descriptor that
    the handler did not close is still open when the handle that named it
    is gone. *)
Theorem worker_frees_handle_only :
  (forall server tr o,
      runs (thread_pool_handler server) tr o ->
      forall before handler s c context after,
        tr = before ++ EvCallHandler handler s c context :: after ->
        after = [EvFree c]) /\
  (forall server connection t w o w',
      exec (serve server connection) t w o w' <->
      exists w1,
        exec (invoke server connection) t w (Done tt) w1 /\
        o = Done tt /\
        w' = record t (EvFree connection) (set_mem (delete connection) w1)) /\
  (forall server connection t w o w',
      exec (serve server connection) t w o w' ->
      exists w1,
        exec (invoke server connection) t w (Done tt) w1 /\
        mem w' = delete connection (mem w1) /\
        fds w' = fds w1) /\
  (forall server connection t w o w1,
      exec (invoke server connection) t w o w1 ->
      o = Done tt /\ mem w1 = mem w /\
      (fds w1 = fds w \/
       exists blk, mem w !! connection = Some blk /\ fds w1 = fds w ∖ {[blk id]})).
Proof.
  assert (Hserve : forall server connection t w o w',
      exec (serve server connection) t w o w' <->
      exists w1,
        exec (invoke server connection) t w (Done tt) w1 /\
        o = Done tt /\
        w' = record t (EvFree connection) (set_mem (delete connection) w1)).
  { intros server connection t w o w'. unfold serve. rewrite exec_bind. split.
    - intros [([] & w1 & H1 & H2)|[(code & H1 & ->)|(H1 & ->)]].
      + apply exec_free in H2. destruct H2 as (-> & ->). eauto.
      + apply exec_invoke in H1. destruct H1 as ([=] & _).
      + apply exec_invoke in H1. destruct H1 as ([=] & _).
    - intros (w1 & H1 & -> & ->). left. exists tt, w1. split; [exact H1|].
      apply exec_free. auto. }
  split; [|split; [exact Hserve|split; [|exact exec_invoke]]].
  - intros server tr o H before h s c x after Htr.
    apply thread_pool_handler_runs in H.
    destruct H as (_ & [(c' & h' & x' & ->)|[(c' & h' & x' & ->)| ->]]).
    + find_call Htr before.
    + find_call Htr before.
    + find_call Htr before.
  - intros server connection t w o w' H.
    apply Hserve in H. destruct H as (w1 & H1 & -> & ->).
    exists w1. split; [exact H1|]. split; reflexivity.
Qed.

(** ** [stream_server_create] *)

(** The loop that starts the workers: with a thread pool it makes
    [thread_pool_size] calls of [pthread_create], one per slot; without one
    it crashes at the first turn. *)
Lemma create_threads_runs thread_pool server i n tr (o : outcome unit) :
  runs (create_threads thread_pool server i n) tr o <->
  match thread_pool, n with
  | Some pool, _ => tr = map (fun j => EvPthreadCreate pool j server) (seq i n) /\ o = Done tt
  | None, O => tr = [] /\ o = Done tt
  | None, S _ => tr = [] /\ o = Crashed
  end.
Proof.
  revert i tr. induction n as [|n IH]; intros i tr.
  - destruct thread_pool; reflexivity.
  - destruct thread_pool as [pool|]; [|reflexivity].
    cbn. split.
    + intros ([] & tr' & -> & H). apply IH in H. destruct H as (-> & ->). auto.
    + intros (-> & ->). exists tt. eexists. split; [reflexivity|]. apply IH. auto.
Qed.


(** Lines 100-117: the socket is created, configured, bound and put to
    listen; each result is checked. *)
Lemma opening_runs port backlog server tr o :
  runs (fd <- call Socket ;;
        call (Store server socket_fd fd) ;;
        CHECK_IF_INVALID fd "Could not create a new socket" ;;
        status <- call (Setsockopt fd) ;;
        CHECK_IF_INVALID status "Could not set socket options" ;;
        status <- call (Bind fd port) ;;
        CHECK_IF_INVALID status "Could not bind to port" ;;
        status <- call (Listen fd backlog) ;;
        CHECK_IF_INVALID status "Could not listen" ;;
        Ret (Some server)) tr o <->
  exists fd rest,
    tr = [EvSocket fd; EvStore server socket_fd fd] ++ rest /\
    opening port backlog server fd rest o.
Proof.
  unfold CHECK_IF_INVALID, opening. split.
  - intros H. result of H as fd. next_call H. exists fd. eexists. split; [reflexivity|].
    destruct (Z.ltb_spec fd 0); [follow H; auto|]. right.
    result of H as r1. exists r1. split; [assumption|].
    destruct (Z.ltb_spec r1 0); [follow H; auto|]. right.
    result of H as r2. exists r2. split; [assumption|].
    destruct (Z.ltb_spec r2 0); [follow H; auto|]. right.
    result of H as r3. exists r3. split; [assumption|].
    destruct (Z.ltb_spec r3 0); follow H; auto.
  - intros (fd & rest & -> & H).
    destruct H as [(Hfd & -> & ->)|(r1 & Hfd & [(H1 & -> & ->)|(r2 & H1 &
                  [(H2 & -> & ->)|(r3 & H2 & [(H3 & -> & ->)|(H3 & -> & ->)])])])];
      replay.
Qed.

(** Every run of [stream_server_create]. *)
Lemma stream_server_create_runs port backlog n handler context tr o :
  runs (stream_server_create port backlog n handler context) tr o <->
  (tr = [EvCalloc 1 stream_server_t None] /\ o = Done None) \/
  exists server thread_pool,
    (thread_pool = None /\ n <> O /\
     tr = setting_up server n handler context None /\ o = Crashed) \/
    ((thread_pool <> None \/ n = O) /\
     exists fd rest,
       tr = setting_up server n handler context thread_pool
            ++ spawning thread_pool server n
            ++ [EvSocket fd; EvStore server socket_fd fd] ++ rest /\
       opening port backlog server fd rest o).
Proof.
  unfold stream_server_create. split.
  - intros H. result of H as server. destruct server as [server|].
    + do 5 next_call H. result of H as thread_pool. right. exists server, thread_pool.
      apply runs_bind in H.
      destruct H as [([] & tr1 & tr2 & H1 & H2 & ->)|[(code & H1 & ->)|(H1 & ->)]];
        apply create_threads_runs in H1.
      * apply opening_runs in H2. destruct H2 as (fd & rest & -> & H2).
        right. destruct thread_pool as [pool|].
        -- destruct H1 as (-> & _). split; [left; discriminate|]. exists fd, rest. auto.
        -- destruct n; destruct H1 as (-> & [=]). split; [auto|]. exists fd, rest. auto.
      * destruct thread_pool, n; destruct H1 as (_ & [=]).
      * left. destruct thread_pool as [pool|]; [destruct H1 as (_ & [=])|].
        destruct n; destruct H1 as (-> & [=]). auto.
    + follow H. left. auto.
  - intros [(-> & ->)|(server & thread_pool & H)].
    + cbn. exists None. eexists. split; [reflexivity|]. cbn. auto.
    + cbn. exists (Some server).
      destruct H as [(-> & Hn & -> & ->)|(Hpool & fd & rest & -> & H)];
        (eexists; split; [reflexivity|]); cbn;
        do 5 (exists tt; eexists; split; [reflexivity|]); eexists; eexists;
        (split; [reflexivity|]); apply runs_bind.
      * right. right. split; [|reflexivity]. apply create_threads_runs.
        destruct n; [congruence|auto].
      * left. exists tt. eexists. eexists. split; [|split; [|reflexivity]].
        -- apply create_threads_runs.
           destruct thread_pool as [pool|]; [split; reflexivity|].
           destruct Hpool as [Hpool| ->]; [congruence|]. cbn. auto.
        -- apply opening_runs. exists fd, rest. auto.
Qed.

(** ** Failures *)

Lemma skip_quiet (P : event -> bool) l1 l2 before e after :
  l1 ++ l2 = before ++ e :: after ->
  Forall (fun x => P x = false) l1 ->
  P e = true ->
  exists before', before = l1 ++ before' /\ l2 = before' ++ e :: after.
Proof.
  revert before. induction l1 as [|x l1 IH]; intros before Heq Hall He.
  - exists before. auto.
  - apply Forall_cons in Hall. destruct Hall as [Hx Hall].
    destruct before as [|y before]; cbn in Heq.
    + injection Heq as -> _. congruence.
    + injection Heq as -> Heq. destruct (IH before Heq Hall He) as (b & -> & ->).
      exists b. auto.
Qed.

Lemma setting_up_quiet server n handler context thread_pool :
  Forall (fun x => failed x = false)
    (setting_up server n handler context thread_pool ++ spawning thread_pool server n).
Proof.
  apply Forall_app. split.
  - unfold setting_up. repeat constructor.
  - unfold spawning. destruct thread_pool; [|constructor].
    apply Forall_forall. intros e He. apply list_elem_of_fmap in He.
    destruct He as (j & -> & _). reflexivity.
Qed.

(** Looking for a failed call in a trace known call by call. *)
Ltac find_failure Htr before Hfail :=
  repeat (destruct before as [|? before]; cbn in Htr;
          [ try discriminate Htr;
            injection Htr; intros; subst; cbn in Hfail;
            try discriminate Hfail;
            try (apply Z.ltb_lt in Hfail; lia);
            eauto 10
          | injection Htr as _ Htr ]);
  try (destruct before; discriminate Htr).

Ltac is_member :=
  repeat first [ apply list_elem_of_here
               | apply list_elem_of_further
               | apply elem_of_app; right ].

Ltac last_call H :=
  apply (f_equal last) in H; rewrite ?app_assoc in H;
  repeat (rewrite last_app_cons in H); cbn in H; try discriminate H.

(** C5.  In [stream_server_create] and in [stream_server_loop], a call of
    [socket], [setsockopt], [bind], [listen] or [accept] that returns a
    negative value ends the process with [exit(-1)]: after the failed call
    there is only the error message (and, for [socket], the store of its
    result that precedes the check), nothing is freed or closed and no
    value is returned.  The process is ended by [exit] in no other case.
    [stream_server_create] returns a server exactly when the four calls
    were made and none failed. *)
Theorem failures_are_fatal :
  (forall port backlog n handler context tr o,
      runs (stream_server_create port backlog n handler context) tr o ->
      (forall before e after,
          tr = before ++ e :: after -> failed e = true ->
          o = Exited (-1) /\
          exists msg, after = [EvLogE msg] \/
                      exists server fd, after = [EvStore server socket_fd fd; EvLogE msg]) /\
      (forall code, o = Exited code -> code = -1 /\ exists e, e ∈ tr /\ failed e = true) /\
      (forall server,
          o = Done (Some server) <->
          exists before fd r1 r2 r3,
            tr = before ++ [EvSocket fd; EvStore server socket_fd fd; EvSetsockopt fd r1;
                            EvBind fd port r2; EvListen fd backlog r3] /\
            0 <= fd /\ 0 <= r1 /\ 0 <= r2 /\ 0 <= r3)) /\
  (forall server tr o,
      runs (stream_server_loop server) tr o ->
      (forall before e after,
          tr = before ++ e :: after -> failed e = true ->
          o = Exited (-1) /\ exists msg, after = [EvLogE msg]) /\
      (forall code, o = Exited code -> code = -1 /\ exists e, e ∈ tr /\ failed e = true)).
Proof.
  split.
  - intros port backlog n handler context tr o H.
    apply stream_server_create_runs in H.
    destruct H as [(-> & ->)|(server & pool & [(-> & Hn & -> & ->)|(Hpool & fd & rest & -> & H)])].
    + split; [|split].
      * intros before e after Htr Hfail. find_failure Htr before Hfail.
      * intros code [=].
      * intros server. split; [intros [=]|].
        intros (before & fd & r1 & r2 & r3 & Htr & _). last_call Htr.
    + split; [|split].
      * intros before e after Htr Hfail. unfold setting_up in Htr.
        find_failure Htr before Hfail.
      * intros code [=].
      * intros server'. split; [intros [=]|].
        intros (before & fd & r1 & r2 & r3 & Htr & _). unfold setting_up in Htr.
        last_call Htr.
    + split; [|split].
      * intros before e after Htr Hfail. rewrite app_assoc in Htr.
        apply skip_quiet with (P := failed) in Htr;
          [|apply setting_up_quiet|exact Hfail].
        destruct Htr as (before' & -> & Htr). symmetry in Htr.
        destruct H as [(Hfd & -> & ->)|(r1 & Hfd & [(H1 & -> & ->)|(r2 & H1 &
                  [(H2 & -> & ->)|(r3 & H2 & [(H3 & -> & ->)|(H3 & -> & ->)])])])];
          find_failure Htr before' Hfail.
      * intros code Ho.
        destruct H as [(Hfd & -> & ->)|(r1 & Hfd & [(H1 & -> & ->)|(r2 & H1 &
                  [(H2 & -> & ->)|(r3 & H2 & [(H3 & -> & ->)|(H3 & -> & ->)])])])];
          try discriminate Ho; injection Ho as <-; (split; [reflexivity|]).
        -- exists (EvSocket fd). split; [is_member|]. cbn. lia.
        -- exists (EvSetsockopt fd r1). split; [is_member|]. cbn. lia.
        -- exists (EvBind fd port r2). split; [is_member|]. cbn. lia.
        -- exists (EvListen fd backlog r3). split; [is_member|]. cbn. lia.
      * intros server'. split.
        -- intros Ho.
           destruct H as [(Hfd & -> & ->)|(r1 & Hfd & [(H1 & -> & ->)|(r2 & H1 &
                  [(H2 & -> & ->)|(r3 & H2 & [(H3 & -> & ->)|(H3 & -> & ->)])])])];
             try discriminate Ho; injection Ho as <-.
           eexists. exists fd, r1, r2, r3. rewrite app_assoc. auto.
        -- intros (before & fd' & r1' & r2' & r3' & Htr & Hfd' & H1' & H2' & H3').
           destruct H as [(Hfd & -> & ->)|(r1 & Hfd & [(H1 & -> & ->)|(r2 & H1 &
                  [(H2 & -> & ->)|(r3 & H2 & [(H3 & -> & ->)|(H3 & -> & ->)])])])];
             try (exfalso; last_call Htr; fail).
           rewrite app_assoc in Htr.
           apply app_inj_2 in Htr; [|reflexivity].
           destruct Htr as (_ & Htr). injection Htr as <- <-. reflexivity.
  - intros [server|] tr o H.
    + apply stream_server_loop_runs in H.
      destruct H as (lfd & fd & [(Hlt & -> & ->)|[(Hge & -> & ->)|(c & Hge & -> & ->)]]).
      * split.
        -- intros before e after Htr Hfail. find_failure Htr before Hfail.
        -- intros code [= <-]. split; [reflexivity|].
           exists (EvAccept lfd fd). split; [is_member|]. cbn. lia.
      * split; [|intros code [=]].
        intros before e after Htr Hfail. find_failure Htr before Hfail.
      * split; [|intros code [=]].
        intros before e after Htr Hfail. find_failure Htr before Hfail.
    + cbn in H. destruct H as (-> & ->).
      split; [|intros code [=]].
      intros before e after Htr Hfail. destruct before; discriminate Htr.
Qed.

(** ** Examples *)

(** [socket] fails: the process exits, no thread of the pool is joined and
    nothing is freed. *)
Example create_without_socket :
  runs (stream_server_create 8080 16 2 100 200)
       [EvCalloc 1 stream_server_t (Some 0%nat);
        EvStore 0 connection_handler 100; EvStore 0 connection_handler_context 200;
        EvQueueCreate 0; EvMutexInit 0; EvCondInit 0;
        EvCalloc 2 pthread_t (Some 1%nat);
        EvPthreadCreate 1 0 0; EvPthreadCreate 1 1 0;
        EvSocket (-1); EvStore 0 socket_fd (-1);
        EvLogE "Could not create a new socket"]
       (Exited (-1)).
Proof. replay. Qed.

(** All the calls succeed: the server is returned. *)
Example create_listening :
  runs (stream_server_create 8080 16 1 100 200)
       [EvCalloc 1 stream_server_t (Some 0%nat);
        EvStore 0 connection_handler 100; EvStore 0 connection_handler_context 200;
        EvQueueCreate 0; EvMutexInit 0; EvCondInit 0;
        EvCalloc 1 pthread_t (Some 1%nat);
        EvPthreadCreate 1 0 0;
        EvSocket 3; EvStore 0 socket_fd 3;
        EvSetsockopt 3 0; EvBind 3 8080 0; EvListen 3 16 0]
       (Done (Some 0%nat)).
Proof. replay. Qed.

(** The peer has closed the connection: [read] returns 0, and so does
    [stream_server_read]; so it does on an error. *)
Example read_at_end_of_stream :
  runs (stream_server_read (Some 2%nat) (Some 7%nat) 256)
       [EvLoad 2 id 10; EvRead 10 7 256 0] (Done 0) /\
  runs (stream_server_read (Some 2%nat) (Some 7%nat) 256)
       [EvLoad 2 id 10; EvRead 10 7 256 (-1)] (Done 0) /\
  runs (stream_server_read (Some 2%nat) (Some 7%nat) 256)
       [EvLoad 2 id 10; EvRead 10 7 256 5] (Done 5).
Proof. known_size. split; [|split]; replay. Qed.

(** A size of 0 is caught by the guard.  -1 is not: it arrives as
    [SIZE_MAX], and [read] is called with it. *)
Example read_sizes :
  (forall tr o,
      runs (stream_server_read (Some 2%nat) (Some 7%nat) 0) tr o -> tr = [] /\ o = Done 0) /\
  runs (stream_server_read (Some 2%nat) (Some 7%nat) (-1))
       [EvLoad 2 id 10; EvRead 10 7 18446744073709551615 5] (Done 5).
Proof.
  known_size. split.
  - intros tr o H. cbn in H. exact H.
  - replay.
Qed.

(** A short or failed [write] is not retried and not reported. *)
Example write_short :
  runs (stream_server_write (Some 2%nat) (Some 7%nat) 256)
       [EvLoad 2 id 10; EvWrite 10 7 256 (Returned 100)] (Done tt) /\
  runs (stream_server_write (Some 2%nat) (Some 7%nat) 256)
       [EvLoad 2 id 10; EvWrite 10 7 256 (Returned (-1))] (Done tt).
Proof.
  known_size. split; cbn; (exists 10; eexists; split; [reflexivity|]);
    eexists (Returned _); eexists; (split; [reflexivity|]); cbn; auto.
Qed.

(** * The process *)

(** ** Lists of program points *)

Lemma insert_middle {A} (l : list A) (i : nat) (x y : A) :
  l !! i = Some x ->
  exists l1 l2, l = l1 ++ x :: l2 /\ <[i:=y]> l = l1 ++ y :: l2.
Proof.
  intros Hi. exists (take i l), (drop (S i) l). split.
  - symmetry. apply take_drop_middle. exact Hi.
  - apply insert_take_drop. apply lookup_lt_Some in Hi. exact Hi.
Qed.

Lemma sum_list_with_insert {A} (f : A -> nat) (l : list A) (i : nat) (x y : A) :
  l !! i = Some x ->
  (sum_list_with f (<[i:=y]> l) + f x = sum_list_with f l + f y)%nat.
Proof.
  intros Hi. destruct (insert_middle l i x y Hi) as (l1 & l2 & -> & ->).
  rewrite !sum_list_with_app. simpl. lia.
Qed.

Lemma omap_insert_same {A B} (f : A -> option B) (l : list A) (i : nat) (x y : A) :
  l !! i = Some x -> f y = f x -> omap f (<[i:=y]> l) = omap f l.
Proof.
  intros Hi Hf. destruct (insert_middle l i x y Hi) as (l1 & l2 & -> & ->).
  rewrite !omap_app. simpl. rewrite Hf. reflexivity.
Qed.

Lemma omap_insert_gain {A B} (f : A -> option B) (l : list A) (i : nat) (x y : A) (b : B) :
  l !! i = Some x -> f x = None -> f y = Some b ->
  omap f (<[i:=y]> l) ≡ₚ b :: omap f l.
Proof.
  intros Hi Hx Hy. destruct (insert_middle l i x y Hi) as (l1 & l2 & -> & ->).
  rewrite !omap_app. simpl. rewrite Hx, Hy. symmetry. apply Permutation_middle.
Qed.

Lemma omap_insert_loss {A B} (f : A -> option B) (l : list A) (i : nat) (x y : A) (b : B) :
  l !! i = Some x -> f x = Some b -> f y = None ->
  b :: omap f (<[i:=y]> l) ≡ₚ omap f l.
Proof.
  intros Hi Hx Hy. destruct (insert_middle l i x y Hi) as (l1 & l2 & -> & ->).
  rewrite !omap_app. simpl. rewrite Hx, Hy. apply Permutation_middle.
Qed.

(** ** Histories *)

Lemma enqueued_snoc h t e :
  enqueued (h ++ [(t, e)]) =
  enqueued h ++ match e with EvEnqueue _ c => [c] | _ => [] end.
Proof. unfold enqueued. rewrite omap_app. cbn. destruct e; reflexivity. Qed.

Lemma dequeued_snoc h t e :
  dequeued (h ++ [(t, e)]) =
  dequeued h ++ match e with EvDequeue _ (Some c) => [c] | _ => [] end.
Proof.
  unfold dequeued. rewrite omap_app. cbn. destruct e as [| | | | | | | | | | | | | | |? []| | | | | | | | |]; reflexivity.
Qed.

Lemma dispatched_snoc h t e :
  dispatched (h ++ [(t, e)]) =
  dispatched h ++ match e with EvCallHandler _ _ c _ => [(t, c)] | _ => [] end.
Proof. unfold dispatched. rewrite omap_app. cbn. destruct e; reflexivity. Qed.

Lemma created_snoc h t e :
  created (h ++ [(t, e)]) =
  created h ++ match e with EvPthreadCreate _ i _ => [i] | _ => [] end.
Proof.
  unfold created, creations. rewrite fmap_app, omap_app. cbn. destruct e; reflexivity.
Qed.

(** ** One thread moves: what it does to each part of the invariant *)

Ltac at_thread t0 t :=
  let Heq := fresh "Heq" in
  destruct (decide (t0 = t)) as [Heq|?];
  [ first [subst t0 | subst t];
    rewrite ?list_lookup_insert_eq in * by eauto using lookup_lt_Some
  | rewrite ?list_lookup_insert_ne in * by congruence ].

(** *** The threads *)

Lemma shape_main_zero size pcs t p :
  shape_ok size pcs -> pcs !! t = Some p -> is_main p = true -> t = O.
Proof.
  intros (m & _ & _ & _ & _ & Hw) Hp Hm. destruct t as [|t]; [reflexivity|].
  rewrite (Hw t p Hp) in Hm. discriminate.
Qed.

Lemma shape_worker_pos size pcs t p :
  shape_ok size pcs -> pcs !! t = Some p -> is_main p = false -> (1 <= t)%nat.
Proof.
  intros (m & H0 & Hm & _) Hp Hw. destruct t as [|t]; [|lia].
  rewrite H0 in Hp. injection Hp as ->. congruence.
Qed.

Lemma shape_update size pcs t p p' :
  shape_ok size pcs -> pcs !! t = Some p ->
  is_main p' = is_main p ->
  (is_main p = true -> started size p' = started size p /\ well_placed size p') ->
  shape_ok size (<[t:=p']> pcs).
Proof.
  intros (m & H0 & Hm & Hlen & Hwp & Hw) Hp Hsame Hst.
  destruct t as [|t].
  - rewrite H0 in Hp. injection Hp as <-.
    destruct (Hst Hm) as (Hs & Hwp').
    exists p'. rewrite length_insert, Hs.
    split; [apply list_lookup_insert_eq; apply lookup_lt_Some in H0; exact H0|].
    split; [congruence|]. split; [exact Hlen|]. split; [exact Hwp'|].
    intros t q Hq. rewrite list_lookup_insert_ne in Hq by lia. eauto.
  - exists m. rewrite length_insert.
    split; [rewrite list_lookup_insert_ne by lia; exact H0|].
    split; [exact Hm|]. split; [exact Hlen|]. split; [exact Hwp|].
    intros t0 q Hq. destruct (decide (t0 = t)) as [->|Hne].
    + rewrite list_lookup_insert_eq in Hq by (apply lookup_lt_Some in Hp; exact Hp).
      injection Hq as <-. rewrite Hsame. eauto.
    + rewrite list_lookup_insert_ne in Hq by congruence. eauto.
Qed.

Lemma shape_spawn size pcs p p' :
  shape_ok size pcs -> pcs !! O = Some p ->
  is_main p' = true -> started size p' = S (started size p) -> well_placed size p' ->
  shape_ok size (<[O:=p']> pcs ++ [WLock]).
Proof.
  intros (m & H0 & Hm & Hlen & Hwp & Hw) Hp Hmain Hst Hwp'.
  rewrite H0 in Hp. injection Hp as <-.
  assert (Hlt : (0 < length pcs)%nat) by (apply lookup_lt_Some in H0; exact H0).
  exists p'. split.
  { rewrite lookup_app_l by (rewrite length_insert; exact Hlt).
    apply list_lookup_insert_eq. exact Hlt. }
  split; [exact Hmain|]. split.
  { rewrite length_app, length_insert, Hst. cbn. lia. }
  split; [exact Hwp'|].
  intros t q Hq. apply lookup_app_Some in Hq. destruct Hq as [Hq|(_ & Hq)].
  - rewrite list_lookup_insert_ne in Hq by lia. eauto.
  - destruct (S t - length (<[0%nat:=p']> pcs))%nat as [|[|]]; cbn in Hq; try discriminate.
    injection Hq as <-. reflexivity.
Qed.

(** [pthread_create] has started nothing. *)
Lemma shape_skip size pcs p p' :
  shape_ok size pcs -> pcs !! O = Some p ->
  is_main p' = true -> started size p' = S (started size p) -> well_placed size p' ->
  shape_ok size (<[O:=p']> pcs).
Proof.
  intros (m & H0 & Hm & Hlen & Hwp & Hw) Hp Hmain Hst Hwp'.
  rewrite H0 in Hp. injection Hp as <-.
  assert (Hlt : (0 < length pcs)%nat) by (apply lookup_lt_Some in H0; exact H0).
  exists p'. split; [apply list_lookup_insert_eq; exact Hlt|].
  split; [exact Hmain|]. split; [rewrite length_insert, Hst; lia|].
  split; [exact Hwp'|].
  intros t q Hq. rewrite list_lookup_insert_ne in Hq by lia. eauto.
Qed.

(** *** The mutex *)

Lemma mutex_keep pcs w w' t p p' :
  mutex_ok pcs w -> pcs !! t = Some p ->
  holds p' = holds p -> mutex w' = mutex w ->
  mutex_ok (<[t:=p']> pcs) w'.
Proof.
  intros Hm Hp Hh Hw t0. rewrite Hw, (Hm t0). at_thread t0 t.
  - split; intros (q & Hq & Hhq).
    + rewrite Hp in Hq. injection Hq as <-. exists p'. split; [reflexivity|congruence].
    + injection Hq as <-. exists p. split; [exact Hp|congruence].
  - reflexivity.
Qed.

Lemma mutex_acquire pcs w w' t p p' :
  mutex_ok pcs w -> pcs !! t = Some p ->
  mutex w = None -> holds p' = true -> mutex w' = Some t ->
  mutex_ok (<[t:=p']> pcs) w'.
Proof.
  intros Hm Hp Hfree Hh Hw t0. rewrite Hw. at_thread t0 t.
  - split; eauto.
  - split; [congruence|]. intros Hq. apply Hm in Hq. congruence.
Qed.

Lemma mutex_release pcs w w' t p p' :
  mutex_ok pcs w -> pcs !! t = Some p ->
  mutex w = Some t -> holds p' = false -> mutex w' = None ->
  mutex_ok (<[t:=p']> pcs) w'.
Proof.
  intros Hm Hp Hheld Hh Hw t0. rewrite Hw. at_thread t0 t.
  - split; [discriminate|]. intros (q & Hq & Hhq). simplify_eq. congruence.
  - split; [discriminate|]. intros Hq. apply Hm in Hq. congruence.
Qed.

Lemma mutex_spawn pcs w q :
  mutex_ok pcs w -> holds q = false -> mutex_ok (pcs ++ [q]) w.
Proof.
  intros Hm Hq t0. rewrite (Hm t0). split; intros (p & Hp & Hh).
  - exists p. split; [apply lookup_app_l_Some; exact Hp|exact Hh].
  - apply lookup_app_Some in Hp. destruct Hp as [Hp|(_ & Hp)]; [eauto|].
    destruct (t0 - length pcs)%nat as [|[|]]; cbn in Hp; try discriminate.
    injection Hp as <-. congruence.
Qed.

Lemma mutex_holder pcs w t p :
  mutex_ok pcs w -> pcs !! t = Some p -> holds p = true -> mutex w = Some t.
Proof. intros Hm Hp Hh. apply Hm. eauto. Qed.

Lemma mutex_free pcs w t p :
  mutex_ok pcs w -> pcs !! t = Some p -> mutex w = None -> holds p = false.
Proof.
  intros Hm Hp Hfree. destruct (holds p) eqn:Hh; [|reflexivity].
  rewrite (mutex_holder pcs w t p Hm Hp Hh) in Hfree. discriminate.
Qed.

(** *** The waiters *)

Lemma waiting_keep pcs w w' t p p' :
  waiting_ok pcs w -> pcs !! t = Some p ->
  p <> WBlocked -> p' <> WBlocked -> waiting w' = waiting w ->
  waiting_ok (<[t:=p']> pcs) w'.
Proof.
  intros Hm Hp Hn Hn' Hw t0. rewrite Hw, (Hm t0). at_thread t0 t.
  - split; intros Hq; simplify_eq.
  - reflexivity.
Qed.

Lemma waiting_sleep pcs w w' t p :
  waiting_ok pcs w -> pcs !! t = Some p ->
  waiting w' = {[t]} ∪ waiting w ->
  waiting_ok (<[t:=WBlocked]> pcs) w'.
Proof.
  intros Hm Hp Hw t0. rewrite Hw. at_thread t0 t.
  - split; [reflexivity|]. intros _. apply elem_of_union. left.
    apply elem_of_singleton. reflexivity.
  - rewrite <- (Hm t0), elem_of_union, elem_of_singleton.
    split; [intros [?|?]; [congruence|assumption]|auto].
Qed.

Lemma waiting_wake pcs w w' t :
  waiting_ok pcs w -> t ∈ waiting w ->
  waiting w' = waiting w ∖ {[t]} ->
  waiting_ok (<[t:=WWoken]> pcs) w'.
Proof.
  intros Hm Hin Hw t0. rewrite Hw.
  assert (Hp : pcs !! t = Some WBlocked) by (apply Hm; exact Hin).
  at_thread t0 t.
  - split; [|discriminate]. rewrite elem_of_difference, elem_of_singleton. tauto.
  - rewrite <- (Hm t0), elem_of_difference, elem_of_singleton.
    split; [tauto|]. intros ?. split; [assumption|congruence].
Qed.

Lemma waiting_spawn pcs w q :
  waiting_ok pcs w -> q <> WBlocked -> waiting_ok (pcs ++ [q]) w.
Proof.
  intros Hm Hq t0. rewrite (Hm t0). split; intros Hp.
  - apply lookup_app_l_Some. exact Hp.
  - apply lookup_app_Some in Hp. destruct Hp as [Hp|(_ & Hp)]; [exact Hp|].
    destruct (t0 - length pcs)%nat as [|[|]]; cbn in Hp; try discriminate.
    congruence.
Qed.

(** *** Going to sleep *)

Lemma sleep_empty pcs w' :
  queue w' = [] -> sleep_ok pcs w'.
Proof. intros Hq t0 _. exact Hq. Qed.

Lemma sleep_shrink pcs w w' t p p' :
  sleep_ok pcs w -> pcs !! t = Some p ->
  p' <> WSleep -> (queue w = [] -> queue w' = []) ->
  sleep_ok (<[t:=p']> pcs) w'.
Proof.
  intros Hs Hp Hn Hq t0 H0. at_thread t0 t; [congruence|]. eauto.
Qed.

Lemma sleep_holder pcs w w' t p p' :
  mutex_ok pcs w -> pcs !! t = Some p -> holds p = true ->
  p' <> WSleep ->
  sleep_ok (<[t:=p']> pcs) w'.
Proof.
  intros Hm Hp Hh Hn t0 H0. at_thread t0 t; [congruence|].
  pose proof (mutex_holder pcs w t p Hm Hp Hh) as H1.
  pose proof (mutex_holder pcs w t0 WSleep Hm H0 eq_refl) as H2.
  congruence.
Qed.

Lemma sleep_spawn pcs w q :
  sleep_ok pcs w -> q <> WSleep -> sleep_ok (pcs ++ [q]) w.
Proof.
  intros Hs Hq t0 Hp. apply lookup_app_Some in Hp. destruct Hp as [Hp|(_ & Hp)]; [eauto|].
  destruct (t0 - length pcs)%nat as [|[|]]; cbn in Hp; try discriminate.
  congruence.
Qed.

(** *** The history *)

Lemma quiet_enqueued h t e : quiet e = true -> enqueued (h ++ [(t, e)]) = enqueued h.
Proof. intros Hq. rewrite enqueued_snoc. destruct e; try discriminate; apply app_nil_r. Qed.

Lemma quiet_dequeued h t e : quiet e = true -> dequeued (h ++ [(t, e)]) = dequeued h.
Proof.
  intros Hq. rewrite dequeued_snoc.
  destruct e as [| | | | | | | | | | | | | | |? []| | | | | | | | |];
    try discriminate; apply app_nil_r.
Qed.

Lemma quiet_dispatched h t e : quiet e = true -> dispatched (h ++ [(t, e)]) = dispatched h.
Proof. intros Hq. rewrite dispatched_snoc. destruct e; try discriminate; apply app_nil_r. Qed.

Lemma quiet_created h t e : quiet e = true -> created (h ++ [(t, e)]) = created h.
Proof. intros Hq. rewrite created_snoc. destruct e; try discriminate; apply app_nil_r. Qed.

Lemma early_keep pcs w w' t p p' :
  early_ok pcs w -> pcs !! t = Some p ->
  (initialised p' = false -> initialised p = false) ->
  enqueued (history w') = enqueued (history w) ->
  early_ok (<[t:=p']> pcs) w'.
Proof.
  intros He Hp Hi Hh m Hm Hinit. rewrite Hh. revert Hm. at_thread O t.
  - intros [= <-]. eauto.
  - intros Hm. eauto.
Qed.

Lemma early_done size pcs w' t p p' :
  shape_ok size pcs -> pcs !! t = Some p -> is_main p = true ->
  initialised p' = true ->
  early_ok (<[t:=p']> pcs) w'.
Proof.
  intros Hs Hp Hm Hi m H0 Hinit.
  pose proof (shape_main_zero size pcs t p Hs Hp Hm) as ->.
  rewrite list_lookup_insert_eq in H0 by eauto using lookup_lt_Some.
  injection H0 as <-. congruence.
Qed.

Lemma early_spawn pcs w m q :
  early_ok pcs w -> pcs !! O = Some m -> early_ok (pcs ++ [q]) w.
Proof.
  intros He H0 m' Hm Hinit. rewrite lookup_app_l in Hm by eauto using lookup_lt_Some.
  eauto.
Qed.

Lemma flight_keep pcs w w' t p p' :
  flight_ok pcs w -> pcs !! t = Some p ->
  holding p' = holding p ->
  dequeued (history w') = dequeued (history w) ->
  dispatched (history w') = dispatched (history w) ->
  flight_ok (<[t:=p']> pcs) w'.
Proof.
  unfold flight_ok. intros Hf Hp Hh -> ->.
  rewrite (omap_insert_same holding pcs t p p' Hp Hh). exact Hf.
Qed.

Lemma flight_take pcs w w' t p p' c :
  flight_ok pcs w -> pcs !! t = Some p ->
  holding p = None -> holding p' = Some c ->
  dequeued (history w') = dequeued (history w) ++ [c] ->
  dispatched (history w') = dispatched (history w) ->
  flight_ok (<[t:=p']> pcs) w'.
Proof.
  unfold flight_ok. intros Hf Hp Hh Hh' -> ->.
  rewrite (omap_insert_gain holding pcs t p p' c Hp Hh Hh'), Hf.
  rewrite <- app_assoc. apply Permutation_app_head.
  symmetry. apply Permutation_cons_append.
Qed.

Lemma flight_give pcs w w' t p p' c :
  flight_ok pcs w -> pcs !! t = Some p ->
  holding p = Some c -> holding p' = None ->
  dequeued (history w') = dequeued (history w) ->
  dispatched (history w') = dispatched (history w) ++ [(t, c)] ->
  flight_ok (<[t:=p']> pcs) w'.
Proof.
  unfold flight_ok. intros Hf Hp Hh Hh' -> ->.
  rewrite Hf, <- (omap_insert_loss holding pcs t p p' c Hp Hh Hh').
  rewrite fmap_app. cbn. rewrite <- app_assoc. reflexivity.
Qed.

Lemma flight_spawn pcs w q :
  flight_ok pcs w -> holding q = None -> flight_ok (pcs ++ [q]) w.
Proof.
  unfold flight_ok. intros Hf Hq. rewrite omap_app. cbn. rewrite Hq, app_nil_r. exact Hf.
Qed.

Lemma fresh_is_main p c : fresh_handle p = Some c -> is_main p = true.
Proof. destruct p; cbn; congruence. Qed.

Lemma fresh_keep pcs w w' t p p' :
  fresh_ok pcs w -> pcs !! t = Some p ->
  (fresh_handle p' = None \/ fresh_handle p' = fresh_handle p) ->
  enqueued (history w') = enqueued (history w) ->
  (next_block w <= next_block w')%nat ->
  fresh_ok (<[t:=p']> pcs) w'.
Proof.
  intros (Hb & Hn & Hf) Hp Hh He Hnb. unfold fresh_ok. rewrite He.
  split; [|split; [exact Hn|]].
  - eapply Forall_impl; [exact Hb|]. cbn. intros. lia.
  - intros t0 q c Hq Hc. revert Hq. at_thread t0 t.
    + intros [= <-]. destruct Hh as [Hh|Hh]; [congruence|].
      rewrite Hh in Hc. destruct (Hf t p c Hp Hc). split; [lia|assumption].
    + intros Hq. destruct (Hf t0 q c Hq Hc). split; [lia|assumption].
Qed.

Lemma fresh_alloc pcs w w' t p p' :
  fresh_ok pcs w -> pcs !! t = Some p ->
  fresh_handle p' = Some (next_block w) ->
  enqueued (history w') = enqueued (history w) ->
  next_block w' = S (next_block w) ->
  fresh_ok (<[t:=p']> pcs) w'.
Proof.
  intros (Hb & Hn & Hf) Hp Hh He Hnb. unfold fresh_ok. rewrite He, Hnb.
  split; [|split; [exact Hn|]].
  - eapply Forall_impl; [exact Hb|]. cbn. intros. lia.
  - intros t0 q c Hq Hc. revert Hq. at_thread t0 t.
    + intros [= <-]. rewrite Hh in Hc. injection Hc as <-. split; [lia|].
      intros Hin. rewrite Forall_forall in Hb. apply Hb in Hin. lia.
    + intros Hq. destruct (Hf t0 q c Hq Hc). split; [lia|assumption].
Qed.

Lemma fresh_enqueue size pcs w w' t p p' c :
  fresh_ok pcs w -> shape_ok size pcs -> pcs !! t = Some p ->
  fresh_handle p = Some c -> fresh_handle p' = None ->
  enqueued (history w') = enqueued (history w) ++ [c] ->
  next_block w' = next_block w ->
  fresh_ok (<[t:=p']> pcs) w'.
Proof.
  intros (Hb & Hn & Hf) Hs Hp Hc Hc' He Hnb. unfold fresh_ok. rewrite He, Hnb.
  destruct (Hf t p c Hp Hc) as (Hlt & Hnew).
  split; [|split].
  - apply Forall_app. split; [exact Hb|]. repeat constructor. exact Hlt.
  - apply NoDup_app. split; [exact Hn|]. split; [|apply NoDup_singleton].
    intros x Hx Hx'. apply list_elem_of_singleton in Hx'. congruence.
  - intros t0 q c0 Hq Hc0. revert Hq. at_thread t0 t.
    + intros [= <-]. congruence.
    + intros Hq. exfalso.
      pose proof (shape_main_zero size pcs t p Hs Hp (fresh_is_main p c Hc)).
      pose proof (shape_main_zero size pcs t0 q Hs Hq (fresh_is_main q c0 Hc0)).
      congruence.
Qed.

Lemma fresh_spawn pcs w q :
  fresh_ok pcs w -> fresh_handle q = None -> fresh_ok (pcs ++ [q]) w.
Proof.
  intros (Hb & Hn & Hf) Hq. split; [exact Hb|]. split; [exact Hn|].
  intros t0 p c Hp Hc. apply lookup_app_Some in Hp. destruct Hp as [Hp|(_ & Hp)]; [eauto|].
  destruct (t0 - length pcs)%nat as [|[|]]; cbn in Hp; try discriminate.
  injection Hp as <-. congruence.
Qed.

(** *** A worker for every connection *)

Lemma progress_empty pcs w' : queue w' = [] -> progress_ok pcs w'.
Proof. intros Hq _ Hne. congruence. Qed.

Lemma progress_active pcs w' t p p' :
  pcs !! t = Some p -> active p' = true -> progress_ok (<[t:=p']> pcs) w'.
Proof.
  intros Hp Ha _ _. right. exists t, p'. split; [|exact Ha].
  apply list_lookup_insert_eq. eauto using lookup_lt_Some.
Qed.

Lemma progress_keep pcs w w' t p p' :
  progress_ok pcs w -> pcs !! t = Some p ->
  p <> ASignal -> active p = false ->
  (queue w = [] -> queue w' = []) ->
  progress_ok (<[t:=p']> pcs) w'.
Proof.
  intros Hpr Hp Hn Ha Hq Hsize Hne. rewrite length_insert in Hsize.
  destruct (Hpr Hsize) as [H0|(t0 & q & Hq0 & Hact)]; [intros H; apply Hne; auto| |].
  - left. revert H0. at_thread O t; [congruence|auto].
  - right. exists t0, q. split; [|exact Hact]. revert Hq0. at_thread t0 t; [congruence|auto].
Qed.

Lemma progress_pending size pcs w' t p :
  shape_ok size pcs -> pcs !! t = Some p -> is_main p = true ->
  progress_ok (<[t:=ASignal]> pcs) w'.
Proof.
  intros Hs Hp Hm _ _. left.
  pose proof (shape_main_zero size pcs t p Hs Hp Hm) as ->.
  apply list_lookup_insert_eq. eauto using lookup_lt_Some.
Qed.

Lemma progress_spawn pcs w q :
  active q = true -> progress_ok (pcs ++ [q]) w.
Proof.
  intros Ha _ _. right. exists (length pcs), q. split; [|exact Ha].
  rewrite lookup_app_r by lia. rewrite Nat.sub_diag. reflexivity.
Qed.

Lemma progress_other pcs w' t p' t0 q :
  <[t:=p']> pcs !! t0 = Some q -> active q = true ->
  progress_ok (<[t:=p']> pcs) w'.
Proof. intros Hq Ha _ _. right. eauto. Qed.

(** *** The other parts *)

Lemma dispatch_keep pcs w w' t p' :
  dispatch_ok pcs w -> dispatched (history w') = dispatched (history w) ->
  dispatch_ok (<[t:=p']> pcs) w'.
Proof. unfold dispatch_ok. intros Hd ->. rewrite length_insert. exact Hd. Qed.

Lemma dispatch_give size pcs w w' t p p' c :
  dispatch_ok pcs w -> shape_ok size pcs -> pcs !! t = Some p -> is_main p = false ->
  dispatched (history w') = dispatched (history w) ++ [(t, c)] ->
  dispatch_ok (<[t:=p']> pcs) w'.
Proof.
  unfold dispatch_ok. intros Hd Hs Hp Hw ->. rewrite length_insert.
  apply Forall_app. split; [exact Hd|]. repeat constructor; cbn.
  - eapply shape_worker_pos; eauto.
  - eauto using lookup_lt_Some.
Qed.

Lemma dispatch_spawn pcs w q : dispatch_ok pcs w -> dispatch_ok (pcs ++ [q]) w.
Proof.
  unfold dispatch_ok. intros Hd. rewrite length_app.
  eapply Forall_impl; [exact Hd|]. cbn. intros. lia.
Qed.

Lemma created_keep size pcs w w' t p p' :
  created_ok size pcs w -> shape_ok size pcs -> pcs !! t = Some p ->
  (is_main p = true -> started size p' = started size p /\ well_placed size p') ->
  created (history w') = created (history w) ->
  created_ok size (<[t:=p']> pcs) w'.
Proof.
  intros Hc (m & H0 & Hm & _) Hp Hst Hh m' Hm'. rewrite Hh.
  destruct t as [|t].
  - rewrite list_lookup_insert_eq in Hm' by (apply lookup_lt_Some in H0; exact H0).
    injection Hm' as <-. rewrite H0 in Hp. injection Hp as <-.
    destruct (Hst Hm) as (-> & _). apply Hc. exact H0.
  - rewrite list_lookup_insert_ne in Hm' by lia. apply Hc. exact Hm'.
Qed.

Lemma created_spawn size pcs w q :
  created_ok size pcs w -> (0 < length pcs)%nat -> created_ok size (pcs ++ [q]) w.
Proof. intros Hc Hlen m Hm. rewrite lookup_app_l in Hm by exact Hlen. apply Hc. exact Hm. Qed.

(** One more call of [pthread_create]. *)
Lemma created_more size pcs w w' p p' pool i s :
  created_ok size pcs w -> pcs !! O = Some p ->
  started size p = i -> started size p' = S i ->
  history w' = history w ++ [(O, EvPthreadCreate pool i s)] ->
  created_ok size (<[O:=p']> pcs) w'.
Proof.
  intros Hc Hp Hst Hst' Hh m' Hm'.
  rewrite list_lookup_insert_eq in Hm' by (apply lookup_lt_Some in Hp; exact Hp).
  injection Hm' as <-. rewrite Hh, created_snoc, (Hc p Hp), Hst, Hst'.
  rewrite seq_S. reflexivity.
Qed.

(** *** What a worker has taken *)

Lemma taken_by_snoc t h t' e :
  taken_by t (h ++ [(t', e)]) =
  taken_by t h ++ (if decide (t' = t)
                   then match e with EvDequeue _ (Some c) => [c] | _ => [] end
                   else []).
Proof.
  unfold taken_by. rewrite omap_app. cbn. destruct (decide (t' = t)); [|reflexivity].
  destruct e as [| | | | | | | | | | | | | | |? []| | | | | | | | |]; reflexivity.
Qed.

Lemma served_by_snoc t h t' e :
  served_by t (h ++ [(t', e)]) =
  served_by t h ++ (if decide (t' = t)
                    then match e with EvCallHandler _ _ c _ => [c] | _ => [] end
                    else []).
Proof.
  unfold served_by. rewrite omap_app. cbn. destruct (decide (t' = t)); [|reflexivity].
  destruct e; reflexivity.
Qed.

Lemma quiet_taken t h t' e : quiet e = true -> taken_by t (h ++ [(t', e)]) = taken_by t h.
Proof.
  intros Hq. rewrite taken_by_snoc. destruct (decide (t' = t)); [|apply app_nil_r].
  destruct e as [| | | | | | | | | | | | | | |? []| | | | | | | | |];
    try discriminate; apply app_nil_r.
Qed.

Lemma quiet_served t h t' e : quiet e = true -> served_by t (h ++ [(t', e)]) = served_by t h.
Proof.
  intros Hq. rewrite served_by_snoc. destruct (decide (t' = t)); [|apply app_nil_r].
  destruct e; try discriminate; apply app_nil_r.
Qed.

Lemma own_keep pcs w w' t p p' :
  own_ok pcs w -> pcs !! t = Some p ->
  holding p' = holding p ->
  (forall t0, taken_by t0 (history w') = taken_by t0 (history w)) ->
  (forall t0, served_by t0 (history w') = served_by t0 (history w)) ->
  own_ok (<[t:=p']> pcs) w'.
Proof.
  intros Ho Hp Hh Ht Hs t0. rewrite Ht, Hs, (Ho t0). at_thread t0 t.
  - rewrite Hp, Hh. reflexivity.
  - reflexivity.
Qed.

Lemma own_take pcs w w' t p p' s c :
  own_ok pcs w -> pcs !! t = Some p ->
  holding p = None -> holding p' = Some c ->
  history w' = history w ++ [(t, EvDequeue s (Some c))] ->
  own_ok (<[t:=p']> pcs) w'.
Proof.
  intros Ho Hp Hh Hh' Hw t0. rewrite Hw, taken_by_snoc, served_by_snoc, (Ho t0).
  at_thread t0 t.
  - rewrite Hp, Hh, Hh'. destruct (decide (t = t)); [|congruence].
    cbn. rewrite !app_nil_r. reflexivity.
  - destruct (decide (t = t0)); [congruence|]. rewrite !app_nil_r. reflexivity.
Qed.

Lemma own_give pcs w w' t p p' h s c x :
  own_ok pcs w -> pcs !! t = Some p ->
  holding p = Some c -> holding p' = None ->
  history w' = history w ++ [(t, EvCallHandler h s c x)] ->
  own_ok (<[t:=p']> pcs) w'.
Proof.
  intros Ho Hp Hh Hh' Hw t0. rewrite Hw, taken_by_snoc, served_by_snoc, (Ho t0).
  at_thread t0 t.
  - rewrite Hp, Hh, Hh'. destruct (decide (t = t)); [|congruence].
    cbn. rewrite !app_nil_r. reflexivity.
  - destruct (decide (t = t0)); [congruence|]. rewrite !app_nil_r. reflexivity.
Qed.

Lemma own_enqueue pcs w w' t p p' s c :
  own_ok pcs w -> pcs !! t = Some p ->
  holding p' = holding p ->
  history w' = history w ++ [(t, EvEnqueue s c)] ->
  own_ok (<[t:=p']> pcs) w'.
Proof.
  intros Ho Hp Hh Hw. eapply own_keep; [eassumption..| |]; intros t0; rewrite Hw.
  - rewrite taken_by_snoc. destruct (decide (t = t0)); apply app_nil_r.
  - rewrite served_by_snoc. destruct (decide (t = t0)); apply app_nil_r.
Qed.

Lemma own_spawn pcs w q :
  own_ok pcs w -> holding q = None -> own_ok (pcs ++ [q]) w.
Proof.
  intros Ho Hq t0. rewrite (Ho t0). f_equal.
  destruct (pcs !! t0) as [p|] eqn:Hp.
  - rewrite (lookup_app_l_Some _ _ _ _ Hp). reflexivity.
  - apply lookup_ge_None in Hp. rewrite lookup_app_r by exact Hp.
    destruct (t0 - length pcs)%nat as [|[|]]; cbn; [rewrite Hq|..]; reflexivity.
Qed.

(** What a thread has taken is part of what was dequeued, in the same
    order. *)
Lemma taken_sublist t h : taken_by t h `sublist_of` dequeued h.
Proof.
  unfold taken_by, dequeued. induction h as [|[t' e] h IH]; cbn; [constructor|].
  destruct (decide (t' = t)).
  - destruct e as [| | | | | | | | | | | | | | |? []| | | | | | | | |]; cbn;
      try exact IH. constructor. exact IH.
  - destruct e as [| | | | | | | | | | | | | | |? []| | | | | | | | |]; cbn;
      try exact IH. constructor. exact IH.
Qed.

(** ** A step of the process keeps the invariant *)

Lemma thread_at cfg server pcs st t th :
  invariant cfg server pcs st -> threads st !! t = Some th ->
  exists p, pcs !! t = Some p /\ th = code_at cfg server p.
Proof.
  intros Hinv Hth. rewrite (inv_code _ _ _ _ Hinv), list_lookup_fmap in Hth.
  destruct (pcs !! t) as [p|]; [|discriminate]. injection Hth as <-. eauto.
Qed.

Lemma code_update cfg server pcs ths t th' new p' :
  ths = code_at cfg server <$> pcs ->
  th' = code_at cfg server p' -> new = [] ->
  <[t:=th']> ths ++ new = code_at cfg server <$> <[t:=p']> pcs.
Proof. intros -> -> ->. rewrite app_nil_r, list_fmap_insert. reflexivity. Qed.

Lemma code_spawn cfg server pcs ths t th' new p' q :
  ths = code_at cfg server <$> pcs ->
  th' = code_at cfg server p' -> new = [code_at cfg server q] ->
  <[t:=th']> ths ++ new = code_at cfg server <$> (<[t:=p']> pcs ++ [q]).
Proof. intros -> -> ->. rewrite fmap_app, list_fmap_insert. reflexivity. Qed.

Lemma weight_mono size r r' p : (r' <= r)%nat -> (weight size r' p <= weight size r p)%nat.
Proof. intros Hr. destruct p as [| | | | | | | | | | | | | | | | | | | | | | | | | | | | | | | | | |[]| | | |]; cbn; lia. Qed.

Lemma sum_weight_mono size r r' pcs :
  (r' <= r)%nat ->
  (sum_list_with (weight size r') pcs <= sum_list_with (weight size r) pcs)%nat.
Proof.
  intros Hr. induction pcs as [|p pcs IH]; cbn; [lia|].
  pose proof (weight_mono size r r' p Hr). lia.
Qed.

Lemma potential_drop cfg pcs t p p' (w w' : world) (k : nat) :
  pcs !! t = Some p ->
  (length (incoming w') <= length (incoming w))%nat ->
  (weight (cfg_thread_pool_size cfg) (length (incoming w')) p'
   + 7 * length (queue w') + 7 * spurious w' + k
   <= weight (cfg_thread_pool_size cfg) (length (incoming w)) p
     + 7 * length (queue w) + 7 * spurious w)%nat ->
  (potential cfg (<[t:=p']> pcs) w' + k <= potential cfg pcs w)%nat.
Proof.
  intros Hp Hr Hlt. unfold potential.
  destruct (insert_middle pcs t p p' Hp) as (l1 & l2 & -> & ->).
  rewrite !sum_list_with_app. cbn.
  pose proof (sum_weight_mono (cfg_thread_pool_size cfg) _ _ l1 Hr).
  pose proof (sum_weight_mono (cfg_thread_pool_size cfg) _ _ l2 Hr).
  lia.
Qed.

Lemma potential_update cfg pcs t p p' (w w' : world) :
  pcs !! t = Some p ->
  (length (incoming w') <= length (incoming w))%nat ->
  (weight (cfg_thread_pool_size cfg) (length (incoming w')) p'
   + 7 * length (queue w') + 7 * spurious w'
   < weight (cfg_thread_pool_size cfg) (length (incoming w)) p
     + 7 * length (queue w) + 7 * spurious w)%nat ->
  (potential cfg (<[t:=p']> pcs) w' < potential cfg pcs w)%nat.
Proof.
  intros Hp Hr Hlt. unfold potential.
  destruct (insert_middle pcs t p p' Hp) as (l1 & l2 & -> & ->).
  rewrite !sum_list_with_app. cbn.
  pose proof (sum_weight_mono (cfg_thread_pool_size cfg) _ _ l1 Hr).
  pose proof (sum_weight_mono (cfg_thread_pool_size cfg) _ _ l2 Hr).
  lia.
Qed.

Ltac side :=
  cbn;
  first [ reflexivity | discriminate | congruence | lia | tauto
        | intros; cbn in *; first [ discriminate | congruence | lia | tauto ] ].

(** A move that leaves the mutex, the waiters and the queue alone and
    does not show in the history of the queue. *)
Lemma quiet_move cfg server pcs w ths t p p' e w1 th' new :
  invariant cfg server pcs (State w ths) ->
  pcs !! t = Some p ->
  th' = code_at cfg server p' -> new = [] ->
  mutex w1 = mutex w -> waiting w1 = waiting w -> queue w1 = queue w ->
  history w1 = history w -> spurious w1 = spurious w ->
  (length (incoming w1) <= length (incoming w))%nat ->
  (next_block w <= next_block w1)%nat ->
  quiet e = true ->
  is_main p' = is_main p ->
  (is_main p = true ->
   started (cfg_thread_pool_size cfg) p' = started (cfg_thread_pool_size cfg) p /\
   well_placed (cfg_thread_pool_size cfg) p') ->
  holds p' = holds p ->
  p <> WBlocked -> p' <> WBlocked -> p' <> WSleep ->
  (initialised p' = false -> initialised p = false) ->
  holding p' = holding p ->
  (fresh_handle p' = None \/ fresh_handle p' = fresh_handle p \/
   (fresh_handle p' = Some (next_block w) /\ next_block w1 = S (next_block w))) ->
  (active p' = true \/ (p <> ASignal /\ active p = false)) ->
  (weight (cfg_thread_pool_size cfg) (length (incoming w1)) p'
   < weight (cfg_thread_pool_size cfg) (length (incoming w)) p)%nat ->
  invariant cfg server (<[t:=p']> pcs) (State (record t e w1) (<[t:=th']> ths ++ new)) /\
  (potential cfg (<[t:=p']> pcs) (record t e w1) < potential cfg pcs w)%nat.
Proof.
  intros [Hcode Hshape Hmutex Hwaiting Hsleep Hearly Hfifo Hflight Hfresh
            Hprogress Hdispatch Hcreated Hown] Hp Hth Hnew Hm Hwt Hq Hh Hsp Hr Hnb He
         Hmain Hst Hholds Hb Hb' Hs' Hinit Hholding Hfr Hact Hwgt.
  cbn [the_world threads] in *.
  split.
  - constructor; cbn [the_world threads].
    + apply code_update; assumption.
    + eapply shape_update; eassumption.
    + eapply mutex_keep; eassumption.
    + eapply waiting_keep; eassumption.
    + eapply sleep_shrink; [eassumption..|]. cbn. congruence.
    + eapply early_keep; [eassumption..|]. cbn. rewrite Hh. apply quiet_enqueued. exact He.
    + unfold fifo_ok in *. cbn. rewrite Hh, Hq, quiet_enqueued, quiet_dequeued by exact He.
      exact Hfifo.
    + eapply flight_keep; [eassumption..| |]; cbn; rewrite Hh;
        [apply quiet_dequeued|apply quiet_dispatched]; exact He.
    + assert (Henq : enqueued (history (record t e w1)) = enqueued (history w)).
      { cbn. rewrite Hh. apply quiet_enqueued. exact He. }
      destruct Hfr as [Hfr|[Hfr|(Hfr & Hnb')]].
      * eapply fresh_keep; [eassumption..|left; exact Hfr|exact Henq|exact Hnb].
      * eapply fresh_keep; [eassumption..|right; exact Hfr|exact Henq|exact Hnb].
      * eapply fresh_alloc; [eassumption..|exact Henq|exact Hnb'].
    + destruct Hact as [Hact|(Hns & Hact)].
      * eapply progress_active; eassumption.
      * eapply progress_keep; [eassumption..|]. cbn. congruence.
    + eapply dispatch_keep; [eassumption|]. cbn. rewrite Hh. apply quiet_dispatched. exact He.
    + eapply created_keep; [eassumption..|]. cbn. rewrite Hh. apply quiet_created. exact He.
    + eapply own_keep; [eassumption..| |]; intros t0; cbn; rewrite Hh;
        [apply quiet_taken|apply quiet_served]; exact He.
  - eapply potential_update; [eassumption|exact Hr|]. cbn. rewrite Hq, Hsp. lia.
Qed.


(** What [open_fd] leaves alone. *)
Lemma open_fd_frame r w :
  next_block (open_fd r w) = next_block w /\ mem (open_fd r w) = mem w /\
  queue (open_fd r w) = queue w /\ mutex (open_fd r w) = mutex w /\
  waiting (open_fd r w) = waiting w /\ incoming (open_fd r w) = incoming w /\
  spurious (open_fd r w) = spurious w /\ history (open_fd r w) = history w.
Proof. unfold open_fd. destruct (r <? 0); cbn; auto 10. Qed.

Lemma open_fd_next_block r w : next_block (open_fd r w) = next_block w.
Proof. apply open_fd_frame. Qed.
Lemma open_fd_queue r w : queue (open_fd r w) = queue w.
Proof. apply open_fd_frame. Qed.
Lemma open_fd_mutex r w : mutex (open_fd r w) = mutex w.
Proof. apply open_fd_frame. Qed.
Lemma open_fd_waiting r w : waiting (open_fd r w) = waiting w.
Proof. apply open_fd_frame. Qed.
Lemma open_fd_incoming r w : incoming (open_fd r w) = incoming w.
Proof. apply open_fd_frame. Qed.
Lemma open_fd_spurious r w : spurious (open_fd r w) = spurious w.
Proof. apply open_fd_frame. Qed.
Lemma open_fd_history r w : history (open_fd r w) = history w.
Proof. apply open_fd_frame. Qed.

(** Before the workers are created the main thread is alone. *)
Lemma alone size pcs p :
  shape_ok size pcs -> pcs !! O = Some p -> started size p = O -> pcs = [p].
Proof.
  intros (m & H0 & _ & Hlen & _) Hp Hst. rewrite H0 in Hp. injection Hp as ->.
  rewrite Hst in Hlen. destruct pcs as [|q [|]]; try discriminate.
  - cbn in H0. congruence.
  - cbn in Hlen. lia.
Qed.

Lemma alone_mutex size pcs w p :
  shape_ok size pcs -> mutex_ok pcs w -> pcs !! O = Some p ->
  started size p = O -> holds p = false -> mutex w = None.
Proof.
  intros Hs Hm Hp Hst Hh. destruct (mutex w) as [t|] eqn:E; [|reflexivity].
  apply Hm in E. destruct E as (q & Hq & Hhq).
  rewrite (alone size pcs p Hs Hp Hst) in Hq.
  destruct t as [|t]; cbn in Hq; [|discriminate]. congruence.
Qed.

Lemma alone_waiting size pcs w p :
  shape_ok size pcs -> waiting_ok pcs w -> pcs !! O = Some p ->
  started size p = O -> p <> WBlocked -> waiting w = ∅.
Proof.
  intros Hs Hw Hp Hst Hb. apply set_eq. intros t. rewrite (Hw t), elem_of_empty.
  rewrite (alone size pcs p Hs Hp Hst). split; [|tauto].
  destruct t as [|t]; cbn; [congruence|discriminate].
Qed.

Lemma early_queue pcs w p :
  early_ok pcs w -> fifo_ok w -> pcs !! O = Some p -> initialised p = false ->
  queue w = [].
Proof.
  intros He Hf Hp Hi. unfold fifo_ok in Hf. rewrite (He p Hp Hi) in Hf.
  apply app_eq_nil in Hf. tauto.
Qed.

Lemma invariant_recode cfg server server' pcs w ths ths' :
  invariant cfg server pcs (State w ths) ->
  ths' = code_at cfg server' <$> pcs ->
  invariant cfg server' pcs (State w ths').
Proof. intros [] H. constructor; assumption. Qed.

(** When nobody waits, every worker is on its way to the queue. *)
Lemma progress_nobody_waits size pcs w w' t p p' :
  shape_ok size pcs -> waiting_ok pcs w -> waiting w = ∅ ->
  pcs !! t = Some p -> is_main p = true ->
  progress_ok (<[t:=p']> pcs) w'.
Proof.
  intros Hs Hw He Hp Hm Hsize _. right. rewrite length_insert in Hsize.
  pose proof (shape_main_zero size pcs t p Hs Hp Hm) as ->.
  destruct Hs as (m & H0 & _ & Hlen & _ & Hwk).
  rewrite H0 in Hp. injection Hp as ->.
  destruct (lookup_lt_is_Some_2 pcs 1) as (q & Hq); [lia|].
  exists 1%nat, q. split; [rewrite list_lookup_insert_ne by lia; exact Hq|].
  pose proof (Hwk O q Hq) as Hmq.
  assert (Hb : q <> WBlocked).
  { intros ->. apply Hw in Hq. rewrite He in Hq. apply elem_of_empty in Hq. exact Hq. }
  destruct q; cbn in *; congruence.
Qed.

(** A waiter is taken out of the waiters. *)
Lemma wake_up cfg server pcs w ths t :
  invariant cfg server pcs (State w ths) ->
  t ∈ waiting w ->
  invariant cfg server (<[t:=WWoken]> pcs)
    (State (set_waiting (waiting w ∖ {[t]}) w) ths) /\
  potential cfg (<[t:=WWoken]> pcs) (set_waiting (waiting w ∖ {[t]}) w)
  = (potential cfg pcs w + 6)%nat /\
  pcs !! t = Some WBlocked.
Proof.
  intros [Hcode Hshape Hmutex Hwaiting Hsleep Hearly Hfifo Hflight Hfresh
            Hprogress Hdispatch Hcreated Hown] Hin.
  cbn [the_world threads] in *.
  assert (Hp : pcs !! t = Some WBlocked) by (apply Hwaiting; exact Hin).
  split; [|split; [|exact Hp]].
  - constructor; cbn [the_world threads].
    + rewrite list_fmap_insert, <- Hcode. symmetry. apply list_insert_id.
      rewrite Hcode, list_lookup_fmap, Hp. reflexivity.
    + eapply shape_update; [eassumption..|reflexivity|discriminate].
    + eapply mutex_keep; [eassumption..|reflexivity|reflexivity].
    + eapply waiting_wake; [eassumption..|reflexivity].
    + eapply sleep_shrink; [eassumption..|discriminate|auto].
    + eapply early_keep; [eassumption..|auto|reflexivity].
    + exact Hfifo.
    + eapply flight_keep; [eassumption..|reflexivity|reflexivity|reflexivity].
    + eapply fresh_keep; [eassumption..|left; reflexivity|reflexivity|cbn; lia].
    + eapply progress_active; [eassumption|reflexivity].
    + eapply dispatch_keep; [eassumption|reflexivity].
    + eapply created_keep; [eassumption..|discriminate|reflexivity].
    + eapply own_keep; [eassumption..|reflexivity| |]; reflexivity.
  - unfold potential. cbn.
    pose proof (sum_list_with_insert
                  (weight (cfg_thread_pool_size cfg) (length (incoming w)))
                  pcs t WBlocked WWoken Hp) as H.
    cbn in H. lia.
Qed.

(** The invariant does not depend on the spurious wake-ups left. *)
Lemma invariant_spurious cfg server pcs w ths n :
  invariant cfg server pcs (State w ths) ->
  invariant cfg server pcs (State (set_spurious n w) ths).
Proof. intros []. constructor; assumption. Qed.

(** A call that is not [pthread_create] starts no thread. *)
Lemma starts_nothing {A} (p : prog A) new : starts p new -> spawned p = [] -> new = [].
Proof. intros [->| ->] H; [exact H|reflexivity]. Qed.

(** The thread [t], at [p], makes its next call. *)
Ltac next_op Hs :=
  let p' := fresh "p'" in
  let w1 := fresh "w1" in
  let Hnew := fresh "Hnew" in
  cbn [thread_step code_at] in Hs;
  destruct Hs as (p' & Hs & -> & Hnew);
  first [ apply starts_nothing in Hnew; [rewrite Hnew in *; clear Hnew|reflexivity]
        | idtac ];
  hnf in Hs; destruct Hs as (? & w1 & Hs & -> & ->);
  hnf in Hs.

Ltac world_eq :=
  cbn;
  rewrite ?open_fd_next_block, ?open_fd_queue, ?open_fd_mutex, ?open_fd_waiting,
    ?open_fd_incoming, ?open_fd_spurious, ?open_fd_history;
  cbn.

Ltac side' :=
  world_eq;
  repeat match goal with E : cfg_thread_pool_size _ = _ |- _ => rewrite E end;
  repeat match goal with E : incoming _ = _ |- _ => rewrite E end;
  repeat match goal with E : queue _ = _ |- _ => rewrite E end;
  rewrite ?length_app;
  cbn;
  first [ reflexivity | discriminate | congruence | lia | tauto
        | intros; cbn in *; first [ discriminate | congruence | lia | tauto ] ].

Ltac code_eq :=
  first [ reflexivity
        | cbn;
          unfold after_setsockopt, after_bind, after_listen, from_store_fd, from_accept,
            from_create, CHECK_IF_INVALID;
          cbn;
          repeat match goal with E : (_ <? _) = _ |- _ => rewrite E end;
          repeat match goal with E : cfg_thread_pool_size _ = _ |- _ => rewrite E end;
          reflexivity ].

(** The thread goes quietly to [p']. *)
Ltac quietly Hinv Hp p' :=
  match type of Hinv with
  | invariant _ ?server ?pcs _ =>
      match type of Hp with
      | _ !! ?t = _ => exists server, (<[t:=p']> pcs)
      end
  end;
  eapply (quiet_move _ _ _ _ _ _ _ p');
  [ exact Hinv | exact Hp | code_eq | reflexivity
  | side' | side' | side' | side' | side' | side' | side' | reflexivity
  | side' | side' | side' | side' | side' | side' | side' | side'
  | first [ left; side' | right; left; side' | right; right; split; side' ]
  | first [ left; side' | right; split; side' ]
  | side' ].

Ltac h_enq := cbn [history record ev]; rewrite enqueued_snoc; cbn [app]; rewrite ?app_nil_r; reflexivity.
Ltac h_deq := cbn [history record ev]; rewrite dequeued_snoc; cbn [app]; rewrite ?app_nil_r; reflexivity.
Ltac h_disp := cbn [history record ev]; rewrite dispatched_snoc; cbn [app]; rewrite ?app_nil_r; reflexivity.
Ltac h_created := cbn [history record ev]; rewrite created_snoc; cbn [app]; rewrite ?app_nil_r; reflexivity.

(** The parts of the invariant after a move of [t] to some [p']. *)
Ltac f_code := apply code_update; [eassumption|code_eq|reflexivity].
Ltac f_shape := eapply shape_update; [eassumption..|side'|side'].
Ltac f_mutex :=
  first [ eapply mutex_keep; [eassumption..|side'|side']
        | eapply mutex_acquire; [eassumption..|side'|side'|side']
        | eapply mutex_release; [eassumption..|side'|side'|side'] ].
Ltac f_waiting :=
  first [ eapply waiting_keep; [eassumption..|side'|side'|side']
        | eapply waiting_sleep; [eassumption..|side'] ].
Ltac f_sleep :=
  first [ eapply sleep_shrink; [eassumption..|side'|side']
        | eapply sleep_empty; side'
        | eapply sleep_holder; [eassumption..|side'|side'] ].
Ltac f_early :=
  first [ eapply early_keep; [eassumption..|side'|h_enq]
        | eapply early_done; [eassumption..|side'|side'] ].
Ltac f_fifo :=
  match goal with Hfifo : fifo_ok _ |- _ =>
    unfold fifo_ok in *; cbn; rewrite enqueued_snoc, dequeued_snoc; cbn;
    rewrite ?app_nil_r;
    first [ exact Hfifo
          | rewrite app_assoc, Hfifo; reflexivity
          | rewrite <- Hfifo;
            repeat match goal with E : queue _ = _ |- _ => rewrite E end;
            rewrite <- app_assoc; reflexivity ]
  end.
Ltac f_flight :=
  first [ eapply flight_keep;
          [eassumption..|side'|h_deq
          |h_disp]
        | eapply flight_take;
          [eassumption..|side'|side'|h_deq
          |h_disp]
        | eapply flight_give;
          [eassumption..|side'|side'|h_deq
          |h_disp] ].
Ltac f_fresh :=
  first [ eapply fresh_keep;
          [eassumption..|first [left; side'|right; side']
          |h_enq|side']
        | eapply fresh_enqueue;
          [eassumption..|side'|side'|h_enq|side'] ].
Ltac f_progress :=
  first [ eapply progress_active; [eassumption|side']
        | eapply progress_keep; [eassumption..|side'|side'|side']
        | eapply progress_empty; side'
        | eapply progress_pending; [eassumption..|side']
        | eapply progress_nobody_waits; [eassumption..|side'] ].
Ltac f_dispatch :=
  first [ eapply dispatch_keep; [eassumption|h_disp]
        | eapply dispatch_give;
          [eassumption..|side'|h_disp] ].
Ltac f_created :=
  eapply created_keep; [eassumption..|side'|h_created].
Ltac f_own :=
  first [ eapply own_keep;
          [eassumption..|side'
          |intros ?; cbn [history record ev]; apply quiet_taken; reflexivity
          |intros ?; cbn [history record ev]; apply quiet_served; reflexivity]
        | eapply own_take; [eassumption..|side'|side'|reflexivity]
        | eapply own_give; [eassumption..|side'|side'|reflexivity]
        | eapply own_enqueue; [eassumption..|side'|reflexivity] ].
Ltac f_potential := eapply potential_update; [eassumption|side'|side'].

Ltac move_to Hinv server pcs t p' :=
  destruct Hinv as [Hcode Hshape Hmutex Hwaiting Hsleep Hearly Hfifo Hflight Hfresh
                      Hprogress Hdispatch Hcreated Hown];
  cbn [the_world threads] in *;
  exists server, (<[t:=p']> pcs); split;
  [ constructor; cbn [the_world threads];
    [ f_code | f_shape | f_mutex | f_waiting | f_sleep | f_early | f_fifo | f_flight
    | f_fresh | f_progress | f_dispatch | f_created | f_own ]
  | f_potential ].

(** [pthread_create] starts a worker. *)
Lemma create_starts cfg server pcs w ths pool i k :
  invariant cfg server pcs (State w ths) -> pcs !! O = Some (MCreate pool i k) ->
  invariant cfg server (<[O:=after_create pool i k]> pcs ++ [WLock])
    (State (record O (EvPthreadCreate pool i server) w)
           (<[O:=code_at cfg server (after_create pool i k)]> ths
            ++ [code_at cfg server WLock])) /\
  (potential cfg (<[O:=after_create pool i k]> pcs ++ [WLock])
     (record O (EvPthreadCreate pool i server) w)
   < potential cfg pcs w)%nat.
Proof.
  intros Hinv Hp.
  assert (Hwp : (i + S k)%nat = cfg_thread_pool_size cfg).
  { destruct (inv_shape _ _ _ _ Hinv) as (m & H0 & _ & _ & Hwp & _).
    rewrite H0 in Hp. injection Hp as ->. exact Hwp. }
  destruct Hinv as [Hcode Hshape Hmutex Hwaiting Hsleep Hearly Hfifo Hflight Hfresh
                      Hprogress Hdispatch Hcreated Hown].
  cbn [the_world threads] in *.
  set (p' := after_create pool i k).
  assert (Hlt : (0 < length pcs)%nat) by (apply lookup_lt_Some in Hp; exact Hp).
  split.
  - constructor; cbn [the_world threads].
    + apply code_spawn; [exact Hcode|reflexivity|reflexivity].
    + eapply shape_spawn; [eassumption..| | |]; subst p'; destruct k; cbn; lia.
    + apply mutex_spawn; [|reflexivity].
      eapply mutex_keep; [eassumption..| |reflexivity]. subst p'. destruct k; reflexivity.
    + apply waiting_spawn; [|discriminate].
      eapply waiting_keep; [eassumption..|discriminate| |reflexivity].
      subst p'. destruct k; discriminate.
    + apply sleep_spawn; [|discriminate].
      eapply sleep_shrink; [eassumption..| |auto]. subst p'. destruct k; discriminate.
    + eapply early_spawn;
        [|apply list_lookup_insert_eq; eapply lookup_lt_Some; exact Hp].
      eapply early_keep; [eassumption..|auto|h_enq].
    + f_fifo.
    + apply flight_spawn; [|reflexivity].
      eapply flight_keep; [eassumption..| |h_deq|h_disp]. subst p'. destruct k; reflexivity.
    + apply fresh_spawn; [|reflexivity].
      eapply fresh_keep; [eassumption..| |h_enq|cbn; lia].
      left. subst p'. destruct k; reflexivity.
    + apply progress_spawn. reflexivity.
    + apply dispatch_spawn. eapply dispatch_keep; [eassumption|h_disp].
    + apply created_spawn; [|rewrite length_insert; exact Hlt].
      eapply created_more; [eassumption..|reflexivity| |reflexivity].
      subst p'. destruct k; cbn; lia.
    + apply own_spawn; [|reflexivity].
      eapply own_keep; [eassumption..| | |].
      * subst p'. destruct k; reflexivity.
      * intros t0. cbn [history record ev]. rewrite taken_by_snoc.
        destruct (decide (O = t0)); apply app_nil_r.
      * intros t0. cbn [history record ev]. rewrite served_by_snoc.
        destruct (decide (O = t0)); apply app_nil_r.
  - unfold potential. rewrite sum_list_with_app. cbn.
    pose proof (sum_list_with_insert
                  (weight (cfg_thread_pool_size cfg) (length (incoming w)))
                  pcs O (MCreate pool i k) p' Hp) as H.
    subst p'. destruct k; cbn in H |- *; lia.
Qed.

(** [pthread_create] fails: no worker is started, and the main thread
    goes on. *)
Lemma create_fails cfg server pcs w ths pool i k :
  invariant cfg server pcs (State w ths) -> pcs !! O = Some (MCreate pool i k) ->
  invariant cfg server (<[O:=after_create pool i k]> pcs)
    (State (record O (EvPthreadCreate pool i server) w)
           (<[O:=code_at cfg server (after_create pool i k)]> ths ++ [])) /\
  (potential cfg (<[O:=after_create pool i k]> pcs)
     (record O (EvPthreadCreate pool i server) w)
   < potential cfg pcs w)%nat.
Proof.
  intros Hinv Hp.
  assert (Hwp : (i + S k)%nat = cfg_thread_pool_size cfg).
  { destruct (inv_shape _ _ _ _ Hinv) as (m & H0 & _ & _ & Hwp & _).
    rewrite H0 in Hp. injection Hp as ->. exact Hwp. }
  destruct Hinv as [Hcode Hshape Hmutex Hwaiting Hsleep Hearly Hfifo Hflight Hfresh
                      Hprogress Hdispatch Hcreated Hown].
  cbn [the_world threads] in *.
  set (p' := after_create pool i k).
  split.
  - constructor; cbn [the_world threads].
    + apply code_update; [exact Hcode|reflexivity|reflexivity].
    + eapply shape_skip; [eassumption..| | |]; subst p'; destruct k; cbn; lia.
    + eapply mutex_keep; [eassumption..| |reflexivity]. subst p'. destruct k; reflexivity.
    + eapply waiting_keep; [eassumption..|discriminate| |reflexivity].
      subst p'. destruct k; discriminate.
    + eapply sleep_shrink; [eassumption..| |auto]. subst p'. destruct k; discriminate.
    + eapply early_keep; [eassumption..|auto|h_enq].
    + f_fifo.
    + eapply flight_keep; [eassumption..| |h_deq|h_disp]. subst p'. destruct k; reflexivity.
    + eapply fresh_keep; [eassumption..| |h_enq|cbn; lia].
      left. subst p'. destruct k; reflexivity.
    + eapply progress_keep; [eassumption..|discriminate|reflexivity|auto].
    + eapply dispatch_keep; [eassumption|h_disp].
    + eapply created_more; [eassumption..|reflexivity| |reflexivity].
      subst p'. destruct k; cbn; lia.
    + eapply own_keep; [eassumption..| | |].
      * subst p'. destruct k; reflexivity.
      * intros t0. cbn [history record ev]. rewrite taken_by_snoc.
        destruct (decide (O = t0)); apply app_nil_r.
      * intros t0. cbn [history record ev]. rewrite served_by_snoc.
        destruct (decide (O = t0)); apply app_nil_r.
  - eapply potential_update; [exact Hp|cbn; lia|].
    subst p'. destruct k; cbn; lia.
Qed.

Lemma invariant_step cfg server pcs st st' :
  invariant cfg server pcs st -> step st st' ->
  exists server' pcs',
    invariant cfg server' pcs' st' /\
    (potential cfg pcs' (the_world st') < potential cfg pcs (the_world st))%nat.
Proof.
  intros Hinv Hstep.
  destruct Hstep as [t th th' w' new Hrun Hth Hs|t n Hrun Hsp Hw].
  - destruct (thread_at _ _ _ _ _ _ Hinv Hth) as (p & Hp & ->).
    destruct st as [w ths]. cbn [the_world threads] in *.
    destruct p.
    + (* MCalloc *) next_op Hs. destruct Hs as [(-> & ->)|(-> & ->)].
      * quietly Hinv Hp MFinished.
      * assert (Ht : t = O).
        { eapply shape_main_zero; [apply (inv_shape _ _ _ _ Hinv)|exact Hp|reflexivity]. }
        subst t.
        assert (Hone : pcs = [MCalloc]).
        { eapply alone; [apply (inv_shape _ _ _ _ Hinv)|exact Hp|reflexivity]. }
        destruct (quiet_move cfg server pcs w ths O MCalloc MStoreHandler
                    (EvCalloc 1 stream_server_t (Some (next_block w))) (alloc w)
                    (code_at cfg server MStoreHandler) [] Hinv Hp)
          as (Hinv' & Hpot);
          [ reflexivity | reflexivity
          | side' | side' | side' | side' | side' | side' | side' | reflexivity
          | side' | side' | side' | side' | side' | side' | side' | side'
          | left; side' | right; split; side' | side' | ].
        exists (next_block w), (<[O:=MStoreHandler]> pcs). split; [|exact Hpot].
        eapply invariant_recode; [exact Hinv'|].
        pose proof (inv_code _ _ _ _ Hinv) as Hcode. cbn [threads] in Hcode.
        rewrite Hcode, Hone. reflexivity.
    + (* MStoreHandler *) next_op Hs. subst w1. quietly Hinv Hp MStoreContext.
    + (* MStoreContext *) next_op Hs. subst w1. quietly Hinv Hp MQueueCreate.
    + (* MQueueCreate *) next_op Hs. subst w1.
      assert (Ht : t = O).
      { eapply shape_main_zero; [apply (inv_shape _ _ _ _ Hinv)|exact Hp|reflexivity]. }
      subst t.
      assert (Hq : queue w = []).
      { eapply early_queue;
          [apply (inv_early _ _ _ _ Hinv)|apply (inv_fifo _ _ _ _ Hinv)|exact Hp|reflexivity]. }
      replace (set_queue [] w) with w by (destruct w; cbn in Hq; subst; reflexivity).
      quietly Hinv Hp MMutexInit.
    + (* MMutexInit *) next_op Hs. subst w1.
      assert (Ht : t = O).
      { eapply shape_main_zero; [apply (inv_shape _ _ _ _ Hinv)|exact Hp|reflexivity]. }
      subst t.
      assert (Hm : mutex w = None).
      { eapply alone_mutex;
          [apply (inv_shape _ _ _ _ Hinv)|apply (inv_mutex _ _ _ _ Hinv)|exact Hp
          |reflexivity|reflexivity]. }
      replace (set_mutex None w) with w by (destruct w; cbn in Hm; subst; reflexivity).
      quietly Hinv Hp MCondInit.
    + (* MCondInit *) next_op Hs. subst w1.
      assert (Ht : t = O).
      { eapply shape_main_zero; [apply (inv_shape _ _ _ _ Hinv)|exact Hp|reflexivity]. }
      subst t.
      assert (Hm : waiting w = ∅).
      { eapply alone_waiting;
          [apply (inv_shape _ _ _ _ Hinv)|apply (inv_waiting _ _ _ _ Hinv)|exact Hp
          |reflexivity|discriminate]. }
      replace (set_waiting ∅ w) with w by (destruct w; cbn in Hm; subst; reflexivity).
      quietly Hinv Hp MCallocPool.
    + (* MCallocPool *) next_op Hs.
      destruct (cfg_thread_pool_size cfg) as [|k] eqn:E;
        destruct Hs as [(-> & ->)|(-> & ->)].
      * quietly Hinv Hp MSocket.
      * quietly Hinv Hp MSocket.
      * quietly Hinv Hp MCrash.
      * quietly Hinv Hp (MCreate (next_block w) O k).
    + (* MCreate *) next_op Hs. subst w1.
      assert (Ht : t = O).
      { eapply shape_main_zero; [apply (inv_shape _ _ _ _ Hinv)|exact Hp|reflexivity]. }
      subst t.
      match goal with H : starts _ _ |- _ => destruct H as [->| ->] end.
      * exists server, (<[O:=after_create pool i k]> pcs ++ [WLock]).
        destruct k; exact (create_starts _ _ _ _ _ _ _ _ Hinv Hp).
      * exists server, (<[O:=after_create pool i k]> pcs).
        destruct k; exact (create_fails _ _ _ _ _ _ _ _ Hinv Hp).
    + (* MSocket *) next_op Hs. subst w1. quietly Hinv Hp (MStoreFd x).
    + (* MStoreFd *) next_op Hs. subst w1. destruct (fd <? 0) eqn:E.
      * quietly Hinv Hp (MLog "Could not create a new socket").
      * quietly Hinv Hp (MSetsockopt fd).
    + (* MSetsockopt *) next_op Hs. subst w1. destruct (x <? 0) eqn:E.
      * quietly Hinv Hp (MLog "Could not set socket options").
      * quietly Hinv Hp (MBind fd).
    + (* MBind *) next_op Hs. subst w1. destruct (x <? 0) eqn:E.
      * quietly Hinv Hp (MLog "Could not bind to port").
      * quietly Hinv Hp (MListen fd).
    + (* MListen *) next_op Hs. subst w1. destruct (x <? 0) eqn:E.
      * quietly Hinv Hp (MLog "Could not listen").
      * quietly Hinv Hp ALoad.
    + (* MLog *) next_op Hs. subst w1. quietly Hinv Hp MExit.
    + (* MExit *) cbn in Hs. destruct Hs as (? & [] & _).
    + (* MCrash *) cbn in Hs. destruct Hs as (? & [] & _).
    + (* MFinished *) destruct Hs.
    + (* ALoad *) next_op Hs. destruct Hs as (-> & _). quietly Hinv Hp (AAccept x).
    + (* AAccept *) next_op Hs. destruct Hs as (rest & Hin & ->).
      destruct (x <? 0) eqn:E.
      * quietly Hinv Hp ALog.
      * quietly Hinv Hp (ACalloc x).
    + (* ACalloc *) next_op Hs. destruct Hs as [(-> & ->)|(-> & ->)].
      * quietly Hinv Hp ACrash.
      * quietly Hinv Hp (AStore fd (next_block w)).
    + (* AStore *) next_op Hs. subst w1. quietly Hinv Hp (ALock c).
    + (* ALock *) next_op Hs. destruct Hs as (Hfree & ->).
      move_to Hinv server pcs t (AEnqueue c).
    + (* AEnqueue *) next_op Hs. destruct Hs as (Hheld & ->).
      move_to Hinv server pcs t ASignal.
    + (* ASignal *) next_op Hs. destruct Hs as [(Hempty & ->)|(t' & Hin & ->)].
      * move_to Hinv server pcs t AUnlock.
      * destruct (wake_up cfg server pcs w ths t' Hinv Hin) as (Hinv' & Hpot & Hp').
        assert (Hp1 : <[t':=WWoken]> pcs !! t = Some ASignal).
        { rewrite list_lookup_insert_ne by congruence. exact Hp. }
        assert (Hne : t <> t') by (intros ->; congruence).
        assert (Hwoken : <[t':=WWoken]> pcs !! t' = Some WWoken).
        { apply list_lookup_insert_eq. eapply lookup_lt_Some. exact Hp'. }
        clear Hinv. revert Hinv' Hpot Hp1 Hwoken.
        generalize (<[t':=WWoken]> pcs).
        generalize (set_waiting (waiting w ∖ {[t']}) w).
        intros w2 pcs2 Hinv2 Hpot Hp2 Hwoken.
        assert (Hdrop : (potential cfg (<[t:=AUnlock]> pcs2)
                           (record t (ev (CondSignal server) x) w2) + 7
                         <= potential cfg pcs2 w2)%nat).
        { eapply potential_drop; [exact Hp2|side'|side']. }
        clear Hp Hth.
        destruct Hinv2 as [Hcode Hshape Hmutex Hwaiting Hsleep Hearly Hfifo Hflight Hfresh
                             Hprogress Hdispatch Hcreated Hown];
          cbn [the_world threads] in *;
          exists server, (<[t:=AUnlock]> pcs2); split;
          [ constructor; cbn [the_world threads];
            [ f_code | f_shape | f_mutex | f_waiting | f_sleep | f_early | f_fifo | f_flight
            | f_fresh | | f_dispatch | f_created | f_own ]
          | lia ].
        eapply progress_other with (t0 := t') (q := WWoken); [|reflexivity].
        rewrite list_lookup_insert_ne by congruence. exact Hwoken.
    + (* AUnlock *) next_op Hs. destruct Hs as (Hheld & ->).
      move_to Hinv server pcs t ALoad.
    + (* ALog *) next_op Hs. subst w1. quietly Hinv Hp AExit.
    + (* AExit *) cbn in Hs. destruct Hs as (? & [] & _).
    + (* ACrash *) cbn in Hs. destruct Hs as (? & [] & _).
    + (* WLock *) next_op Hs. destruct Hs as (Hfree & ->).
      move_to Hinv server pcs t WDeq1.
    + (* WDeq1 *) next_op Hs. destruct Hs as (Hheld & Hs).
      destruct (queue w) as [|c q] eqn:Hq; destruct Hs as (-> & ->).
      * move_to Hinv server pcs t WSleep.
      * move_to Hinv server pcs t (WUnlock (Some c)).
    + (* WSleep *) next_op Hs. destruct Hs as (Hheld & ->).
      assert (Hq : queue w = []) by (eapply (inv_sleep _ _ _ _ Hinv); exact Hp).
      move_to Hinv server pcs t WBlocked.
    + (* WBlocked *) next_op Hs. destruct Hs as (Hout & _). exfalso. apply Hout.
      apply (inv_waiting _ _ _ _ Hinv). exact Hp.
    + (* WWoken *) next_op Hs. destruct Hs as (Hout & Hfree & ->).
      move_to Hinv server pcs t WDeq2.
    + (* WDeq2 *) next_op Hs. destruct Hs as (Hheld & Hs).
      destruct (queue w) as [|c q] eqn:Hq; destruct Hs as (-> & ->).
      * move_to Hinv server pcs t (WUnlock None).
      * move_to Hinv server pcs t (WUnlock (Some c)).
    + (* WUnlock *) next_op Hs. destruct Hs as (Hheld & ->). destruct c as [c|].
      * move_to Hinv server pcs t (WLoadHandler c).
      * move_to Hinv server pcs t WLock.
    + (* WLoadHandler *) next_op Hs. destruct Hs as (-> & _). quietly Hinv Hp (WLoadContext c x).
    + (* WLoadContext *) next_op Hs. destruct Hs as (-> & _). quietly Hinv Hp (WCall c handler x).
    + (* WCall *) next_op Hs. destruct Hs as [->|(blk & _ & ->)].
      * move_to Hinv server pcs t (WFree c).
      * move_to Hinv server pcs t (WFree c).
    + (* WFree *) next_op Hs. subst w1. quietly Hinv Hp WLock.
  - destruct st as [w ths]. cbn [the_world threads] in *.
    destruct (wake_up cfg server pcs w ths t Hinv Hw) as (Hinv' & Hpot & Hp').
    exists server, (<[t:=WWoken]> pcs). split.
    + apply invariant_spurious. exact Hinv'.
    + unfold potential in *. cbn in *. rewrite Hsp. lia.
Qed.

(** ** Every state of the process *)

Lemma invariant_initial cfg : invariant cfg O [MCalloc] (initial cfg).
Proof.
  constructor; unfold initial;
    unfold shape_ok, mutex_ok, waiting_ok, sleep_ok, early_ok, fifo_ok, flight_ok,
      fresh_ok, progress_ok, dispatch_ok, created_ok, own_ok;
    cbn [the_world threads mutex waiting queue history next_block fmap list_fmap].
  - reflexivity.
  - exists MCalloc. split; [reflexivity|]. split; [reflexivity|]. split; [cbn; lia|].
    split; [exact I|]. intros t p Hp. destruct t; discriminate.
  - intros t. split; [discriminate|]. intros (p & Hp & Hh).
    destruct t; cbn in Hp; [|discriminate]. injection Hp as <-. discriminate.
  - intros t. rewrite elem_of_empty. split; [tauto|].
    destruct t; cbn; discriminate.
  - intros t Hp. reflexivity.
  - intros m _ _. reflexivity.
  - reflexivity.
  - reflexivity.
  - split; [constructor|]. split; [constructor|].
    intros t p c Hp Hc. destruct t; cbn in Hp; [|discriminate].
    injection Hp as <-. discriminate.
  - intros _ Hq. congruence.
  - constructor.
  - intros m [= <-]. reflexivity.
  - intros [|t]; reflexivity.
Qed.

Lemma potential_initial cfg :
  potential cfg [MCalloc] (the_world (initial cfg)) = budget cfg.
Proof. unfold potential, budget. cbn. lia. Qed.

(** After [n] steps the invariant holds and [n] calls of the budget are
    spent. *)
Lemma invariant_steps cfg n st :
  steps n (initial cfg) st ->
  exists server pcs,
    invariant cfg server pcs st /\
    (n + potential cfg pcs (the_world st) <= budget cfg)%nat.
Proof.
  remember (initial cfg) as st0 eqn:E. intros H. induction H as [st|n st1 st2 st3 H IH Hstep].
  - subst st. exists O, [MCalloc]. split; [apply invariant_initial|].
    rewrite potential_initial. lia.
  - destruct (IH E) as (server & pcs & Hinv & Hpot).
    destruct (invariant_step cfg server pcs st2 st3 Hinv Hstep) as (server' & pcs' & Hinv' & Hlt).
    exists server', pcs'. split; [exact Hinv'|]. lia.
Qed.

(** ** When nothing can move *)

Ltac make_call x :=
  do 3 eexists; cbn [thread_step code_at]; eexists;
  (split; [hnf; exists x; eexists; split; [hnf|split; reflexivity]
          |split; [reflexivity|left; reflexivity]]).

Lemma can_move cfg server t p w :
  ready w t p ->
  exists th' w' new, thread_step t (code_at cfg server p) w th' w' new.
Proof.
  intros Hr.
  assert (Hload : forall q f, exists x : Z, forall blk, mem w !! q = Some blk -> x = blk f).
  { intros q f. destruct (mem w !! q) as [blk|].
    - exists (blk f). intros ? [= <-]. reflexivity.
    - exists 0. discriminate. }
  destruct p; cbn in Hr; try (exfalso; exact Hr).
  - (* MCalloc *) make_call (@None nat). left. split; reflexivity.
  - make_call tt. reflexivity.
  - make_call tt. reflexivity.
  - make_call tt. reflexivity.
  - make_call tt. reflexivity.
  - make_call tt. reflexivity.
  - (* MCallocPool *) make_call (@None nat). left. split; reflexivity.
  - (* MCreate *) make_call tt. reflexivity.
  - (* MSocket *) make_call 0. reflexivity.
  - make_call tt. reflexivity.
  - make_call 0. reflexivity.
  - make_call 0. reflexivity.
  - make_call 0. reflexivity.
  - (* MLog *) make_call tt. reflexivity.
  - (* ALoad *) destruct (Hload server socket_fd) as (x & Hx). make_call x. split; [reflexivity|exact Hx].
  - (* AAccept *) destruct (incoming w) as [|x rest] eqn:E; [congruence|].
    make_call x. exists rest. split; [exact E|reflexivity].
  - (* ACalloc *) make_call (@None nat). left. split; reflexivity.
  - make_call tt. reflexivity.
  - (* ALock *) make_call tt. split; [exact Hr|reflexivity].
  - (* AEnqueue *) make_call tt. split; [exact Hr|reflexivity].
  - (* ASignal *) destruct (set_choose_or_empty (waiting w)) as [(t' & Ht')|He].
    + make_call tt. right. exists t'. split; [exact Ht'|reflexivity].
    + make_call tt. left. split; [apply leibniz_equiv; exact He|reflexivity].
  - (* AUnlock *) make_call tt. split; [exact Hr|reflexivity].
  - (* ALog *) make_call tt. reflexivity.
  - (* WLock *) make_call tt. split; [exact Hr|reflexivity].
  - (* WDeq1 *) destruct (queue w) as [|c q] eqn:E.
    + make_call (@None nat). split; [exact Hr|]. rewrite E. split; reflexivity.
    + make_call (Some c). split; [exact Hr|]. rewrite E. split; reflexivity.
  - (* WSleep *) make_call tt. split; [exact Hr|reflexivity].
  - (* WBlocked *) destruct Hr as (Hm & Hw). make_call tt. split; [exact Hw|]. split; [exact Hm|reflexivity].
  - (* WWoken *) destruct Hr as (Hm & Hw). make_call tt. split; [exact Hw|]. split; [exact Hm|reflexivity].
  - (* WDeq2 *) destruct (queue w) as [|c q] eqn:E.
    + make_call (@None nat). split; [exact Hr|]. rewrite E. split; reflexivity.
    + make_call (Some c). split; [exact Hr|]. rewrite E. split; reflexivity.
  - (* WUnlock *) make_call tt. split; [exact Hr|reflexivity].
  - (* WLoadHandler *) destruct (Hload server connection_handler) as (x & Hx).
    make_call x. split; [reflexivity|exact Hx].
  - (* WLoadContext *) destruct (Hload server connection_handler_context) as (x & Hx).
    make_call x. split; [reflexivity|exact Hx].
  - (* WCall *) make_call tt. left. reflexivity.
  - (* WFree *) make_call tt. reflexivity.
Qed.

Lemma halted_code cfg server p : halted (code_at cfg server p) = ended p.
Proof. destruct p; reflexivity. Qed.

Lemma omap_none {A B} (f : A -> option B) (l : list A) :
  (forall i x, l !! i = Some x -> f x = None) -> omap f l = [].
Proof.
  induction l as [|a l IH]; intros H; [reflexivity|].
  cbn. rewrite (H O a eq_refl). apply IH. intros i x Hi. apply (H (S i)). exact Hi.
Qed.

(** At rest every worker is blocked on the condition variable and the
    main thread waits for a connection, or has given up. *)
Lemma at_rest cfg server pcs st :
  invariant cfg server pcs st -> running st -> quiescent st ->
  forall t p, pcs !! t = Some p ->
    p = MFinished \/ (exists listen_fd, p = AAccept listen_fd) \/ p = WBlocked.
Proof.
  intros Hinv Hrun Hq.
  assert (Hstuck : forall t p, pcs !! t = Some p -> ~ ready (the_world st) t p).
  { intros t p Hp Hr.
    destruct (can_move cfg server t p (the_world st) Hr) as (th' & w' & new & Hs).
    eapply Hq. eapply step_call; [exact Hrun| |exact Hs].
    rewrite (inv_code _ _ _ _ Hinv), list_lookup_fmap, Hp. reflexivity. }
  assert (Hlive : forall t p, pcs !! t = Some p -> ended p = false).
  { intros t p Hp. unfold running in Hrun. rewrite Forall_forall in Hrun.
    rewrite <- (halted_code cfg server). apply Hrun.
    rewrite (inv_code _ _ _ _ Hinv). apply list_elem_of_fmap. exists p. split; [reflexivity|].
    eapply list_elem_of_lookup_2. exact Hp. }
  assert (Hfree : mutex (the_world st) = None).
  { destruct (mutex (the_world st)) as [t0|] eqn:E; [|reflexivity]. exfalso.
    pose proof E as E'. apply (inv_mutex _ _ _ _ Hinv) in E'. destruct E' as (p0 & Hp0 & Hh).
    apply (Hstuck t0 p0 Hp0). destruct p0; try discriminate Hh; first [exact E|exact I]. }
  intros t p Hp. pose proof (Hstuck t p Hp) as Hs. pose proof (Hlive t p Hp) as Hl.
  destruct p; cbn in Hs, Hl; try discriminate Hl; try (exfalso; apply Hs; exact I);
    try (exfalso; apply Hs; exact Hfree); try (exfalso; congruence);
    try (exfalso; apply Hs; apply (inv_mutex _ _ _ _ Hinv); eexists; split;
         [exact Hp|reflexivity]);
    eauto.
  exfalso. apply Hs. split; [exact Hfree|].
  intros Hin. apply (inv_waiting _ _ _ _ Hinv) in Hin. congruence.
Qed.

(** At rest no worker holds a connection and, when there is a worker, the
    queue is empty. *)
Lemma rest_empty cfg server pcs st :
  invariant cfg server pcs st -> running st -> quiescent st ->
  ((2 <= length pcs)%nat -> queue (the_world st) = []) /\ omap holding pcs = [].
Proof.
  intros Hinv Hrun Hq.
  pose proof (at_rest cfg server pcs st Hinv Hrun Hq) as Hrest. split.
  - intros Hsize.
    destruct (queue (the_world st)) as [|c q] eqn:E; [reflexivity|]. exfalso.
    destruct (inv_progress _ _ _ _ Hinv Hsize) as [H0|(t & p & Hp & Ha)]; [congruence| |].
    + destruct (Hrest O ASignal H0) as [H|[(l & H)|H]]; discriminate.
    + destruct (Hrest t p Hp) as [-> | [(l & ->) | ->]]; discriminate.
  - apply omap_none. intros t p Hp.
    destruct (Hrest t p Hp) as [-> | [(l & ->) | ->]]; reflexivity.
Qed.

Lemma started_le size p : well_placed size p -> (started size p <= size)%nat.
Proof. destruct p; cbn; lia. Qed.

(** ** Schedules are runs *)

Lemma answer_sound {X} (o : op X) c t w x w' :
  answer o c t w = Some (x, w') -> op_step o t w x w'.
Proof.
  destruct o; cbn; intros H;
    repeat match type of H with
           | context [decide ?P] => destruct (decide P)
           | context [match mutex w with _ => _ end] => destruct (mutex w) eqn:?
           | context [match incoming w with _ => _ end] => destruct (incoming w) eqn:?
           | context [match mem w !! ?p with _ => _ end] => destruct (mem w !! p) eqn:?
           | context [match queue w with _ => _ end] => destruct (queue w) eqn:?
           | context [?c =? 0] => destruct (c =? 0) eqn:?
           end;
    try discriminate H; injection H as <- <-; eauto 10.
  all: try (split; [reflexivity|]; intros ? [= <-]; reflexivity).
  all: try (split; [reflexivity|]; discriminate).
  all: match goal with E : (_ =? 0) = _ |- _ => rewrite E; reflexivity end.
Qed.

Lemma prog_move_sound {A} t c (p p' : prog A) w w' :
  prog_move t c p w = Some (p', w') -> prog_step t p w p' w'.
Proof.
  destruct p as [| | |X o k]; cbn; try discriminate.
  destruct (answer o c t w) as [[x w1]|] eqn:E; [|discriminate].
  intros [= <- <-]. exists x, w1. split; [|split; reflexivity].
  eapply answer_sound. exact E.
Qed.

Lemma thread_move_sound t c th w th' w' new :
  thread_move t c th w = Some (th', w', new) -> thread_step t th w th' w' new.
Proof.
  destruct th as [p|s p|s p|]; cbn; try discriminate;
    destruct (prog_move t c p w) as [[p' w1]|] eqn:E; try discriminate;
    intros [= <- <- <-]; exists p';
    (split; [|split; [reflexivity|unfold starts, started_by; destruct (c =? 0); auto]]);
    eapply prog_move_sound; exact E.
Qed.

Lemma move_sound m st st' : move m st = Some st' -> step st st'.
Proof.
  unfold move.
  destruct (forallb (fun th => negb (halted th)) (threads st)) eqn:Hrun; [|discriminate].
  assert (Hr : running st).
  { unfold running. apply Forall_forall. intros th Hth.
    rewrite forallb_forall in Hrun. apply list_elem_of_In in Hth.
    apply Hrun in Hth. destruct (halted th); [discriminate|reflexivity]. }
  destruct m as [t c|t].
  - destruct (threads st !! t) as [th|] eqn:Hth; [|discriminate].
    destruct (thread_move t c th (the_world st)) as [[[th' w'] new]|] eqn:E; [|discriminate].
    intros [= <-]. eapply step_call; [exact Hr|exact Hth|].
    eapply thread_move_sound. exact E.
  - destruct (spurious (the_world st)) as [|n] eqn:Hsp; [discriminate|].
    destruct (decide (t ∈ waiting (the_world st))) as [Hin|]; [|discriminate].
    intros [= <-]. eapply step_spurious; eassumption.
Qed.

Lemma steps_cons n st1 st2 st3 :
  step st1 st2 -> steps n st2 st3 -> steps (S n) st1 st3.
Proof.
  intros H1 H2. induction H2 as [st|n st2 st3 st4 H IH Hs].
  - eapply steps_S; [apply steps_O|exact H1].
  - eapply steps_S; [apply IH; exact H1|exact Hs].
Qed.

Lemma schedule_sound l st st' :
  schedule l st = Some st' -> steps (length l) st st'.
Proof.
  revert st. induction l as [|m l IH]; intros st; cbn.
  - intros [= <-]. apply steps_O.
  - destruct (move m st) as [st1|] eqn:E; [|discriminate].
    intros H. eapply steps_cons; [eapply move_sound; exact E|apply IH; exact H].
Qed.

(** The state after a schedule that can be followed is reached. *)
Lemma after_reachable cfg l :
  followable l (initial cfg) = true ->
  steps (length l) (initial cfg) (after l (initial cfg)).
Proof.
  unfold after, followable.
  destruct (schedule l (initial cfg)) as [st|] eqn:H; [|discriminate].
  intros _. apply schedule_sound. exact H.
Qed.

(** * Connections and workers *)

Lemma is_worker_code cfg server p : is_worker (code_at cfg server p) = negb (is_main p).
Proof. destruct p; reflexivity. Qed.

Lemma has_server_code cfg server p : has_server (code_at cfg server p) = initialised p.
Proof. destruct p; reflexivity. Qed.

(** A worker among the threads is a second entry of [pcs]. *)
Lemma worker_counted cfg server pcs st :
  invariant cfg server pcs st ->
  Exists (fun th => is_worker th = true) (threads st) -> (2 <= length pcs)%nat.
Proof.
  intros Hinv Hex. apply Exists_exists in Hex. destruct Hex as (th & Hin & Hw).
  apply list_elem_of_lookup_1 in Hin. destruct Hin as (t & Hth).
  destruct (thread_at _ _ _ _ _ _ Hinv Hth) as (p & Hp & ->).
  rewrite is_worker_code in Hw.
  pose proof (shape_worker_pos _ _ _ _ (inv_shape _ _ _ _ Hinv) Hp) as Hpos.
  apply lookup_lt_Some in Hp. destruct (is_main p); [discriminate|].
  specialize (Hpos eq_refl). lia.
Qed.

(** C1.  Whatever the connections that arrive, the wake-ups and the
    interleaving of the threads: no connection handle is given to the
    handler twice, every handle given to the handler was enqueued, and it
    is a worker that gives it.  A run has at most [budget cfg] steps, so
    the process comes to rest.  With at least one worker running (a
    [pthread_create] may fail, and its result is not looked at), when the
    process is at rest without having been ended by [exit] or by a crash,
    every handle that was enqueued has been given to the handler: none is
    left in the queue or in the hands of a worker. *)
Theorem every_connection_dispatched_once cfg n st :
  steps n (initial cfg) st ->
  NoDup (dispatched (history (the_world st))).*2 /\
  (dispatched (history (the_world st))).*2 ⊆+ enqueued (history (the_world st)) /\
  Forall (fun tc : tid * ptr => (1 <= tc.1 <= cfg_thread_pool_size cfg)%nat)
         (dispatched (history (the_world st))) /\
  (n <= budget cfg)%nat /\
  (Exists (fun th => is_worker th = true) (threads st) ->
   running st -> quiescent st ->
   queue (the_world st) = [] /\
   (dispatched (history (the_world st))).*2 ≡ₚ enqueued (history (the_world st))).
Proof.
  intros Hsteps.
  destruct (invariant_steps cfg n st Hsteps) as (server & pcs & Hinv & Hpot).
  pose proof (inv_fifo _ _ _ _ Hinv) as Hfifo. unfold fifo_ok in Hfifo.
  pose proof (inv_flight _ _ _ _ Hinv) as Hflight. unfold flight_ok in Hflight.
  destruct (inv_fresh _ _ _ _ Hinv) as (_ & Hnodup & _).
  assert (Hnd : NoDup (dequeued (history (the_world st)))).
  { rewrite <- Hfifo in Hnodup. apply NoDup_app in Hnodup. tauto. }
  split; [|split; [|split; [|split]]].
  - rewrite Hflight in Hnd. apply NoDup_app in Hnd. tauto.
  - rewrite <- Hfifo. transitivity (dequeued (history (the_world st))).
    + rewrite Hflight. apply submseteq_inserts_r. reflexivity.
    + apply submseteq_inserts_r. reflexivity.
  - pose proof (inv_dispatch _ _ _ _ Hinv) as Hd. unfold dispatch_ok in Hd.
    destruct (inv_shape _ _ _ _ Hinv) as (m & _ & _ & Hlen & Hwp & _).
    pose proof (started_le _ _ Hwp).
    eapply Forall_impl; [exact Hd|]. cbn. intros. lia.
  - lia.
  - intros Hworker Hrun Hq.
    destruct (rest_empty cfg server pcs st Hinv Hrun Hq) as (Hqueue & Hheld).
    specialize (Hqueue (worker_counted _ _ _ _ Hinv Hworker)).
    split; [exact Hqueue|].
    rewrite <- Hfifo, Hqueue, app_nil_r, Hflight, Hheld, app_nil_r. reflexivity.
Qed.

(** C4, as amended.  The handles leave the queue in the order in which
    they entered it: what has been dequeued, followed by what is in the
    queue, is what has been enqueued.  So when [a] was enqueued before [b]
    and [b] has been dequeued, [a] was dequeued before [b].  A worker calls
    the handler on the connections it has taken in the order in which it
    took them, which is the order of the queue. *)
Theorem dequeued_in_order cfg n st :
  steps n (initial cfg) st ->
  dequeued (history (the_world st)) ++ queue (the_world st)
  = enqueued (history (the_world st)) /\
  (forall i j a b,
      (i < j)%nat ->
      enqueued (history (the_world st)) !! i = Some a ->
      enqueued (history (the_world st)) !! j = Some b ->
      (j < length (dequeued (history (the_world st))))%nat ->
      dequeued (history (the_world st)) !! i = Some a /\
      dequeued (history (the_world st)) !! j = Some b) /\
  (forall t,
      served_by t (history (the_world st)) `prefix_of` taken_by t (history (the_world st)) /\
      taken_by t (history (the_world st)) `sublist_of` dequeued (history (the_world st)) /\
      served_by t (history (the_world st)) `sublist_of` enqueued (history (the_world st))).
Proof.
  intros Hsteps.
  destruct (invariant_steps cfg n st Hsteps) as (server & pcs & Hinv & _).
  pose proof (inv_fifo _ _ _ _ Hinv) as Hfifo. unfold fifo_ok in Hfifo.
  split; [exact Hfifo|]. split.
  - intros i j a b Hij Ha Hb Hj. rewrite <- Hfifo in Ha, Hb.
    rewrite lookup_app_l in Ha by lia. rewrite lookup_app_l in Hb by lia. auto.
  - intros t. pose proof (inv_own _ _ _ _ Hinv t) as Hown.
    pose proof (taken_sublist t (history (the_world st))) as Htaken.
    split; [eexists; exact Hown|]. split; [exact Htaken|].
    rewrite <- Hfifo. apply sublist_inserts_r.
    etransitivity; [|exact Htaken]. rewrite Hown. apply sublist_inserts_r. reflexivity.
Qed.

(** C4, as stated, fails.  The handler is not always called on the
    connections in the order in which they were enqueued: in the run
    [overtaking] of two workers, connection 2 is enqueued and dequeued
    before connection 3, and the handler is called on 3 before it is called
    on 2.  The mutex is released before the handler is called (line 73), so
    the order of the calls is left to the scheduler. *)
Lemma handlers_overtake :
  steps (length overtaking) (initial two_workers) (after overtaking (initial two_workers)) /\
  enqueued (history (the_world (after overtaking (initial two_workers)))) = [2; 3]%nat /\
  dequeued (history (the_world (after overtaking (initial two_workers)))) = [2; 3]%nat /\
  dispatched (history (the_world (after overtaking (initial two_workers))))
  = [(2, 3); (1, 2)]%nat /\
  ~ handlers_in_order (history (the_world (after overtaking (initial two_workers)))).
Proof.
  split; [|split; [|split; [|split]]].
  - apply after_reachable. vm_compute. reflexivity.
  - vm_compute. reflexivity.
  - vm_compute. reflexivity.
  - vm_compute. reflexivity.
  - unfold handlers_in_order.
    replace (dispatched (history (the_world (after overtaking (initial two_workers)))))
      with [(2, 3); (1, 2)]%nat by (vm_compute; reflexivity).
    replace (enqueued (history (the_world (after overtaking (initial two_workers)))))
      with [2; 3]%nat by (vm_compute; reflexivity).
    intros (k & Hk). discriminate Hk.
Qed.

(** ** The pool *)

Lemma creations_spawning pool server n i :
  creations (map (fun j => EvPthreadCreate pool j server) (seq i n)) = seq i n.
Proof.
  revert i. induction n as [|n IH]; intros i; [reflexivity|].
  cbn. unfold creations in IH. rewrite IH. reflexivity.
Qed.

Lemma creations_app tr1 tr2 : creations (tr1 ++ tr2) = creations tr1 ++ creations tr2.
Proof. apply omap_app. Qed.

(** A call of [stream_server_create] that returns a server has called
    [pthread_create] once for each slot of the pool. *)
Lemma stream_server_create_creations port backlog n handler context tr server :
  runs (stream_server_create port backlog n handler context) tr (Done (Some server)) ->
  creations tr = seq 0 n.
Proof.
  intros H. apply stream_server_create_runs in H.
  destruct H as [(_ & [=])|(s & pool & [(_ & _ & _ & [=])|(Hpool & fd & rest & -> & H)])].
  assert (Hrest : creations rest = []).
  { destruct H as [(Hfd & -> & _)|(r1 & Hfd & [(H1 & -> & _)|(r2 & H1 &
                  [(H2 & -> & _)|(r3 & H2 & [(H3 & -> & _)|(H3 & -> & _)])])])];
      reflexivity. }
  rewrite !creations_app, Hrest. cbn. rewrite app_nil_r.
  destruct pool as [pool|]; cbn.
  - apply creations_spawning.
  - destruct Hpool as [Hpool| ->]; [congruence|reflexivity].
Qed.

Lemma initialised_started size p : initialised p = true -> started size p = size.
Proof. destruct p; cbn; congruence. Qed.

Lemma settle_acceptor server p : has_server (settle (Acceptor server p)) = true.
Proof. destruct p; reflexivity. Qed.

(** The main thread keeps its server. *)
Lemma has_server_step st st' main workers :
  step st st' -> threads st = main :: workers -> has_server main = true ->
  exists main' workers', threads st' = main' :: workers' /\ has_server main' = true.
Proof.
  intros Hstep Hths Hmain.
  destruct Hstep as [t th th' w' new Hrun Hth Hs|t n Hrun Hsp Hw]; cbn [threads].
  - rewrite Hths in *. destruct t as [|t]; cbn.
    + injection Hth as <-. destruct main as [|s p| |]; try discriminate.
      destruct Hs as (p' & _ & -> & _). eexists _, _. split; [reflexivity|].
      apply settle_acceptor.
    + eexists _, _. split; [reflexivity|exact Hmain].
  - eauto.
Qed.

(** Only a call of [pthread_create] starts a thread. *)
Lemma thread_step_new t th w th' w' new :
  thread_step t th w th' w' new -> creating th = false -> new = [].
Proof.
  destruct th as [p|s p|s p|]; cbn; try tauto;
    intros (p' & _ & _ & [->| ->]) Hc; try reflexivity;
    destruct (spawned p); [reflexivity|discriminate| reflexivity|discriminate
                          |reflexivity|discriminate].
Qed.

Lemma creating_code cfg server p :
  creating (code_at cfg server p) = true -> exists pool i k, p = MCreate pool i k.
Proof. destruct p; cbn; try discriminate. eauto. Qed.

(** What the threads are, in every state of the process. *)
Lemma pool_shape cfg n st :
  steps n (initial cfg) st ->
  exists main workers,
    threads st = main :: workers /\
    is_worker main = false /\
    Forall (fun th => is_worker th = true) workers /\
    Forall (fun th => creating th = false) workers /\
    (has_server main = true -> creating main = false) /\
    (length workers <= length (created (history (the_world st))))%nat /\
    (exists k, (k <= cfg_thread_pool_size cfg)%nat /\
               created (history (the_world st)) = seq 0 k) /\
    (has_server main = true ->
     created (history (the_world st)) = seq 0 (cfg_thread_pool_size cfg)).
Proof.
  intros Hsteps.
  destruct (invariant_steps cfg n st Hsteps) as (server & pcs & Hinv & _).
  destruct (inv_shape _ _ _ _ Hinv) as (m & H0 & Hm & Hlen & Hwp & Hw).
  pose proof (inv_created _ _ _ _ Hinv m H0) as Hc.
  destruct pcs as [|m' ws]; [discriminate|]. injection H0 as ->.
  exists (code_at cfg server m), (code_at cfg server <$> ws).
  split; [apply (inv_code _ _ _ _ Hinv)|].
  split; [rewrite is_worker_code, Hm; reflexivity|].
  split.
  { apply Forall_fmap, Forall_lookup. intros t p Hp. cbn.
    rewrite is_worker_code, (Hw t p Hp). reflexivity. }
  split.
  { apply Forall_fmap, Forall_lookup. intros t p Hp. cbn.
    pose proof (Hw t p Hp) as Hwp'.
    destruct (creating (code_at cfg server p)) eqn:E; [|reflexivity].
    apply creating_code in E. destruct E as (? & ? & ? & ->). discriminate. }
  split.
  { rewrite has_server_code. intros Hi.
    destruct (creating (code_at cfg server m)) eqn:E; [|reflexivity].
    apply creating_code in E. destruct E as (? & ? & ? & ->). discriminate. }
  rewrite length_fmap, Hc, length_seq. cbn in Hlen.
  pose proof (started_le _ _ Hwp).
  split; [lia|]. split; [eauto|].
  rewrite has_server_code. intros Hi. rewrite (initialised_started _ _ Hi). reflexivity.
Qed.

(** C9, amended.  [stream_server_create] calls [pthread_create] exactly
    [thread_pool_size] times, once per slot of the pool, in order.  Each
    call starts at most one worker, and the source does not look at its
    result: at any time of a run of the process the threads are the main
    thread and workers, at most one for each call made so far, and so
    never more than the size of the pool.  From the return of
    [stream_server_create] on, all the calls have been made, and a step of
    the process neither adds a worker nor removes one. *)
Theorem pool_never_exceeds_size :
  (forall port backlog n handler context tr server,
      runs (stream_server_create port backlog n handler context) tr (Done (Some server)) ->
      creations tr = seq 0 n) /\
  (forall cfg n st,
      steps n (initial cfg) st ->
      exists main workers,
        threads st = main :: workers /\
        is_worker main = false /\
        Forall (fun th => is_worker th = true) workers /\
        (length workers <= length (created (history (the_world st))))%nat /\
        (length workers <= cfg_thread_pool_size cfg)%nat /\
        (exists k, (k <= cfg_thread_pool_size cfg)%nat /\
                   created (history (the_world st)) = seq 0 k) /\
        (has_server main = true ->
         created (history (the_world st)) = seq 0 (cfg_thread_pool_size cfg))) /\
  (forall cfg n st st' main workers,
      steps n (initial cfg) st -> step st st' ->
      threads st = main :: workers -> has_server main = true ->
      exists main' workers',
        threads st' = main' :: workers' /\
        has_server main' = true /\
        Forall (fun th => is_worker th = true) workers' /\
        length workers' = length workers /\
        created (history (the_world st')) = created (history (the_world st))).
Proof.
  split; [exact stream_server_create_creations|]. split.
  { intros cfg n st Hsteps.
    destruct (pool_shape cfg n st Hsteps)
      as (main & workers & Hths & Hmain & Hall & _ & _ & Hlen & (k & Hk & Hc) & Hdone).
    exists main, workers. repeat (split; [assumption|]).
    split; [rewrite Hc, length_seq in Hlen; lia|]. split; [eauto|exact Hdone]. }
  intros cfg n st st' main workers Hsteps Hstep Hths Hmain.
  destruct (has_server_step st st' main workers Hstep Hths Hmain)
    as (main' & workers' & Hths' & Hmain').
  exists main', workers'. split; [exact Hths'|]. split; [exact Hmain'|].
  destruct (pool_shape cfg n st Hsteps)
    as (m1 & w1 & H1 & _ & _ & Hnc & Hncm & _ & _ & Hd1).
  destruct (pool_shape cfg (S n) st' (steps_S _ _ _ _ Hsteps Hstep))
    as (m2 & w2 & H2 & _ & Hall & _ & _ & _ & _ & Hd2).
  rewrite Hths in H1. injection H1 as <- <-.
  rewrite Hths' in H2. injection H2 as <- <-.
  split; [exact Hall|]. split; [|rewrite (Hd1 Hmain), (Hd2 Hmain'); reflexivity].
  assert (Hlen : length (threads st') = length (threads st)).
  { destruct Hstep as [t th th' w' new Hrun Hth Hs|t k Hrun Hsp Hw]; cbn [threads];
      [|reflexivity].
    assert (Hcr : creating th = false).
    { rewrite Hths in Hth. destruct t as [|t]; cbn in Hth.
      - injection Hth as <-. apply Hncm. exact Hmain.
      - rewrite Forall_lookup in Hnc. exact (Hnc t th Hth). }
    rewrite (thread_step_new _ _ _ _ _ _ Hs Hcr), app_nil_r, length_insert. reflexivity. }
  rewrite Hths, Hths' in Hlen. cbn in Hlen. lia.
Qed.

(** C9, as stated, fails.  In the run [unstarted] the pool has two slots
    and both calls of [pthread_create] fail: [stream_server_create]
    returns the server, and there is no worker, not two.  The source does
    not look at what [pthread_create] returns (line 97). *)
Lemma workers_not_started :
  steps (length unstarted) (initial two_workers) (after unstarted (initial two_workers)) /\
  created (history (the_world (after unstarted (initial two_workers)))) = [0; 1]%nat /\
  (exists main,
      threads (after unstarted (initial two_workers)) = [main] /\
      has_server main = true) /\
  ~ (forall main workers,
        threads (after unstarted (initial two_workers)) = main :: workers ->
        has_server main = true ->
        length workers = cfg_thread_pool_size two_workers).
Proof.
  assert (Hths : exists main,
             threads (after unstarted (initial two_workers)) = [main] /\
             has_server main = true).
  { eexists. split; [vm_compute; reflexivity|reflexivity]. }
  split; [apply after_reachable; vm_compute; reflexivity|].
  split; [vm_compute; reflexivity|]. split; [exact Hths|].
  destruct Hths as (main & Hths & Hmain). intros Hall.
  specialize (Hall main [] Hths Hmain). discriminate Hall.
Qed.

(** ** Runs *)

(** A thread that moves was ready. *)
Lemma move_ready cfg server t p w th' w' new :
  thread_step t (code_at cfg server p) w th' w' new -> ready w t p.
Proof.
  intros Hs.
  destruct p; try exact I;
    try (cbn in Hs; destruct Hs as (? & [] & _); fail);
    try (destruct Hs; fail);
    next_op Hs.
  - (* AAccept *) destruct Hs as (rest & Hin & _). cbn. congruence.
  - (* ALock *) destruct Hs as (Hfree & _). exact Hfree.
  - (* AEnqueue *) destruct Hs as (Hheld & _). exact Hheld.
  - (* AUnlock *) destruct Hs as (Hheld & _). exact Hheld.
  - (* WLock *) destruct Hs as (Hfree & _). exact Hfree.
  - (* WDeq1 *) destruct Hs as (Hheld & _). exact Hheld.
  - (* WSleep *) destruct Hs as (Hheld & _). exact Hheld.
  - (* WBlocked *) destruct Hs as (Hout & Hfree & _). split; assumption.
  - (* WWoken *) destruct Hs as (Hout & Hfree & _). split; assumption.
  - (* WDeq2 *) destruct Hs as (Hheld & _). exact Hheld.
  - (* WUnlock *) destruct Hs as (Hheld & _). exact Hheld.
Qed.

(** Nothing moves when no thread is ready and no waiter can wake up by
    itself. *)
Lemma quiescent_at cfg server pcs st :
  threads st = code_at cfg server <$> pcs ->
  (forall t p, pcs !! t = Some p -> ~ ready (the_world st) t p) ->
  spurious (the_world st) = O ->
  quiescent st.
Proof.
  intros Hcode Hstuck Hsp st' Hstep.
  destruct Hstep as [t th th' w' new Hrun Hth Hs|t n Hrun Hsp' Hw]; [|congruence].
  rewrite Hcode, list_lookup_fmap in Hth.
  destruct (pcs !! t) as [p|] eqn:Hp; [|discriminate]. injection Hth as <-.
  apply (Hstuck t p Hp). eapply move_ready. exact Hs.
Qed.

Lemma running_check st :
  forallb (fun th => negb (halted th)) (threads st) = true -> running st.
Proof.
  intros Hrun. unfold running. apply Forall_forall. intros th Hth.
  rewrite forallb_forall in Hrun. apply list_elem_of_In in Hth.
  apply Hrun in Hth. destruct (halted th); [discriminate|reflexivity].
Qed.

(** The run [to_rest] of one worker: the connection is enqueued while the
    worker waits, the worker is woken, serves it and waits again; then
    nothing moves, and the connection has been given to the handler once.
    The handler of this run does not close the connection: its descriptor
    10 is still open and its handle, block 2, has been freed. *)
Example served_at_rest :
  steps (length to_rest) (initial one_worker) (after to_rest (initial one_worker)) /\
  running (after to_rest (initial one_worker)) /\
  quiescent (after to_rest (initial one_worker)) /\
  enqueued (history (the_world (after to_rest (initial one_worker)))) = [2%nat] /\
  dispatched (history (the_world (after to_rest (initial one_worker)))) = [(1, 2)%nat] /\
  elements (fds (the_world (after to_rest (initial one_worker)))) = [3; 10] /\
  mem (the_world (after to_rest (initial one_worker))) !! 2%nat = None.
Proof.
  split; [|split; [|split; [|split; [|split; [|split]]]]].
  - apply after_reachable. vm_compute. reflexivity.
  - apply running_check. vm_compute. reflexivity.
  - apply (quiescent_at one_worker O [AAccept 3; WBlocked]).
    + vm_compute. reflexivity.
    + intros [|[|t]] p Hp; cbn in Hp; try discriminate; injection Hp as <-; cbn.
      * intros H. apply H. vm_compute. reflexivity.
      * intros (_ & H). apply H.
        assert (Hw : bool_decide
                       (1%nat ∈ waiting (the_world (after to_rest (initial one_worker))))
                     = true) by (vm_compute; reflexivity).
        apply bool_decide_eq_true in Hw. exact Hw.
    + vm_compute. reflexivity.
  - vm_compute. reflexivity.
  - vm_compute. reflexivity.
  - vm_compute. reflexivity.
  - vm_compute. reflexivity.
Qed.

(** The run [unstarted]: both calls of [pthread_create] have failed, no
    worker runs, the two connections are in the queue, and nothing moves
    any more. *)
Example left_in_queue :
  steps (length unstarted) (initial two_workers) (after unstarted (initial two_workers)) /\
  running (after unstarted (initial two_workers)) /\
  quiescent (after unstarted (initial two_workers)) /\
  length (threads (after unstarted (initial two_workers))) = 1%nat /\
  queue (the_world (after unstarted (initial two_workers))) = [2; 3]%nat /\
  dispatched (history (the_world (after unstarted (initial two_workers)))) = [].
Proof.
  split; [|split; [|split; [|split; [|split]]]].
  - apply after_reachable. vm_compute. reflexivity.
  - apply running_check. vm_compute. reflexivity.
  - apply (quiescent_at two_workers O [AAccept 3]).
    + vm_compute. reflexivity.
    + intros [|t] p Hp; cbn in Hp; try discriminate; injection Hp as <-.
      unfold ready. intros H. apply H. vm_compute. reflexivity.
    + vm_compute. reflexivity.
  - vm_compute. reflexivity.
  - vm_compute. reflexivity.
  - vm_compute. reflexivity.
Qed.

(** C1 on the run [to_rest]: the worker is running, the process is at
    rest, and the connection enqueued has been given to the handler. *)
Lemma every_connection_dispatched_once_witness :
  steps (length to_rest) (initial one_worker) (after to_rest (initial one_worker)) /\
  Exists (fun th => is_worker th = true) (threads (after to_rest (initial one_worker))) /\
  running (after to_rest (initial one_worker)) /\
  quiescent (after to_rest (initial one_worker)) /\
  NoDup (dispatched (history (the_world (after to_rest (initial one_worker))))).*2 /\
  (dispatched (history (the_world (after to_rest (initial one_worker))))).*2
  ⊆+ enqueued (history (the_world (after to_rest (initial one_worker)))) /\
  Forall (fun tc : tid * ptr => (1 <= tc.1 <= cfg_thread_pool_size one_worker)%nat)
         (dispatched (history (the_world (after to_rest (initial one_worker))))) /\
  (length to_rest <= budget one_worker)%nat /\
  queue (the_world (after to_rest (initial one_worker))) = [] /\
  (dispatched (history (the_world (after to_rest (initial one_worker))))).*2
  ≡ₚ enqueued (history (the_world (after to_rest (initial one_worker)))).
Proof.
  destruct served_at_rest as (Hrun & Hrunning & Hq & _).
  assert (Hworker : Exists (fun th => is_worker th = true)
                      (threads (after to_rest (initial one_worker)))).
  { apply Exists_exists. eexists. split; [|shelve].
    apply (list_elem_of_lookup_2 _ 1%nat). vm_compute. reflexivity.
    Unshelve. reflexivity. }
  destruct (every_connection_dispatched_once one_worker (length to_rest)
              (after to_rest (initial one_worker)) Hrun) as (H1 & H2 & H3 & H4 & H5).
  destruct (H5 Hworker Hrunning Hq) as (H6 & H7).
  repeat (split; [assumption|]). assumption.
Defined.

(** C4, as amended, on the run [overtaking]. *)
Lemma dequeued_in_order_witness :
  steps (length overtaking) (initial two_workers) (after overtaking (initial two_workers)) /\
  dequeued (history (the_world (after overtaking (initial two_workers))))
  ++ queue (the_world (after overtaking (initial two_workers)))
  = enqueued (history (the_world (after overtaking (initial two_workers)))).
Proof.
  assert (Hrun : steps (length overtaking) (initial two_workers)
                   (after overtaking (initial two_workers))).
  { apply after_reachable. vm_compute. reflexivity. }
  split; [exact Hrun|].
  exact (proj1 (dequeued_in_order two_workers (length overtaking)
                  (after overtaking (initial two_workers)) Hrun)).
Defined.

(** * More on the functions, one thread at a time *)

(** X1.  [stream_server_close] on a null connection makes no call.  On a
    connection it reads the descriptor of the handle and makes one [close]
    on it, whose result is ignored: when [close] succeeds the descriptor is
    no longer open, and in either case the handle stays allocated (it is
    the worker that frees it). *)
Theorem stream_server_close_keeps_handle :
  (forall tr o, runs (stream_server_close None) tr o <-> tr = [] /\ o = Done tt) /\
  (forall c tr o,
      runs (stream_server_close (Some c)) tr o <->
      exists fd r, tr = [EvLoad c id fd; EvClose fd r] /\ o = Done tt) /\
  (forall c t w o w',
      exec (stream_server_close (Some c)) t w o w' <->
      exists fd r,
        (forall blk, mem w !! c = Some blk -> fd = blk id) /\
        o = Done tt /\
        w' = record t (EvClose fd r)
               (if r =? 0
                then set_fds (fun s => s ∖ {[fd]}) (record t (EvLoad c id fd) w)
                else record t (EvLoad c id fd) w)) /\
  (forall c t w o w',
      exec (stream_server_close (Some c)) t w o w' ->
      mem w' = mem w /\ queue w' = queue w /\ fds w' ⊆ fds w).
Proof.
  assert (Hexec : forall c t w o w',
      exec (stream_server_close (Some c)) t w o w' <->
      exists fd r,
        (forall blk, mem w !! c = Some blk -> fd = blk id) /\
        o = Done tt /\
        w' = record t (EvClose fd r)
               (if r =? 0
                then set_fds (fun s => s ∖ {[fd]}) (record t (EvLoad c id fd) w)
                else record t (EvLoad c id fd) w)).
  { intros c t w o w'. cbn. split.
    - intros (fd & w1 & (-> & Hfd) & r & w2 & -> & -> & ->). exists fd, r. auto.
    - intros (fd & r & Hfd & -> & ->). exists fd. eexists. split; [split; [reflexivity|exact Hfd]|].
      exists r. eexists. split; [reflexivity|]. split; reflexivity. }
  split; [|split; [|split; [exact Hexec|]]].
  - intros tr o. cbn. tauto.
  - intros c tr o. cbn. split.
    + intros (fd & tr1 & -> & r & tr2 & -> & -> & ->). eauto.
    + intros (fd & r & -> & ->). exists fd. eexists. split; [reflexivity|].
      exists r. eexists. split; [reflexivity|]. split; reflexivity.
  - intros c t w o w' H. apply Hexec in H. destruct H as (fd & r & _ & _ & ->).
    destruct (r =? 0); cbn; repeat split; try reflexivity.
    apply subseteq_difference_l. reflexivity.
Qed.

(** ** [stream_server_create] *)

Lemma find_in_seq (f : nat -> event) a n l3 before e after :
  map f (seq a n) ++ l3 = before ++ e :: after ->
  (exists i, (i < n)%nat /\ before = map f (seq a i) /\ e = f (a + i)%nat) \/
  (exists b, before = map f (seq a n) ++ b /\ l3 = b ++ e :: after).
Proof.
  revert a before. induction n as [|n IH]; intros a before H; cbn in H.
  - right. exists before. auto.
  - destruct before as [|x before]; cbn in H.
    + injection H as <- _. left. exists O. rewrite Nat.add_0_r. split; [lia|auto].
    + injection H as <- H. destruct (IH (S a) before H) as [(i & Hi & -> & ->)|(b & -> & ->)].
      * left. exists (S i). split; [lia|]. split; [reflexivity|]. f_equal. lia.
      * right. exists b. auto.
Qed.

Lemma setting_up_no_create server n handler context thread_pool :
  Forall (fun x => is_create x = false) (setting_up server n handler context thread_pool).
Proof. unfold setting_up. repeat constructor. Qed.

(** Looking for a [pthread_create] in a trace known call by call. *)
Ltac find_create Htr before :=
  repeat (destruct before as [|? before]; cbn in Htr;
          [ discriminate Htr | injection Htr as _ Htr ]);
  try (destruct before; discriminate Htr).

(** X2.  [stream_server_create] returns NULL exactly when the server
    could not be allocated, and then it has made no other call.  The
    allocation of the thread pool is not checked: when it fails and
    [thread_pool_size] is not 0, the first [pthread_create] is given a
    null pointer, before any thread is started and before the socket is
    opened.  With a [thread_pool_size] of 0 a null pool is harmless. *)
Theorem stream_server_create_outcomes port backlog n handler context tr o :
  runs (stream_server_create port backlog n handler context) tr o ->
  (o = Done None <-> tr = [EvCalloc 1 stream_server_t None]) /\
  (o = Crashed <->
   n <> O /\ exists server, tr = setting_up server n handler context None) /\
  (n = O -> o <> Crashed).
Proof.
  intros H. apply stream_server_create_runs in H.
  destruct H as [(-> & ->)|(server & pool & [(-> & Hn & -> & ->)|(Hpool & fd & rest & -> & H)])].
  - split; [tauto|]. split; [|discriminate]. split; [discriminate|].
    intros (_ & server & [=]).
  - split; [|split; [|congruence]].
    + split; [discriminate|]. intros [=].
    + split; [eauto|reflexivity].
  - assert (Ho : o <> Done None /\ o <> Crashed).
    { destruct H as [(Hfd & -> & ->)|(r1 & Hfd & [(H1 & -> & ->)|(r2 & H1 &
                  [(H2 & -> & ->)|(r3 & H2 & [(H3 & -> & ->)|(H3 & -> & ->)])])])];
        split; discriminate. }
    destruct Ho as (Ho1 & Ho2).
    split; [|split; [|intros _; exact Ho2]].
    + split; [intros; contradiction|]. intros [=].
    + split; [intros; contradiction|]. intros (_ & server' & Htr). exfalso.
      apply (f_equal length) in Htr. rewrite !length_app in Htr. cbn in Htr. lia.
Qed.

(** X2 on a run. *)
Lemma stream_server_create_outcomes_witness :
  runs (stream_server_create 8080 16 2 100 200)
       [EvCalloc 1 stream_server_t (Some 0%nat);
        EvStore 0 connection_handler 100; EvStore 0 connection_handler_context 200;
        EvQueueCreate 0; EvMutexInit 0; EvCondInit 0;
        EvCalloc 2 pthread_t None] Crashed /\
  (@Crashed (option nat) = Crashed <->
   2%nat <> O /\
   exists server,
     [EvCalloc 1 stream_server_t (Some 0%nat);
      EvStore 0 connection_handler 100; EvStore 0 connection_handler_context 200;
      EvQueueCreate 0; EvMutexInit 0; EvCondInit 0;
      EvCalloc 2 pthread_t None] = setting_up server 2 100 200 None).
Proof.
  assert (Hrun : runs (stream_server_create 8080 16 2 100 200)
       [EvCalloc 1 stream_server_t (Some 0%nat);
        EvStore 0 connection_handler 100; EvStore 0 connection_handler_context 200;
        EvQueueCreate 0; EvMutexInit 0; EvCondInit 0;
        EvCalloc 2 pthread_t None] Crashed) by replay.
  split; [exact Hrun|].
  exact (proj1 (proj2 (stream_server_create_outcomes 8080 16 2 100 200 _ _ Hrun))).
Defined.

(** X3.  In [stream_server_create] the [i]-th worker is started after the
    handler and its context are written in the server, after the queue,
    the mutex and the condition variable are set up and after the workers
    before it, and before the socket is opened: what precedes its
    [pthread_create] is exactly that. *)
Theorem workers_start_after_setup port backlog n handler context tr o :
  runs (stream_server_create port backlog n handler context) tr o ->
  forall before pool i server after,
    tr = before ++ EvPthreadCreate pool i server :: after ->
    (i < n)%nat /\
    before = setting_up server n handler context (Some pool)
             ++ map (fun j => EvPthreadCreate pool j server) (seq 0 i).
Proof.
  intros H before pool i server after Htr. apply stream_server_create_runs in H.
  destruct H as [(-> & ->)|(s & tp & [(-> & Hn & -> & ->)|(Hpool & fd & rest & -> & H)])].
  - exfalso. find_create Htr before.
  - exfalso. unfold setting_up in Htr. find_create Htr before.
  - apply skip_quiet with (P := is_create) in Htr;
      [|apply setting_up_no_create|reflexivity].
    destruct Htr as (before' & -> & Htr).
    assert (Hrest : forall b, [EvSocket fd; EvStore s socket_fd fd] ++ rest
                              = b ++ EvPthreadCreate pool i server :: after -> False).
    { intros b Hb.
      destruct H as [(Hfd & -> & ->)|(r1 & Hfd & [(H1 & -> & ->)|(r2 & H1 &
                  [(H2 & -> & ->)|(r3 & H2 & [(H3 & -> & ->)|(H3 & -> & ->)])])])];
        find_create Hb b. }
    destruct tp as [p|]; cbn [spawning] in Htr.
    + apply find_in_seq in Htr. destruct Htr as [(j & Hj & -> & He)|(b & _ & Hb)].
      * cbn in He. injection He as -> -> ->. auto.
      * exfalso. exact (Hrest b Hb).
    + exfalso. exact (Hrest before' Htr).
Qed.

(** X3 on a run. *)
Lemma workers_start_after_setup_witness :
  runs (stream_server_create 8080 16 2 100 200)
       ([EvCalloc 1 stream_server_t (Some 0%nat);
         EvStore 0 connection_handler 100; EvStore 0 connection_handler_context 200;
         EvQueueCreate 0; EvMutexInit 0; EvCondInit 0;
         EvCalloc 2 pthread_t (Some 1%nat);
         EvPthreadCreate 1 0 0]
        ++ EvPthreadCreate 1 1 0
        :: [EvSocket 3; EvStore 0 socket_fd 3;
            EvSetsockopt 3 0; EvBind 3 8080 0; EvListen 3 16 0])
       (Done (Some 0%nat)) /\
  (1 < 2)%nat /\
  [EvCalloc 1 stream_server_t (Some 0%nat);
   EvStore 0 connection_handler 100; EvStore 0 connection_handler_context 200;
   EvQueueCreate 0; EvMutexInit 0; EvCondInit 0;
   EvCalloc 2 pthread_t (Some 1%nat);
   EvPthreadCreate 1 0 0]
  = setting_up 0 2 100 200 (Some 1%nat)
    ++ map (fun j => EvPthreadCreate 1 j 0) (seq 0 1).
Proof.
  assert (Hrun : runs (stream_server_create 8080 16 2 100 200)
       ([EvCalloc 1 stream_server_t (Some 0%nat);
         EvStore 0 connection_handler 100; EvStore 0 connection_handler_context 200;
         EvQueueCreate 0; EvMutexInit 0; EvCondInit 0;
         EvCalloc 2 pthread_t (Some 1%nat);
         EvPthreadCreate 1 0 0]
        ++ EvPthreadCreate 1 1 0
        :: [EvSocket 3; EvStore 0 socket_fd 3;
            EvSetsockopt 3 0; EvBind 3 8080 0; EvListen 3 16 0])
       (Done (Some 0%nat))) by replay.
  split; [exact Hrun|].
  exact (workers_start_after_setup 8080 16 2 100 200 _ _ Hrun _ 1%nat 1%nat 0%nat _ eq_refl).
Defined.

(** * More on the process *)

(** ** The mutex *)

Lemma critical_code cfg server p : in_critical_section (code_at cfg server p) = holds p.
Proof. destruct p; reflexivity. Qed.

(** X4.  At any time of a run the mutex is held by a thread exactly when
    the next call of that thread is one that the source makes between
    lock and unlock: an enqueue, a dequeue, the signal, the wait or the
    unlock.  So the queue is only used with the mutex held, the mutex is
    unlocked by its owner, and it is not held while the handler runs nor
    while the main thread is in [accept]. *)
Theorem mutex_held_in_critical_section cfg n st :
  steps n (initial cfg) st ->
  forall t,
    mutex (the_world st) = Some t <->
    exists th, threads st !! t = Some th /\ in_critical_section th = true.
Proof.
  intros Hsteps t.
  destruct (invariant_steps cfg n st Hsteps) as (server & pcs & Hinv & _).
  rewrite (inv_mutex _ _ _ _ Hinv t), (inv_code _ _ _ _ Hinv). split.
  - intros (p & Hp & Hh). exists (code_at cfg server p).
    rewrite list_lookup_fmap, Hp, critical_code. auto.
  - intros (th & Hth & Hc). rewrite list_lookup_fmap in Hth.
    destruct (pcs !! t) as [p|]; [|discriminate]. injection Hth as <-.
    rewrite critical_code in Hc. eauto.
Qed.

(** X4 on the run [to_rest], stopped when the worker has locked the mutex
    for the first time. *)
Lemma mutex_held_in_critical_section_witness :
  steps (length (take 14 to_rest)) (initial one_worker)
        (after (take 14 to_rest) (initial one_worker)) /\
  mutex (the_world (after (take 14 to_rest) (initial one_worker))) = Some 1%nat /\
  exists th,
    threads (after (take 14 to_rest) (initial one_worker)) !! 1%nat = Some th /\
    in_critical_section th = true.
Proof.
  assert (Hrun : steps (length (take 14 to_rest)) (initial one_worker)
                   (after (take 14 to_rest) (initial one_worker))).
  { apply after_reachable. vm_compute. reflexivity. }
  assert (Hm : mutex (the_world (after (take 14 to_rest) (initial one_worker))) = Some 1%nat).
  { vm_compute. reflexivity. }
  split; [exact Hrun|]. split; [exact Hm|].
  exact (proj1 (mutex_held_in_critical_section one_worker _ _ Hrun 1%nat) Hm).
Defined.

(** ** Rest *)

Lemma accepting_code cfg server p :
  accepting (code_at cfg server p) = true -> exists listen_fd, p = AAccept listen_fd.
Proof. destruct p; try discriminate. eauto. Qed.

(** X5.  The process has no deadlock.  When no thread can make a call and
    the process has not been ended by [exit] or by a crash, the mutex is
    free, every worker waits on the condition variable, and the main
    thread is in [accept] with no connection pending, or it has returned
    from [stream_server_create] without a server. *)
Theorem rest_is_idle cfg n st :
  steps n (initial cfg) st -> running st -> quiescent st ->
  mutex (the_world st) = None /\
  (forall t th,
      threads st !! t = Some th -> is_worker th = true -> t ∈ waiting (the_world st)) /\
  exists main,
    threads st !! O = Some main /\
    (main = Finished \/ (accepting main = true /\ incoming (the_world st) = [])).
Proof.
  intros Hsteps Hrun Hq.
  destruct (invariant_steps cfg n st Hsteps) as (server & pcs & Hinv & _).
  pose proof (at_rest cfg server pcs st Hinv Hrun Hq) as Hrest.
  pose proof (inv_code _ _ _ _ Hinv) as Hcode.
  split; [|split].
  - destruct (mutex (the_world st)) as [t|] eqn:E; [|reflexivity]. exfalso.
    apply (inv_mutex _ _ _ _ Hinv) in E. destruct E as (p & Hp & Hh).
    destruct (Hrest t p Hp) as [-> | [(l & ->) | ->]]; discriminate.
  - intros t th Hth Hw. rewrite Hcode, list_lookup_fmap in Hth.
    destruct (pcs !! t) as [p|] eqn:Hp; [|discriminate]. injection Hth as <-.
    apply (inv_waiting _ _ _ _ Hinv).
    destruct (Hrest t p Hp) as [-> | [(l & ->) | ->]]; [discriminate..|exact Hp].
  - destruct (inv_shape _ _ _ _ Hinv) as (m & H0 & Hm & _).
    exists (code_at cfg server m). split; [rewrite Hcode, list_lookup_fmap, H0; reflexivity|].
    destruct (Hrest O m H0) as [-> | [(l & ->) | ->]]; [left; reflexivity| |discriminate].
    right. split; [reflexivity|].
    destruct (incoming (the_world st)) as [|x rest] eqn:E; [reflexivity|]. exfalso.
    destruct (can_move cfg server O (AAccept l) (the_world st)) as (th' & w' & new & Hs).
    { cbn. congruence. }
    eapply Hq. eapply step_call; [exact Hrun| |exact Hs].
    rewrite Hcode, list_lookup_fmap, H0. reflexivity.
Qed.

(** X5 on the run [to_rest]. *)
Lemma rest_is_idle_witness :
  steps (length to_rest) (initial one_worker) (after to_rest (initial one_worker)) /\
  running (after to_rest (initial one_worker)) /\
  quiescent (after to_rest (initial one_worker)) /\
  mutex (the_world (after to_rest (initial one_worker))) = None /\
  (forall t th,
      threads (after to_rest (initial one_worker)) !! t = Some th ->
      is_worker th = true -> t ∈ waiting (the_world (after to_rest (initial one_worker)))) /\
  exists main,
    threads (after to_rest (initial one_worker)) !! O = Some main /\
    (main = Finished \/
     (accepting main = true /\ incoming (the_world (after to_rest (initial one_worker))) = [])).
Proof.
  destruct served_at_rest as (Hsteps & Hrun & Hq & _).
  split; [exact Hsteps|]. split; [exact Hrun|]. split; [exact Hq|].
  exact (rest_is_idle one_worker _ _ Hsteps Hrun Hq).
Defined.

(** ** A pool of no worker *)

Lemma holding_main p : is_main p = true -> holding p = None.
Proof. destruct p; try discriminate; reflexivity. Qed.

(** X6.  With a [thread_pool_size] of 0 there is no worker: the main
    thread is alone, nothing is ever dequeued and the handler is never
    called.  Every handle that [stream_server_loop] enqueues stays in the
    queue. *)
Theorem empty_pool_serves_nothing cfg n st :
  cfg_thread_pool_size cfg = O -> steps n (initial cfg) st ->
  length (threads st) = 1%nat /\
  dispatched (history (the_world st)) = [] /\
  dequeued (history (the_world st)) = [] /\
  queue (the_world st) = enqueued (history (the_world st)).
Proof.
  intros Hsize Hsteps.
  destruct (invariant_steps cfg n st Hsteps) as (server & pcs & Hinv & _).
  destruct (inv_shape _ _ _ _ Hinv) as (m & H0 & Hm & Hlen & Hwp & _).
  pose proof (started_le _ _ Hwp) as Hle. rewrite Hsize in Hle, Hlen.
  assert (Hone : pcs = [m]).
  { destruct pcs as [|m' [|q pcs]]; cbn in Hlen; try lia; try discriminate.
    injection H0 as ->. reflexivity. }
  assert (Hd : dispatched (history (the_world st)) = []).
  { pose proof (inv_dispatch _ _ _ _ Hinv) as Hd. unfold dispatch_ok in Hd.
    rewrite Hone in Hd. cbn in Hd.
    destruct (dispatched (history (the_world st))) as [|tc l]; [reflexivity|].
    apply Forall_cons in Hd. destruct Hd as (Hd & _). lia. }
  assert (Hq : dequeued (history (the_world st)) = []).
  { pose proof (inv_flight _ _ _ _ Hinv) as Hf. unfold flight_ok in Hf.
    rewrite Hd, Hone in Hf. cbn in Hf. rewrite (holding_main m Hm) in Hf.
    apply Permutation_nil_r in Hf. exact Hf. }
  split; [rewrite (inv_code _ _ _ _ Hinv), Hone; reflexivity|].
  split; [exact Hd|]. split; [exact Hq|].
  pose proof (inv_fifo _ _ _ _ Hinv) as Hfifo. unfold fifo_ok in Hfifo.
  rewrite Hq in Hfifo. exact Hfifo.
Qed.

(** X6 on the run [piling]: the connection is accepted, its handle is
    enqueued and stays there. *)
Lemma empty_pool_serves_nothing_witness :
  cfg_thread_pool_size no_worker = O /\
  steps (length piling) (initial no_worker) (after piling (initial no_worker)) /\
  queue (the_world (after piling (initial no_worker))) = [1%nat] /\
  length (threads (after piling (initial no_worker))) = 1%nat /\
  dispatched (history (the_world (after piling (initial no_worker)))) = [] /\
  dequeued (history (the_world (after piling (initial no_worker)))) = [] /\
  queue (the_world (after piling (initial no_worker)))
  = enqueued (history (the_world (after piling (initial no_worker)))).
Proof.
  assert (Hrun : steps (length piling) (initial no_worker) (after piling (initial no_worker))).
  { apply after_reachable. vm_compute. reflexivity. }
  split; [reflexivity|]. split; [exact Hrun|]. split; [vm_compute; reflexivity|].
  exact (empty_pool_serves_nothing no_worker _ _ eq_refl Hrun).
Defined.

(** * The heap *)

(** ** A call more in the history *)

Ltac by_event e H :=
  destruct e; try discriminate H;
  repeat match goal with
         | f : field |- _ => destruct f
         | ty : ctype |- _ => destruct ty
         | r : option _ |- _ => destruct r
         end;
  try discriminate H; try reflexivity.

Lemma omap_snoc_none {A B} (f : A -> option B) (l : list A) (x : A) :
  f x = None -> omap f (l ++ [x]) = omap f l.
Proof. intros H. rewrite omap_app. cbn. rewrite H. apply app_nil_r. Qed.

Lemma silent_sockets h t e : silent e = true -> sockets (h ++ [(t, e)]) = sockets h.
Proof. intros H. apply omap_snoc_none. by_event e H. Qed.

Lemma silent_accepts_on h t e :
  silent e = true -> accepts_on (h ++ [(t, e)]) = accepts_on h.
Proof. intros H. apply omap_snoc_none. by_event e H. Qed.

Lemma silent_servers h t e : silent e = true -> servers (h ++ [(t, e)]) = servers h.
Proof. intros H. apply omap_snoc_none. by_event e H. Qed.

Lemma silent_handles h t e : silent e = true -> handles (h ++ [(t, e)]) = handles h.
Proof. intros H. apply omap_snoc_none. by_event e H. Qed.

Lemma silent_freed h t e : silent e = true -> freed (h ++ [(t, e)]) = freed h.
Proof. intros H. apply omap_snoc_none. by_event e H. Qed.

Lemma silent_calls h t e : silent e = true -> calls (h ++ [(t, e)]) = calls h.
Proof. intros H. apply omap_snoc_none. by_event e H. Qed.

Lemma silent_enqueued h t e : silent e = true -> enqueued (h ++ [(t, e)]) = enqueued h.
Proof. intros H. apply omap_snoc_none. by_event e H. Qed.

Lemma silent_accepted h t e : silent e = true -> accepted (h ++ [(t, e)]) = accepted h.
Proof. intros H. apply omap_snoc_none. by_event e H. Qed.

Lemma silent_dispatched h t e :
  silent e = true -> dispatched (h ++ [(t, e)]) = dispatched h.
Proof. intros H. apply omap_snoc_none. by_event e H. Qed.

Lemma freed_by_snoc t h t' e :
  freed_by t (h ++ [(t', e)]) =
  freed_by t h ++ (if decide (t' = t)
                   then match e with EvFree c => [c] | _ => [] end
                   else []).
Proof.
  unfold freed_by. rewrite omap_app. cbn. destruct (decide (t' = t)); [|reflexivity].
  destruct e; reflexivity.
Qed.

Lemma silent_freed_by t h t' e :
  silent e = true -> freed_by t (h ++ [(t', e)]) = freed_by t h.
Proof.
  intros H. rewrite freed_by_snoc. destruct (decide (t' = t)); [|apply app_nil_r].
  destruct e; try discriminate; apply app_nil_r.
Qed.

Lemma silent_served t h t' e :
  silent e = true -> served_by t (h ++ [(t', e)]) = served_by t h.
Proof.
  intros H. rewrite served_by_snoc. destruct (decide (t' = t)); [|apply app_nil_r].
  destruct e; try discriminate; apply app_nil_r.
Qed.

(** ** What the invariant gives *)

Lemma stored_fresh p c : stored p = Some c -> fresh_handle p = Some c.
Proof. destruct p; try discriminate; intros [= ->]; reflexivity. Qed.

(** A worker runs: the server is allocated and its handler and context
    are written. *)
Lemma worker_flags size pcs t p :
  shape_ok size pcs -> pcs !! t = Some p -> is_main p = false ->
  exists m, pcs !! O = Some m /\ placed m = true /\ handler_stored m = true /\
            context_stored m = true.
Proof.
  intros Hs Hp Hw. pose proof (shape_worker_pos size pcs t p Hs Hp Hw) as Ht.
  destruct Hs as (m & H0 & Hm & Hlen & _). exists m. split; [exact H0|].
  apply lookup_lt_Some in Hp.
  destruct m; cbn in Hlen; try lia; try discriminate Hm; auto.
Qed.

Lemma dispatched_enqueued cfg server pcs st :
  invariant cfg server pcs st ->
  (dispatched (history (the_world st))).*2 ⊆+ enqueued (history (the_world st)).
Proof.
  intros Hinv.
  pose proof (inv_fifo _ _ _ _ Hinv) as Hfifo. unfold fifo_ok in Hfifo.
  pose proof (inv_flight _ _ _ _ Hinv) as Hflight. unfold flight_ok in Hflight.
  rewrite <- Hfifo. transitivity (dequeued (history (the_world st))).
  - rewrite Hflight. apply submseteq_inserts_r. reflexivity.
  - apply submseteq_inserts_r. reflexivity.
Qed.

Lemma dispatched_nodup cfg server pcs st :
  invariant cfg server pcs st ->
  NoDup ((dispatched (history (the_world st))).*2 ++ omap holding pcs).
Proof.
  intros Hinv.
  pose proof (inv_fifo _ _ _ _ Hinv) as Hfifo. unfold fifo_ok in Hfifo.
  pose proof (inv_flight _ _ _ _ Hinv) as Hflight. unfold flight_ok in Hflight.
  destruct (inv_fresh _ _ _ _ Hinv) as (_ & Hnodup & _).
  rewrite <- Hfifo in Hnodup. apply NoDup_app in Hnodup. destruct Hnodup as (Hnd & _).
  rewrite Hflight in Hnd. exact Hnd.
Qed.

Lemma freed_enqueued cfg server pcs st :
  invariant cfg server pcs st -> freed_ok pcs (the_world st) ->
  freed (history (the_world st)) ⊆+ enqueued (history (the_world st)).
Proof.
  intros Hinv (_ & Hperm & _). etransitivity; [|eapply dispatched_enqueued; exact Hinv].
  rewrite Hperm. apply submseteq_inserts_r. reflexivity.
Qed.

Lemma below_enqueued cfg server pcs st l :
  invariant cfg server pcs st -> l ⊆+ enqueued (history (the_world st)) ->
  Forall (fun c => (c < next_block (the_world st))%nat) l.
Proof.
  intros Hinv Hl. destruct (inv_fresh _ _ _ _ Hinv) as (Hb & _).
  apply Forall_forall. intros c Hc. rewrite Forall_forall in Hb. apply Hb.
  eapply elem_of_submseteq; eassumption.
Qed.

Lemma below_handles cfg server pcs st :
  invariant cfg server pcs st -> heap_invariant cfg server pcs (the_world st) ->
  Forall (fun c => (c < next_block (the_world st))%nat) (handles (history (the_world st))).*1.
Proof.
  intros Hinv Hheap. destruct (inv_shape _ _ _ _ Hinv) as (m & H0 & _).
  destruct (hp_handles _ _ _ _ Hheap m H0) as (Heq & _). rewrite Heq.
  apply Forall_app. split.
  - eapply below_enqueued; [exact Hinv|reflexivity].
  - destruct (stored m) as [c|] eqn:E; [|constructor]. repeat constructor.
    destruct (inv_fresh _ _ _ _ Hinv) as (_ & _ & Hf).
    apply (Hf O m c H0). apply stored_fresh. exact E.
Qed.

(** ** One thread moves: what it does to each part *)

Lemma regs_worker cfg l l' p : is_main p = false -> regs_ok cfg l p -> regs_ok cfg l' p.
Proof. destruct p; try discriminate; auto. Qed.

Lemma regs_keep cfg l l' pcs t p' :
  Forall (regs_ok cfg l) pcs -> l' = l -> regs_ok cfg l p' ->
  Forall (regs_ok cfg l') (<[t:=p']> pcs).
Proof. intros H -> Hp. apply Forall_insert; assumption. Qed.

Lemma server_frame cfg server m m' w w' :
  server_ok cfg server m w ->
  main_flags m' = main_flags m ->
  sockets (history w') = sockets (history w) ->
  (socket_called m = false -> accepts_on (history w') = accepts_on (history w)) ->
  servers (history w') = servers (history w) ->
  (next_block w <= next_block w')%nat ->
  ((server < next_block w)%nat -> mem w' !! server = mem w !! server) ->
  server_ok cfg server m' w'.
Proof.
  intros (H1 & H2 & H3) Hf Hs Ha Hv Hn Hm. unfold main_flags in Hf.
  injection Hf as E1 E2 E3 E4 E5. unfold server_ok.
  rewrite E1, E2, E3, E4, E5, Hs, Hv.
  split; [exact H1|]. split; [intros Hc; rewrite (Ha Hc); auto|].
  intros Hpl. destruct (H3 Hpl) as (Hsv & Hlt & blk & Hblk & Hrest).
  split; [exact Hsv|]. split; [lia|]. exists blk. rewrite (Hm Hlt). auto.
Qed.

Lemma handles_frame server m m' w w' :
  handles_ok server m w ->
  stored m' = stored m ->
  (m' <> ACrash -> m <> ACrash /\ pending m' = pending m) ->
  handles (history w') = handles (history w) ->
  enqueued (history w') = enqueued (history w) ->
  accepted (history w') = accepted (history w) ->
  freed (history w') = freed (history w) ->
  (forall c, c ∈ (handles (history w)).*1 -> mem w' !! c = mem w !! c) ->
  (forall fd c, m' = AStore fd c -> is_Some (mem w' !! c) /\ (server < c)%nat) ->
  handles_ok server m' w'.
Proof.
  intros (H1 & H2 & H3 & H4 & H5 & H6) Hst Hpe Hh He Ha Hf Hm Hs.
  unfold handles_ok. rewrite Hh, He, Ha, Hf, Hst.
  split; [exact H1|]. split.
  { intros Hc. destruct (Hpe Hc) as (Hc' & ->). auto. }
  split; [exact H3|]. split.
  { intros c fd Hin Hnf. rewrite Hm; [auto|].
    apply list_elem_of_fmap. exists (c, fd). auto. }
  split; [exact Hs|exact H6].
Qed.

Lemma freed_frame pcs t p p' w w' :
  freed_ok pcs w -> pcs !! t = Some p ->
  freeing p' = freeing p ->
  (forall t0, served_by t0 (history w') = served_by t0 (history w)) ->
  (forall t0, freed_by t0 (history w') = freed_by t0 (history w)) ->
  dispatched (history w') = dispatched (history w) ->
  freed (history w') = freed (history w) ->
  (forall c, c ∈ freed (history w) -> mem w' !! c = mem w !! c) ->
  freed_ok (<[t:=p']> pcs) w'.
Proof.
  intros (H1 & H2 & H3) Hp Hfr Hs Hf Hd Hfd Hm. unfold freed_ok.
  rewrite Hd, Hfd. split; [|split].
  - intros t0. rewrite Hs, Hf, (H1 t0). at_thread t0 t.
    + rewrite Hp, Hfr. reflexivity.
    + reflexivity.
  - rewrite (omap_insert_same freeing pcs t p p' Hp); [exact H2|congruence].
  - intros c Hc. rewrite (Hm c Hc). auto.
Qed.

Lemma below_freed cfg server pcs st :
  invariant cfg server pcs st -> heap_invariant cfg server pcs (the_world st) ->
  Forall (fun c => (c < next_block (the_world st))%nat) (freed (history (the_world st))).
Proof.
  intros Hinv Hheap. eapply below_enqueued; [exact Hinv|].
  eapply freed_enqueued; [exact Hinv|apply (hp_freed _ _ _ _ Hheap)].
Qed.

(** A call that is [silent] and leaves the handles as they are. *)
Lemma heap_silent cfg server pcs w ths t p p' e w1 :
  invariant cfg server pcs (State w ths) ->
  heap_invariant cfg server pcs w ->
  pcs !! t = Some p ->
  history w1 = history w -> silent e = true ->
  (next_block w <= next_block w1)%nat ->
  (forall b, (b < next_block w)%nat -> b <> server -> mem w1 !! b = mem w !! b) ->
  (forall m', <[t:=p']> pcs !! O = Some m' -> server_ok cfg server m' (record t e w1)) ->
  stored p' = stored p ->
  (p' = ACrash \/ pending p' = pending p) -> p <> ACrash ->
  freeing p' = freeing p ->
  (forall fd c, p' = AStore fd c -> is_Some (mem w1 !! c) /\ (server < c)%nat) ->
  regs_ok cfg (sockets (history w)) p' ->
  heap_invariant cfg server (<[t:=p']> pcs) (record t e w1).
Proof.
  intros Hinv Hheap Hp Hh He Hnb Hmem Hserver Hst Hpe Hnc Hfr Hsto Hregs.
  pose proof (below_handles _ _ _ _ Hinv Hheap) as Hbh.
  pose proof (below_freed _ _ _ _ Hinv Hheap) as Hbf.
  cbn [the_world] in Hbh, Hbf. rewrite Forall_forall in Hbh, Hbf.
  destruct (inv_shape _ _ _ _ Hinv) as (m & H0 & _).
  pose proof (hp_handles _ _ _ _ Hheap m H0) as (Heq & _ & _ & _ & _ & Habove).
  rewrite Forall_forall in Habove.
  assert (Hfh : forall c, c ∈ freed (history w) -> c ∈ (handles (history w)).*1).
  { intros c Hc. rewrite Heq. apply elem_of_app. left.
    eapply elem_of_submseteq; [exact Hc|].
    apply (freed_enqueued cfg server pcs (State w ths) Hinv (hp_freed _ _ _ _ Hheap)). }
  assert (Hsame : forall c, c ∈ (handles (history w)).*1 -> mem w1 !! c = mem w !! c).
  { intros c Hc. apply Hmem; [auto|]. specialize (Habove c Hc). lia. }
  constructor; cbn [history record mem next_block]; rewrite ?Hh.
  - eapply regs_keep; [apply (hp_regs _ _ _ _ Hheap)|apply silent_sockets; exact He|exact Hregs].
  - exact Hserver.
  - intros m' Hm'. at_thread O t.
    + injection Hm' as <-. eapply handles_frame; [apply (hp_handles _ _ _ _ Hheap); exact Hp|..];
        cbn [history record mem next_block]; rewrite ?Hh;
        auto using silent_handles, silent_enqueued, silent_accepted, silent_freed.
      intros Hc. destruct Hpe as [?|Hpe]; [contradiction|]. auto.
    + eapply handles_frame; [apply (hp_handles _ _ _ _ Hheap); exact Hm'|..];
        cbn [history record mem next_block]; rewrite ?Hh;
        auto using silent_handles, silent_enqueued, silent_accepted, silent_freed.
      intros fd c ->.
      destruct (hp_handles _ _ _ _ Hheap _ Hm') as (_ & _ & _ & _ & Hs & _).
      destruct (Hs fd c eq_refl) as (Hlive & Hlt). split; [|exact Hlt].
      rewrite Hmem; [exact Hlive| |lia].
      destruct (inv_fresh _ _ _ _ Hinv) as (_ & _ & Hf).
      apply (Hf O (AStore fd c) c Hm'). reflexivity.
  - rewrite silent_calls by exact He. apply (hp_calls _ _ _ _ Hheap).
  - rewrite silent_sockets, silent_accepts_on by exact He. apply (hp_accepts _ _ _ _ Hheap).
  - eapply freed_frame; [apply (hp_freed _ _ _ _ Hheap)|exact Hp|exact Hfr|..];
      cbn [history record mem next_block]; rewrite ?Hh;
      auto using silent_served, silent_freed_by, silent_dispatched, silent_freed.
Qed.

(** A call that is [silent] and leaves the allocated blocks as they
    are. *)
Lemma heap_quiet cfg server pcs w ths t p p' e w1 :
  invariant cfg server pcs (State w ths) ->
  heap_invariant cfg server pcs w ->
  pcs !! t = Some p ->
  history w1 = history w -> silent e = true ->
  (next_block w <= next_block w1)%nat ->
  (forall b, (b < next_block w)%nat -> mem w1 !! b = mem w !! b) ->
  main_flags p' = main_flags p ->
  stored p' = stored p ->
  (p' = ACrash \/ pending p' = pending p) -> p <> ACrash ->
  freeing p' = freeing p ->
  (forall fd c, p' = AStore fd c -> is_Some (mem w1 !! c) /\ (server < c)%nat) ->
  regs_ok cfg (sockets (history w)) p' ->
  heap_invariant cfg server (<[t:=p']> pcs) (record t e w1).
Proof.
  intros Hinv Hheap Hp Hh He Hnb Hmem Hflags Hst Hpe Hnc Hfr Hsto Hregs.
  eapply heap_silent; try eassumption; [auto|].
  intros m' Hm'. at_thread O t.
  - injection Hm' as <-. eapply server_frame; [apply (hp_server _ _ _ _ Hheap); exact Hp|..];
      cbn [history record mem next_block]; rewrite ?Hh;
      auto using silent_sockets, silent_accepts_on, silent_servers.
  - eapply server_frame; [apply (hp_server _ _ _ _ Hheap); exact Hm'|..];
      cbn [history record mem next_block]; rewrite ?Hh;
      auto using silent_sockets, silent_accepts_on, silent_servers.
Qed.

Ltac unchanged :=
  intros; cbn [history record mem next_block];
  repeat match goal with E : history _ = history _ |- _ => rewrite E end;
  first [ reflexivity
        | apply omap_snoc_none; reflexivity
        | rewrite served_by_snoc; destruct (decide _); apply app_nil_r
        | rewrite freed_by_snoc; destruct (decide _); apply app_nil_r
        | assumption
        | lia ].

(** *** The stores in the server *)

Lemma heap_store_server cfg server pcs w ths t p p' f v :
  invariant cfg server pcs (State w ths) ->
  heap_invariant cfg server pcs w ->
  pcs !! t = Some p -> is_main p = true ->
  placed p = true -> placed p' = true -> f <> id ->
  socket_called p' = socket_called p ->
  (handler_stored p' = true ->
   (f = connection_handler /\ v = cfg_handler cfg) \/
   (f <> connection_handler /\ handler_stored p = true)) ->
  (context_stored p' = true ->
   (f = connection_handler_context /\ v = cfg_handler_context cfg) \/
   (f <> connection_handler_context /\ context_stored p = true)) ->
  (socket_stored p' = true ->
   (f = socket_fd /\ sockets (history w) = [v]) \/
   (f <> socket_fd /\ socket_stored p = true)) ->
  stored p' = stored p -> pending p' = pending p -> p <> ACrash ->
  freeing p' = freeing p ->
  (forall fd c, p' <> AStore fd c) ->
  regs_ok cfg (sockets (history w)) p' ->
  heap_invariant cfg server (<[t:=p']> pcs)
    (record t (EvStore server f v) (set_mem (alter (write_field f v) server) w)).
Proof.
  intros Hinv Hheap Hp Hmain Hpl Hpl' Hf Hsc Hh Hc Hs Hst Hpe Hnc Hfr Hns Hregs.
  pose proof (shape_main_zero _ _ _ _ (inv_shape _ _ _ _ Hinv) Hp Hmain) as ->.
  eapply heap_silent; try eassumption; try unchanged.
  - destruct f; try reflexivity. congruence.
  - intros b _ Hb. cbn. apply lookup_alter_ne. congruence.
  - intros m' Hm'. rewrite list_lookup_insert_eq in Hm' by eauto using lookup_lt_Some.
    injection Hm' as <-.
    destruct (hp_server _ _ _ _ Hheap p Hp) as (H1 & H2 & H3).
    destruct (H3 Hpl) as (Hsv & Hlt & blk & Hblk & Hbh & Hbc & Hbs).
    assert (Hq : silent (EvStore server f v) = true) by (destruct f; try reflexivity; congruence).
    split; [congruence|]. split.
    { rewrite Hsc. intros E. cbn [history record set_mem].
      rewrite silent_sockets, silent_accepts_on by exact Hq. auto. }
    intros _. cbn [history record set_mem mem next_block].
    rewrite silent_servers, silent_sockets by exact Hq.
    split; [exact Hsv|]. split; [exact Hlt|].
    exists (write_field f v blk). split; [rewrite lookup_alter_eq, Hblk; reflexivity|].
    unfold write_field. split; [|split].
    + intros E. destruct (Hh E) as [(-> & ->)|(Hne & E')].
      * destruct (decide _); [reflexivity|congruence].
      * destruct (decide _); [congruence|auto].
    + intros E. destruct (Hc E) as [(-> & ->)|(Hne & E')].
      * destruct (decide _); [reflexivity|congruence].
      * destruct (decide _); [congruence|auto].
    + intros E. destruct (Hs E) as [(-> & Hv)|(Hne & E')].
      * destruct (decide _); [exact Hv|congruence].
      * destruct (decide _); [congruence|auto].
  - right. exact Hpe.
  - intros fd c E. destruct (Hns fd c E).
Qed.

(** *** The store in a new handle *)

Lemma heap_store_id cfg server pcs w ths t fd c :
  invariant cfg server pcs (State w ths) ->
  heap_invariant cfg server pcs w ->
  pcs !! t = Some (AStore fd c) ->
  heap_invariant cfg server (<[t:=ALock c]> pcs)
    (record t (EvStore c id fd) (set_mem (alter (write_field id fd) c) w)).
Proof.
  intros Hinv Hheap Hp.
  pose proof (shape_main_zero _ _ _ _ (inv_shape _ _ _ _ Hinv) Hp eq_refl) as ->.
  destruct (hp_handles _ _ _ _ Hheap _ Hp) as (H1 & H2 & H3 & H4 & H5 & H6).
  destruct (H5 fd c eq_refl) as ((blk & Hblk) & Hlt).
  destruct (inv_fresh _ _ _ _ Hinv) as (_ & _ & Hf).
  destruct (Hf O (AStore fd c) c Hp eq_refl) as (Hb & Hnew). cbn [the_world] in Hb, Hnew.
  cbn [option_list stored] in H1. rewrite app_nil_r in H1.
  assert (Hh : handles (history w ++ [(O, EvStore c id fd)]) = handles (history w) ++ [(c, fd)]).
  { unfold handles. rewrite omap_app. reflexivity. }
  assert (Hother : forall c', c' ∈ enqueued (history w) ->
                              alter (write_field id fd) c (mem w) !! c' = mem w !! c').
  { intros c' Hc'. apply lookup_alter_ne. congruence. }
  constructor; cbn [history record set_mem mem next_block].
  - eapply regs_keep; [apply (hp_regs _ _ _ _ Hheap)|unchanged|exact I].
  - intros m' Hm'. rewrite list_lookup_insert_eq in Hm' by eauto using lookup_lt_Some.
    injection Hm' as <-.
    eapply server_frame; [apply (hp_server _ _ _ _ Hheap); exact Hp|..]; try unchanged.
    intros _. cbn. apply lookup_alter_ne. lia.
  - intros m' Hm'. rewrite list_lookup_insert_eq in Hm' by eauto using lookup_lt_Some.
    injection Hm' as <-. unfold handles_ok. cbn [history record set_mem mem stored pending].
    rewrite Hh, !fmap_app.
    replace (enqueued (history w ++ [(O, EvStore c id fd)])) with (enqueued (history w))
      by (symmetry; unchanged).
    replace (accepted (history w ++ [(O, EvStore c id fd)])) with (accepted (history w))
      by (symmetry; unchanged).
    replace (freed (history w ++ [(O, EvStore c id fd)])) with (freed (history w))
      by (symmetry; unchanged).
    cbn [fmap list_fmap fst snd option_list]. rewrite H1, app_nil_r.
    split; [reflexivity|]. split; [intros _; apply H2; discriminate|].
    split; [rewrite (H2 ltac:(discriminate)); reflexivity|].
    split; [|split; [discriminate|]].
    + intros c' fd' Hin Hnf. apply elem_of_app in Hin. destruct Hin as [Hin|Hin].
      * rewrite Hother; [auto|]. rewrite <- H1. apply list_elem_of_fmap. exists (c', fd'). auto.
      * apply list_elem_of_singleton in Hin. injection Hin as -> ->.
        exists (write_field id fd blk). rewrite lookup_alter_eq, Hblk. split; [reflexivity|].
        unfold write_field. destruct (decide _); [reflexivity|congruence].
    + apply Forall_app. split; [rewrite <- H1; exact H6|]. repeat constructor. exact Hlt.
  - replace (calls (history w ++ [(O, EvStore c id fd)])) with (calls (history w))
      by (symmetry; unchanged).
    apply (hp_calls _ _ _ _ Hheap).
  - replace (sockets (history w ++ [(O, EvStore c id fd)])) with (sockets (history w))
      by (symmetry; unchanged).
    replace (accepts_on (history w ++ [(O, EvStore c id fd)])) with (accepts_on (history w))
      by (symmetry; unchanged).
    apply (hp_accepts _ _ _ _ Hheap).
  - eapply freed_frame; [apply (hp_freed _ _ _ _ Hheap)|exact Hp|reflexivity|..]; try unchanged.
    intros c' Hc'. cbn. apply Hother. eapply elem_of_submseteq; [exact Hc'|].
    apply (freed_enqueued cfg server pcs (State w ths) Hinv (hp_freed _ _ _ _ Hheap)).
Qed.

(** *** [socket], [accept] and the enqueue *)

Lemma handles_move server m m' w w' :
  handles_ok server m w ->
  handles (history w') = handles (history w) ->
  freed (history w') = freed (history w) ->
  (forall c, c ∈ (handles (history w)).*1 -> mem w' !! c = mem w !! c) ->
  (handles (history w)).*1 = enqueued (history w') ++ option_list (stored m') ->
  (m' <> ACrash ->
   accepted (history w') = (handles (history w)).*2 ++ option_list (pending m')) ->
  (handles (history w)).*2 `prefix_of` accepted (history w') ->
  (forall fd c, m' <> AStore fd c) ->
  handles_ok server m' w'.
Proof.
  intros (H1 & H2 & H3 & H4 & H5 & H6) Hh Hf Hm He Ha Hpre Hs.
  unfold handles_ok. rewrite Hh, Hf.
  split; [exact He|]. split; [exact Ha|]. split; [exact Hpre|]. split.
  { intros c fd Hin Hnf. rewrite Hm; [auto|].
    apply list_elem_of_fmap. exists (c, fd). auto. }
  split; [|exact H6]. intros fd c E. destruct (Hs fd c E).
Qed.

Lemma regs_at cfg l pcs t p : Forall (regs_ok cfg l) pcs -> pcs !! t = Some p -> regs_ok cfg l p.
Proof. intros H Hp. rewrite Forall_lookup in H. eauto. Qed.

Lemma heap_socket cfg server pcs w ths t x w1 :
  invariant cfg server pcs (State w ths) ->
  heap_invariant cfg server pcs w ->
  pcs !! t = Some MSocket ->
  history w1 = history w -> mem w1 = mem w -> next_block w1 = next_block w ->
  heap_invariant cfg server (<[t:=MStoreFd x]> pcs) (record t (EvSocket x) w1).
Proof.
  intros Hinv Hheap Hp Hh Hm Hn.
  pose proof (inv_shape _ _ _ _ Hinv) as Hshape.
  pose proof (shape_main_zero _ _ _ _ Hshape Hp eq_refl) as ->.
  destruct (hp_server _ _ _ _ Hheap _ Hp) as (_ & H2 & H3).
  destruct (H2 eq_refl) as (Hso & Hac). destruct (H3 eq_refl) as (Hsv & Hlt & blk & Hblk & Hbh & Hbc & _).
  assert (Hs : sockets (history w ++ [(O, EvSocket x)]) = [x]).
  { unfold sockets in *. rewrite omap_app, Hso. reflexivity. }
  constructor; cbn [history record mem next_block]; rewrite ?Hh, ?Hm, ?Hn.
  - rewrite Hs. apply Forall_lookup. intros i q Hq.
    destruct (decide (i = O)) as [->|Hne].
    + rewrite list_lookup_insert_eq in Hq by eauto using lookup_lt_Some.
      injection Hq as <-. reflexivity.
    + rewrite list_lookup_insert_ne in Hq by congruence.
      apply regs_worker with (l := sockets (history w)).
      * destruct Hshape as (m & _ & _ & _ & _ & Hw). destruct i as [|i]; [congruence|].
        apply (Hw i q Hq).
      * eapply regs_at; [apply (hp_regs _ _ _ _ Hheap)|exact Hq].
  - intros m' Hm'. rewrite list_lookup_insert_eq in Hm' by eauto using lookup_lt_Some.
    injection Hm' as <-. split; [discriminate|]. split; [discriminate|]. intros _.
    cbn [history record mem next_block]. rewrite ?Hh, ?Hm, ?Hn.
    replace (servers (history w ++ [(O, EvSocket x)])) with (servers (history w))
      by (symmetry; unchanged).
    split; [exact Hsv|]. split; [exact Hlt|]. exists blk.
    split; [exact Hblk|]. split; [auto|]. split; [auto|discriminate].
  - intros m' Hm'. rewrite list_lookup_insert_eq in Hm' by eauto using lookup_lt_Some.
    injection Hm' as <-.
    eapply handles_frame; [apply (hp_handles _ _ _ _ Hheap); exact Hp|..]; try unchanged.
    + split; [discriminate|reflexivity].
    + intros c _. cbn. rewrite Hm. reflexivity.
    + discriminate.
  - replace (calls (history w ++ [(O, EvSocket x)])) with (calls (history w))
      by (symmetry; unchanged).
    apply (hp_calls _ _ _ _ Hheap).
  - replace (accepts_on (history w ++ [(O, EvSocket x)])) with (accepts_on (history w))
      by (symmetry; unchanged).
    rewrite Hac. constructor.
  - eapply freed_frame; [apply (hp_freed _ _ _ _ Hheap)|exact Hp|reflexivity|..]; try unchanged.
    intros c _. cbn. rewrite Hm. reflexivity.
Qed.

Lemma heap_accept cfg server pcs w ths t listen_fd x w1 :
  invariant cfg server pcs (State w ths) ->
  heap_invariant cfg server pcs w ->
  pcs !! t = Some (AAccept listen_fd) ->
  history w1 = history w -> mem w1 = mem w -> next_block w1 = next_block w ->
  heap_invariant cfg server (<[t:=if x <? 0 then ALog else ACalloc x]> pcs)
    (record t (EvAccept listen_fd x) w1).
Proof.
  intros Hinv Hheap Hp Hh Hm Hn.
  pose proof (inv_shape _ _ _ _ Hinv) as Hshape.
  pose proof (shape_main_zero _ _ _ _ Hshape Hp eq_refl) as ->.
  pose proof (regs_at _ _ _ _ _ (hp_regs _ _ _ _ Hheap) Hp) as Hl. cbn in Hl.
  assert (Ha : accepted (history w ++ [(O, EvAccept listen_fd x)])
               = accepted (history w) ++ (if x <? 0 then [] else [x])).
  { unfold accepted. rewrite omap_app. cbn. destruct (x <? 0); reflexivity. }
  constructor; cbn [history record mem next_block]; rewrite ?Hh, ?Hm, ?Hn.
  - eapply regs_keep; [apply (hp_regs _ _ _ _ Hheap)|unchanged|]. destruct (x <? 0); exact I.
  - intros m' Hm'. rewrite list_lookup_insert_eq in Hm' by eauto using lookup_lt_Some.
    injection Hm' as <-.
    eapply server_frame; [apply (hp_server _ _ _ _ Hheap); exact Hp|..]; try unchanged.
    + destruct (x <? 0); reflexivity.
    + discriminate.
    + intros _. cbn. rewrite Hm. reflexivity.
  - intros m' Hm'. rewrite list_lookup_insert_eq in Hm' by eauto using lookup_lt_Some.
    injection Hm' as <-.
    destruct (hp_handles _ _ _ _ Hheap _ Hp) as (H1 & H2 & H3 & _).
    specialize (H2 ltac:(discriminate)). cbn [pending stored option_list] in H1, H2.
    rewrite app_nil_r in H1, H2.
    eapply handles_move; [apply (hp_handles _ _ _ _ Hheap); exact Hp|..]; try unchanged;
      cbn [history record mem next_block]; rewrite ?Hh, ?Hm, ?Ha.
    + intros c _. reflexivity.
    + replace (enqueued (history w ++ [(O, EvAccept listen_fd x)])) with (enqueued (history w))
        by (symmetry; unchanged).
      rewrite H1. destruct (x <? 0); cbn; rewrite app_nil_r; reflexivity.
    + intros _. rewrite H2. destruct (x <? 0); reflexivity.
    + rewrite H2. apply prefix_app_r. reflexivity.
    + intros fd c. destruct (x <? 0); discriminate.
  - replace (calls (history w ++ [(O, EvAccept listen_fd x)])) with (calls (history w))
      by (symmetry; unchanged).
    apply (hp_calls _ _ _ _ Hheap).
  - replace (sockets (history w ++ [(O, EvAccept listen_fd x)])) with (sockets (history w))
      by (symmetry; unchanged).
    unfold accepts_on. rewrite omap_app. apply Forall_app.
    split; [apply (hp_accepts _ _ _ _ Hheap)|]. repeat constructor. exact Hl.
  - eapply freed_frame; [apply (hp_freed _ _ _ _ Hheap)|exact Hp| |..]; try unchanged.
    + destruct (x <? 0); reflexivity.
    + intros c _. cbn. rewrite Hm. reflexivity.
Qed.

Lemma heap_enqueue cfg server pcs w ths t c w1 :
  invariant cfg server pcs (State w ths) ->
  heap_invariant cfg server pcs w ->
  pcs !! t = Some (AEnqueue c) ->
  history w1 = history w -> mem w1 = mem w -> next_block w1 = next_block w ->
  heap_invariant cfg server (<[t:=ASignal]> pcs) (record t (EvEnqueue server c) w1).
Proof.
  intros Hinv Hheap Hp Hh Hm Hn.
  pose proof (inv_shape _ _ _ _ Hinv) as Hshape.
  pose proof (shape_main_zero _ _ _ _ Hshape Hp eq_refl) as ->.
  constructor; cbn [history record mem next_block]; rewrite ?Hh, ?Hm, ?Hn.
  - eapply regs_keep; [apply (hp_regs _ _ _ _ Hheap)|unchanged|exact I].
  - intros m' Hm'. rewrite list_lookup_insert_eq in Hm' by eauto using lookup_lt_Some.
    injection Hm' as <-.
    eapply server_frame; [apply (hp_server _ _ _ _ Hheap); exact Hp|..]; try unchanged.
    intros _. cbn. rewrite Hm. reflexivity.
  - intros m' Hm'. rewrite list_lookup_insert_eq in Hm' by eauto using lookup_lt_Some.
    injection Hm' as <-.
    destruct (hp_handles _ _ _ _ Hheap _ Hp) as (H1 & H2 & H3 & _).
    specialize (H2 ltac:(discriminate)). cbn [pending stored option_list] in H1, H2.
    eapply handles_move; [apply (hp_handles _ _ _ _ Hheap); exact Hp|..]; try unchanged;
      cbn [history record mem next_block]; rewrite ?Hh, ?Hm.
    + intros c0 _. reflexivity.
    + rewrite H1. unfold enqueued. rewrite omap_app. cbn. rewrite app_nil_r. reflexivity.
    + intros _.
      replace (accepted (history w ++ [(O, EvEnqueue server c)])) with (accepted (history w))
        by (symmetry; unchanged).
      exact H2.
    + replace (accepted (history w ++ [(O, EvEnqueue server c)])) with (accepted (history w))
        by (symmetry; unchanged).
      exact H3.
    + discriminate.
  - replace (calls (history w ++ [(O, EvEnqueue server c)])) with (calls (history w))
      by (symmetry; unchanged).
    apply (hp_calls _ _ _ _ Hheap).
  - replace (sockets (history w ++ [(O, EvEnqueue server c)])) with (sockets (history w))
      by (symmetry; unchanged).
    replace (accepts_on (history w ++ [(O, EvEnqueue server c)])) with (accepts_on (history w))
      by (symmetry; unchanged).
    apply (hp_accepts _ _ _ _ Hheap).
  - eapply freed_frame; [apply (hp_freed _ _ _ _ Hheap)|exact Hp|reflexivity|..]; try unchanged.
    intros c0 _. cbn. rewrite Hm. reflexivity.
Qed.

(** *** The handler and the release of the handle *)

Lemma freeing_elem (pcs : list pc) (t : nat) c :
  pcs !! t = Some (WFree c) -> c ∈ omap freeing pcs.
Proof.
  intros Hp. apply list_elem_of_omap. exists (WFree c). split; [|reflexivity].
  eapply list_elem_of_lookup_2. exact Hp.
Qed.

(** The handle a worker is about to free was enqueued. *)
Lemma freeing_enqueued cfg server pcs st t c :
  invariant cfg server pcs st -> heap_invariant cfg server pcs (the_world st) ->
  pcs !! t = Some (WFree c) ->
  c ∈ enqueued (history (the_world st)) /\ (server < c)%nat.
Proof.
  intros Hinv Hheap Hp.
  destruct (hp_freed _ _ _ _ Hheap) as (_ & Hperm & _).
  assert (Hc : c ∈ enqueued (history (the_world st))).
  { eapply elem_of_submseteq; [|eapply dispatched_enqueued; exact Hinv].
    rewrite Hperm. apply elem_of_app. right. eapply freeing_elem. exact Hp. }
  split; [exact Hc|].
  destruct (inv_shape _ _ _ _ Hinv) as (m & H0 & _).
  destruct (hp_handles _ _ _ _ Hheap m H0) as (H1 & _ & _ & _ & _ & H6).
  rewrite Forall_forall in H6. apply H6. rewrite H1. apply elem_of_app. auto.
Qed.

Lemma heap_worker cfg server pcs w ths t p p' e w1 :
  invariant cfg server pcs (State w ths) ->
  heap_invariant cfg server pcs w ->
  pcs !! t = Some p -> is_main p = false ->
  history w1 = history w -> (next_block w1 = next_block w) ->
  sockets (history w ++ [(t, e)]) = sockets (history w) ->
  accepts_on (history w ++ [(t, e)]) = accepts_on (history w) ->
  servers (history w ++ [(t, e)]) = servers (history w) ->
  handles (history w ++ [(t, e)]) = handles (history w) ->
  enqueued (history w ++ [(t, e)]) = enqueued (history w) ->
  accepted (history w ++ [(t, e)]) = accepted (history w) ->
  (forall b, b ∉ freed (history w ++ [(t, e)]) -> mem w1 !! b = mem w !! b) ->
  (forall b, b ∈ freed (history w ++ [(t, e)]) -> b ∈ enqueued (history w)) ->
  regs_ok cfg (sockets (history w)) p' ->
  Forall (fun a => a = (cfg_handler cfg, server, cfg_handler_context cfg))
         (calls (history w ++ [(t, e)])) ->
  freed_ok (<[t:=p']> pcs) (record t e w1) ->
  heap_invariant cfg server (<[t:=p']> pcs) (record t e w1).
Proof.
  intros Hinv Hheap Hp Hw Hh Hn Hso Hao Hsv Hha Hen Hac Hmem Hfr Hregs Hcalls Hfreed.
  pose proof (inv_shape _ _ _ _ Hinv) as Hshape.
  pose proof (shape_worker_pos _ _ _ _ Hshape Hp Hw) as Ht.
  destruct Hshape as (m & H0 & _).
  assert (H0' : <[t:=p']> pcs !! O = Some m).
  { rewrite list_lookup_insert_ne by lia. exact H0. }
  destruct (hp_handles _ _ _ _ Hheap m H0) as (H1 & H2 & H3 & H4 & H5 & H6).
  destruct (inv_fresh _ _ _ _ Hinv) as (_ & _ & Hf). cbn [the_world] in Hf.
  constructor; cbn [history record mem next_block]; rewrite ?Hh, ?Hn.
  - rewrite Hso. eapply regs_keep; [apply (hp_regs _ _ _ _ Hheap)|reflexivity|exact Hregs].
  - intros m' Hm'. rewrite H0' in Hm'. injection Hm' as <-.
    eapply server_frame; [apply (hp_server _ _ _ _ Hheap); exact H0|..];
      cbn [history record mem next_block]; rewrite ?Hh, ?Hn; auto.
    intros Hlt. apply Hmem. intros Hin.
    rewrite Forall_forall in H6. assert (server < server)%nat; [|lia].
    apply H6. rewrite H1. apply elem_of_app. auto.
  - intros m' Hm'. rewrite H0' in Hm'. injection Hm' as <-.
    unfold handles_ok. cbn [history record mem next_block]. rewrite ?Hh, Hha, Hen, Hac.
    split; [exact H1|]. split; [exact H2|]. split; [exact H3|]. split; [|split; [|exact H6]].
    + intros c fd Hin Hnot.
      assert (Hold : c ∉ freed (history w)).
      { intros Hc. apply Hnot. unfold freed in *. rewrite omap_app. apply elem_of_app. auto. }
      rewrite Hmem by exact Hnot. auto.
    + intros fd c ->. destruct (H5 fd c eq_refl) as (Hlive & Hlt). split; [|exact Hlt].
      rewrite Hmem; [exact Hlive|]. intros Hin.
      destruct (Hf O (AStore fd c) c H0 eq_refl) as (_ & Hnew). auto.
  - exact Hcalls.
  - rewrite Hso, Hao. apply (hp_accepts _ _ _ _ Hheap).
  - exact Hfreed.
Qed.

Lemma heap_call cfg server pcs w ths t c handler context w1 :
  invariant cfg server pcs (State w ths) ->
  heap_invariant cfg server pcs w ->
  pcs !! t = Some (WCall c handler context) ->
  history w1 = history w -> mem w1 = mem w -> next_block w1 = next_block w ->
  heap_invariant cfg server (<[t:=WFree c]> pcs)
    (record t (EvCallHandler handler server c context) w1).
Proof.
  intros Hinv Hheap Hp Hh Hm Hn.
  pose proof (regs_at _ _ _ _ _ (hp_regs _ _ _ _ Hheap) Hp) as (-> & ->).
  destruct (hp_freed _ _ _ _ Hheap) as (F1 & F2 & F3).
  assert (Hfd : forall e', freed (history w ++ [(t, EvCallHandler (cfg_handler cfg) server c e')])
                           = freed (history w)) by (intros; unchanged).
  eapply heap_worker; try eassumption; try unchanged.
  - intros b _. rewrite Hm. reflexivity.
  - intros b Hb. rewrite Hfd in Hb. eapply elem_of_submseteq; [exact Hb|].
    apply (freed_enqueued cfg server pcs (State w ths) Hinv (hp_freed _ _ _ _ Hheap)).
  - unfold calls. rewrite omap_app. apply Forall_app.
    split; [apply (hp_calls _ _ _ _ Hheap)|]. repeat constructor.
  - unfold freed_ok. cbn [history record mem]. rewrite Hh, Hm, Hfd. split; [|split].
    + intros t0. rewrite served_by_snoc, freed_by_snoc, (F1 t0). at_thread t0 t.
      * rewrite Hp. destruct (decide (t = t)); [|congruence]. cbn. rewrite !app_nil_r. reflexivity.
      * destruct (decide (t = t0)); [congruence|]. rewrite !app_nil_r. reflexivity.
    + rewrite dispatched_snoc. cbn. rewrite fmap_app. cbn.
      rewrite (omap_insert_gain freeing pcs t _ (WFree c) c Hp eq_refl eq_refl), F2.
      rewrite <- app_assoc. apply Permutation_app_head.
      symmetry. apply Permutation_cons_append.
    + exact F3.
Qed.

Lemma heap_free cfg server pcs w ths t c :
  invariant cfg server pcs (State w ths) ->
  heap_invariant cfg server pcs w ->
  pcs !! t = Some (WFree c) ->
  heap_invariant cfg server (<[t:=WLock]> pcs)
    (record t (EvFree c) (set_mem (delete c) w)).
Proof.
  intros Hinv Hheap Hp.
  destruct (hp_freed _ _ _ _ Hheap) as (F1 & F2 & F3).
  destruct (freeing_enqueued cfg server pcs (State w ths) t c Hinv Hheap Hp) as (Hc & Hlt).
  cbn [the_world] in Hc.
  assert (Hfd : freed (history w ++ [(t, EvFree c)]) = freed (history w) ++ [c]).
  { unfold freed. rewrite omap_app. reflexivity. }
  eapply heap_worker; try eassumption; try unchanged.
  - intros b Hb. cbn. apply lookup_delete_ne. intros ->. apply Hb.
    rewrite Hfd. apply elem_of_app. right. apply list_elem_of_singleton. reflexivity.
  - intros b Hb. rewrite Hfd in Hb. apply elem_of_app in Hb. destruct Hb as [Hb|Hb].
    + eapply elem_of_submseteq; [exact Hb|].
      apply (freed_enqueued cfg server pcs (State w ths) Hinv (hp_freed _ _ _ _ Hheap)).
    + apply list_elem_of_singleton in Hb. subst b. exact Hc.
  - replace (calls (history w ++ [(t, EvFree c)])) with (calls (history w))
      by (symmetry; unchanged).
    apply (hp_calls _ _ _ _ Hheap).
  - unfold freed_ok. cbn [history record mem set_mem]. rewrite Hfd. split; [|split].
    + intros t0. rewrite served_by_snoc, freed_by_snoc, (F1 t0). at_thread t0 t.
      * rewrite Hp. destruct (decide (t = t)); [|congruence]. cbn. rewrite !app_nil_r. reflexivity.
      * destruct (decide (t = t0)); [congruence|]. rewrite !app_nil_r. reflexivity.
    + rewrite dispatched_snoc. cbn. rewrite app_nil_r, F2.
      rewrite <- (omap_insert_loss freeing pcs t _ WLock c Hp eq_refl eq_refl).
      rewrite <- app_assoc. reflexivity.
    + intros c0 Hc0. apply elem_of_app in Hc0. destruct Hc0 as [Hc0|Hc0].
      * destruct (decide (c0 = c)) as [->|Hne]; [apply lookup_delete_eq|].
        rewrite lookup_delete_ne by congruence. auto.
      * apply list_elem_of_singleton in Hc0. subst c0. apply lookup_delete_eq.
Qed.

(** *** The allocation of the server, the start of a worker, a wake-up *)

Lemma calls_dispatched h : dispatched h = [] -> calls h = [].
Proof.
  unfold dispatched, calls. induction h as [|[t e] h IH]; [reflexivity|].
  cbn. destruct e; cbn; try exact IH; discriminate.
Qed.

Lemma heap_server_alloc cfg server pcs w ths :
  invariant cfg server pcs (State w ths) ->
  heap_invariant cfg server pcs w ->
  pcs !! O = Some MCalloc ->
  heap_invariant cfg (next_block w) (<[O:=MStoreHandler]> pcs)
    (record O (EvCalloc 1 stream_server_t (Some (next_block w))) (alloc w)).
Proof.
  intros Hinv Hheap Hp.
  pose proof (alone _ _ _ (inv_shape _ _ _ _ Hinv) Hp eq_refl) as Hone.
  assert (Hd : dispatched (history w) = []).
  { pose proof (inv_dispatch _ _ _ _ Hinv) as Hd. unfold dispatch_ok in Hd.
    rewrite Hone in Hd. cbn in Hd.
    destruct (dispatched (history w)) as [|tc l]; [reflexivity|].
    apply Forall_cons in Hd. destruct Hd as (Hd & _). lia. }
  assert (He : enqueued (history w) = []).
  { apply (inv_early _ _ _ _ Hinv MCalloc Hp eq_refl). }
  destruct (hp_handles _ _ _ _ Hheap _ Hp) as (H1 & H2 & _).
  specialize (H2 ltac:(discriminate)).
  rewrite He in H1. cbn in H1. apply fmap_nil_inv in H1. rewrite H1 in H2. cbn in H2.
  destruct (hp_freed _ _ _ _ Hheap) as (F1 & F2 & F3).
  assert (Hf : freed (history w) = []).
  { rewrite Hd in F2. cbn in F2. apply Permutation_nil in F2.
    apply app_eq_nil in F2. tauto. }
  destruct (hp_server _ _ _ _ Hheap _ Hp) as (S1 & S2 & _).
  specialize (S1 eq_refl). destruct (S2 eq_refl) as (Hso & Hac).
  constructor; cbn [history record alloc mem next_block].
  - rewrite Hone. cbn. repeat constructor.
  - intros m' Hm'. rewrite list_lookup_insert_eq in Hm' by eauto using lookup_lt_Some.
    injection Hm' as <-. split; [discriminate|]. split.
    + intros _. cbn [history record alloc].
      replace (sockets (history w ++ [(O, EvCalloc 1 stream_server_t (Some (next_block w)))]))
        with (sockets (history w)) by (symmetry; unchanged).
      replace (accepts_on (history w ++ [(O, EvCalloc 1 stream_server_t (Some (next_block w)))]))
        with (accepts_on (history w)) by (symmetry; unchanged).
      auto.
    + intros _. cbn [history record alloc mem next_block]. split; [|split; [lia|]].
      * unfold servers in *. rewrite omap_app, S1. reflexivity.
      * exists (fun _ => 0). split; [apply lookup_insert_eq|].
        split; [discriminate|]. split; discriminate.
  - intros m' Hm'. rewrite list_lookup_insert_eq in Hm' by eauto using lookup_lt_Some.
    injection Hm' as <-. unfold handles_ok. cbn [history record alloc mem next_block].
    replace (handles (history w ++ [(O, EvCalloc 1 stream_server_t (Some (next_block w)))]))
      with (handles (history w)) by (symmetry; unchanged).
    replace (enqueued (history w ++ [(O, EvCalloc 1 stream_server_t (Some (next_block w)))]))
      with (enqueued (history w)) by (symmetry; unchanged).
    replace (accepted (history w ++ [(O, EvCalloc 1 stream_server_t (Some (next_block w)))]))
      with (accepted (history w)) by (symmetry; unchanged).
    rewrite H1, He, H2. cbn.
    split; [reflexivity|]. split; [reflexivity|]. split; [reflexivity|].
    split; [intros c fd Hin; apply elem_of_nil in Hin; destruct Hin|].
    split; [discriminate|constructor].
  - rewrite calls_dispatched; [constructor|].
    rewrite dispatched_snoc. cbn. rewrite app_nil_r. exact Hd.
  - replace (accepts_on (history w ++ [(O, EvCalloc 1 stream_server_t (Some (next_block w)))]))
      with (accepts_on (history w)) by (symmetry; unchanged).
    rewrite Hac. constructor.
  - eapply freed_frame; [apply (hp_freed _ _ _ _ Hheap)|exact Hp|reflexivity|..]; try unchanged.
    intros c Hc. rewrite Hf in Hc. apply elem_of_nil in Hc. destruct Hc.
Qed.

Lemma heap_spawn cfg server pcs w q :
  heap_invariant cfg server pcs w -> (0 < length pcs)%nat ->
  freeing q = None -> (forall l, regs_ok cfg l q) ->
  heap_invariant cfg server (pcs ++ [q]) w.
Proof.
  intros [Hr Hs Hh Hc Ha (F1 & F2 & F3)] Hlen Hfq Hrq.
  assert (H0 : forall m, (pcs ++ [q]) !! O = Some m -> pcs !! O = Some m).
  { intros m. rewrite lookup_app_l by exact Hlen. auto. }
  constructor; auto.
  - apply Forall_app. split; [exact Hr|]. repeat constructor. apply Hrq.
  - split; [|split; [|exact F3]].
    + intros t0. rewrite (F1 t0). f_equal.
      destruct (pcs !! t0) as [p|] eqn:Hp.
      * rewrite (lookup_app_l_Some _ _ _ _ Hp). reflexivity.
      * apply lookup_ge_None in Hp. rewrite lookup_app_r by exact Hp.
        destruct (t0 - length pcs)%nat as [|[|]]; cbn; [rewrite Hfq|..]; reflexivity.
    + rewrite omap_app. cbn. rewrite Hfq, app_nil_r. exact F2.
Qed.

(** A thread moves without a call: a sleeper is woken. *)
Lemma heap_rename cfg server size pcs w w' t p p' :
  heap_invariant cfg server pcs w -> shape_ok size pcs ->
  pcs !! t = Some p -> is_main p = false ->
  freeing p' = freeing p -> (forall l, regs_ok cfg l p') ->
  history w' = history w -> mem w' = mem w -> next_block w' = next_block w ->
  heap_invariant cfg server (<[t:=p']> pcs) w'.
Proof.
  intros [Hr Hs Hh Hc Ha Hf] Hshape Hp Hw Hfr Hregs Ehist Emem Enb.
  pose proof (shape_worker_pos _ _ _ _ Hshape Hp Hw) as Ht.
  assert (H0 : forall m, <[t:=p']> pcs !! O = Some m -> pcs !! O = Some m).
  { intros m. rewrite list_lookup_insert_ne by lia. auto. }
  constructor; rewrite ?Ehist.
  - apply Forall_insert; [exact Hr|apply Hregs].
  - intros m Hm. eapply server_frame; [apply Hs, H0, Hm|..]; rewrite ?Ehist, ?Emem, ?Enb; auto.
  - intros m Hm. eapply handles_frame; [apply Hh, H0, Hm|..]; rewrite ?Ehist, ?Emem; auto.
    intros fd c ->. destruct (Hh _ (H0 _ Hm)) as (_ & _ & _ & _ & H5 & _).
    apply (H5 fd c eq_refl).
  - exact Hc.
  - exact Ha.
  - eapply freed_frame; [exact Hf|exact Hp|exact Hfr|..]; rewrite ?Ehist, ?Emem; auto.
Qed.

Lemma heap_initial cfg : heap_invariant cfg O [MCalloc] (the_world (initial cfg)).
Proof.
  constructor; unfold initial; cbn [the_world history mem next_block].
  - repeat constructor.
  - intros m [= <-]. split; [reflexivity|]. split; [auto|discriminate].
  - intros m [= <-]. unfold handles_ok. cbn.
    split; [reflexivity|]. split; [reflexivity|]. split; [reflexivity|].
    split; [intros c fd Hin; apply elem_of_nil in Hin; destruct Hin|].
    split; [discriminate|constructor].
  - constructor.
  - constructor.
  - split; [|split].
    + intros [|t]; reflexivity.
    + reflexivity.
    + intros c Hc. apply elem_of_nil in Hc. destruct Hc.
Qed.

(** ** What a thread reads in the server *)

Lemma open_fd_mem r w : mem (open_fd r w) = mem w.
Proof. unfold open_fd. destruct (r <? 0); reflexivity. Qed.

Lemma load_socket cfg server pcs st t x :
  invariant cfg server pcs st -> heap_invariant cfg server pcs (the_world st) ->
  pcs !! t = Some ALoad ->
  (forall blk, mem (the_world st) !! server = Some blk -> x = blk socket_fd) ->
  sockets (history (the_world st)) = [x].
Proof.
  intros Hinv Hheap Hp Hx.
  pose proof (shape_main_zero _ _ _ _ (inv_shape _ _ _ _ Hinv) Hp eq_refl) as ->.
  destruct (hp_server _ _ _ _ Hheap _ Hp) as (_ & _ & H3).
  destruct (H3 eq_refl) as (_ & _ & blk & Hblk & _ & _ & Hs).
  rewrite (Hx blk Hblk). apply Hs. reflexivity.
Qed.

Lemma load_handler cfg server pcs st t p x :
  invariant cfg server pcs st -> heap_invariant cfg server pcs (the_world st) ->
  pcs !! t = Some p -> is_main p = false ->
  (forall blk, mem (the_world st) !! server = Some blk -> x = blk connection_handler) ->
  x = cfg_handler cfg.
Proof.
  intros Hinv Hheap Hp Hw Hx.
  destruct (worker_flags _ _ _ _ (inv_shape _ _ _ _ Hinv) Hp Hw) as (m & H0 & Hpl & Hh & _).
  destruct (hp_server _ _ _ _ Hheap _ H0) as (_ & _ & H3).
  destruct (H3 Hpl) as (_ & _ & blk & Hblk & Hbh & _).
  rewrite (Hx blk Hblk). auto.
Qed.

Lemma load_context cfg server pcs st t p x :
  invariant cfg server pcs st -> heap_invariant cfg server pcs (the_world st) ->
  pcs !! t = Some p -> is_main p = false ->
  (forall blk, mem (the_world st) !! server = Some blk -> x = blk connection_handler_context) ->
  x = cfg_handler_context cfg.
Proof.
  intros Hinv Hheap Hp Hw Hx.
  destruct (worker_flags _ _ _ _ (inv_shape _ _ _ _ Hinv) Hp Hw) as (m & H0 & Hpl & _ & Hc).
  destruct (hp_server _ _ _ _ Hheap _ H0) as (_ & _ & H3).
  destruct (H3 Hpl) as (_ & _ & blk & Hblk & _ & Hbc & _).
  rewrite (Hx blk Hblk). auto.
Qed.

(** ** A step of the process keeps the heap in order *)

Ltac hside :=
  first [ reflexivity | discriminate | exact I | assumption
        | left; reflexivity | right; reflexivity
        | world_eq; first [reflexivity | lia]
        | intros; world_eq; rewrite ?open_fd_mem; cbn;
          first [ reflexivity | discriminate | apply lookup_insert_ne; lia ] ].

(** The invariant after a quiet move of [t] to [p']. *)
Ltac still_quietly Hinv Hp p' :=
  eapply proj1; eapply (quiet_move _ _ _ _ _ _ _ p');
  [ exact Hinv | exact Hp | code_eq | reflexivity
  | side' | side' | side' | side' | side' | side' | side' | reflexivity
  | side' | side' | side' | side' | side' | side' | side' | side'
  | first [ left; side' | right; left; side' | right; right; split; side' ]
  | first [ left; side' | right; split; side' ]
  | side' ].

(** The invariant after a move of [t] to [p'] that is not quiet. *)
Ltac still_moving Hinv :=
  destruct Hinv as [Hcode Hshape Hmutex Hwaiting Hsleep Hearly Hfifo Hflight Hfresh
                      Hprogress Hdispatch Hcreated Hown];
  cbn [the_world threads] in *;
  constructor; cbn [the_world threads];
  [ f_code | f_shape | f_mutex | f_waiting | f_sleep | f_early | f_fifo | f_flight
  | f_fresh | f_progress | f_dispatch | f_created | f_own ].

Ltac there Hinv Hp p' :=
  match type of Hinv with
  | invariant _ ?server ?pcs _ =>
      match type of Hp with
      | _ !! ?t = _ => exists server, (<[t:=p']> pcs)
      end
  end.

(** Both invariants after a quiet move that leaves the heap alone. *)
Ltac quietly2 Hinv Hheap Hp p' :=
  there Hinv Hp p';
  split;
  [ still_quietly Hinv Hp p'
  | eapply heap_quiet; [exact Hinv|exact Hheap|exact Hp|hside..] ].

Ltac moving2 Hinv Hheap Hp p' :=
  there Hinv Hp p';
  let Hinv0 := fresh "Hinv0" in
  pose proof Hinv as Hinv0;
  split;
  [ still_moving Hinv
  | eapply heap_quiet; [exact Hinv0|exact Hheap|exact Hp|hside..] ].

Lemma heap_step cfg server pcs st st' :
  invariant cfg server pcs st -> heap_invariant cfg server pcs (the_world st) ->
  step st st' ->
  exists server' pcs',
    invariant cfg server' pcs' st' /\ heap_invariant cfg server' pcs' (the_world st').
Proof.
  intros Hinv Hheap Hstep.
  destruct Hstep as [t th th' w' new Hrun Hth Hs|t n Hrun Hsp Hw].
  - destruct (thread_at _ _ _ _ _ _ Hinv Hth) as (p & Hp & ->).
    destruct st as [w ths]. cbn [the_world threads] in *.
    destruct p.
    + (* MCalloc *) next_op Hs. destruct Hs as [(-> & ->)|(-> & ->)].
      * quietly2 Hinv Hheap Hp MFinished.
      * assert (Ht : t = O).
        { eapply shape_main_zero; [apply (inv_shape _ _ _ _ Hinv)|exact Hp|reflexivity]. }
        subst t.
        assert (Hone : pcs = [MCalloc]).
        { eapply alone; [apply (inv_shape _ _ _ _ Hinv)|exact Hp|reflexivity]. }
        exists (next_block w), (<[O:=MStoreHandler]> pcs). split.
        -- eapply invariant_recode.
           ++ still_quietly Hinv Hp MStoreHandler.
           ++ pose proof (inv_code _ _ _ _ Hinv) as Hcode. cbn [threads] in Hcode.
              rewrite Hcode, Hone. reflexivity.
        -- eapply heap_server_alloc; eassumption.
    + (* MStoreHandler *) next_op Hs. subst w1.
      there Hinv Hp MStoreContext. split; [still_quietly Hinv Hp MStoreContext|].
      eapply heap_store_server; try eassumption; try hside.
      * intros _. left. auto.
    + (* MStoreContext *) next_op Hs. subst w1.
      there Hinv Hp MQueueCreate. split; [still_quietly Hinv Hp MQueueCreate|].
      eapply heap_store_server; try eassumption; try hside.
      * intros _. right. split; [discriminate|reflexivity].
      * intros _. left. auto.
    + (* MQueueCreate *) next_op Hs. subst w1.
      assert (Ht : t = O).
      { eapply shape_main_zero; [apply (inv_shape _ _ _ _ Hinv)|exact Hp|reflexivity]. }
      subst t.
      assert (Hq : queue w = []).
      { eapply early_queue;
          [apply (inv_early _ _ _ _ Hinv)|apply (inv_fifo _ _ _ _ Hinv)|exact Hp|reflexivity]. }
      replace (set_queue [] w) with w by (destruct w; cbn in Hq; subst; reflexivity).
      quietly2 Hinv Hheap Hp MMutexInit.
    + (* MMutexInit *) next_op Hs. subst w1.
      assert (Ht : t = O).
      { eapply shape_main_zero; [apply (inv_shape _ _ _ _ Hinv)|exact Hp|reflexivity]. }
      subst t.
      assert (Hm : mutex w = None).
      { eapply alone_mutex;
          [apply (inv_shape _ _ _ _ Hinv)|apply (inv_mutex _ _ _ _ Hinv)|exact Hp
          |reflexivity|reflexivity]. }
      replace (set_mutex None w) with w by (destruct w; cbn in Hm; subst; reflexivity).
      quietly2 Hinv Hheap Hp MCondInit.
    + (* MCondInit *) next_op Hs. subst w1.
      assert (Ht : t = O).
      { eapply shape_main_zero; [apply (inv_shape _ _ _ _ Hinv)|exact Hp|reflexivity]. }
      subst t.
      assert (Hm : waiting w = ∅).
      { eapply alone_waiting;
          [apply (inv_shape _ _ _ _ Hinv)|apply (inv_waiting _ _ _ _ Hinv)|exact Hp
          |reflexivity|discriminate]. }
      replace (set_waiting ∅ w) with w by (destruct w; cbn in Hm; subst; reflexivity).
      quietly2 Hinv Hheap Hp MCallocPool.
    + (* MCallocPool *) next_op Hs.
      destruct (cfg_thread_pool_size cfg) as [|k] eqn:E;
        destruct Hs as [(-> & ->)|(-> & ->)].
      * quietly2 Hinv Hheap Hp MSocket.
      * quietly2 Hinv Hheap Hp MSocket.
      * quietly2 Hinv Hheap Hp MCrash.
      * quietly2 Hinv Hheap Hp (MCreate (next_block w) O k).
    + (* MCreate *) next_op Hs. subst w1.
      assert (Ht : t = O).
      { eapply shape_main_zero; [apply (inv_shape _ _ _ _ Hinv)|exact Hp|reflexivity]. }
      subst t.
      assert (Hlt : (0 < length pcs)%nat) by (apply lookup_lt_Some in Hp; exact Hp).
      assert (Hheap' : heap_invariant cfg server (<[O:=after_create pool i k]> pcs)
                         (record O (EvPthreadCreate pool i server) w)).
      { eapply heap_quiet; [exact Hinv|exact Hheap|exact Hp|destruct k; hside..]. }
      match goal with H : starts _ _ |- _ => destruct H as [->| ->] end.
      * exists server, (<[O:=after_create pool i k]> pcs ++ [WLock]). split.
        -- destruct k; exact (proj1 (create_starts _ _ _ _ _ _ _ _ Hinv Hp)).
        -- apply heap_spawn;
             [exact Hheap'|rewrite length_insert; lia|reflexivity|intros; exact I].
      * exists server, (<[O:=after_create pool i k]> pcs). split.
        -- destruct k; exact (proj1 (create_fails _ _ _ _ _ _ _ _ Hinv Hp)).
        -- exact Hheap'.
    + (* MSocket *) next_op Hs. subst w1.
      there Hinv Hp (MStoreFd x). split; [still_quietly Hinv Hp (MStoreFd x)|].
      eapply heap_socket; try eassumption; hside.
    + (* MStoreFd *) next_op Hs. subst w1.
      pose proof (regs_at _ _ _ _ _ (hp_regs _ _ _ _ Hheap) Hp) as Hfd. cbn in Hfd.
      destruct (fd <? 0) eqn:E.
      * there Hinv Hp (MLog "Could not create a new socket").
        split; [still_quietly Hinv Hp (MLog "Could not create a new socket")|].
        eapply heap_store_server; try eassumption; try hside.
        -- intros _. right. split; [discriminate|reflexivity].
        -- intros _. right. split; [discriminate|reflexivity].
        -- intros _. left. auto.
      * there Hinv Hp (MSetsockopt fd). split; [still_quietly Hinv Hp (MSetsockopt fd)|].
        eapply heap_store_server; try eassumption; try hside.
        -- intros _. right. split; [discriminate|reflexivity].
        -- intros _. right. split; [discriminate|reflexivity].
        -- intros _. left. auto.
    + (* MSetsockopt *) next_op Hs. subst w1. destruct (x <? 0) eqn:E.
      * quietly2 Hinv Hheap Hp (MLog "Could not set socket options").
      * quietly2 Hinv Hheap Hp (MBind fd).
    + (* MBind *) next_op Hs. subst w1. destruct (x <? 0) eqn:E.
      * quietly2 Hinv Hheap Hp (MLog "Could not bind to port").
      * quietly2 Hinv Hheap Hp (MListen fd).
    + (* MListen *) next_op Hs. subst w1. destruct (x <? 0) eqn:E.
      * quietly2 Hinv Hheap Hp (MLog "Could not listen").
      * quietly2 Hinv Hheap Hp ALoad.
    + (* MLog *) next_op Hs. subst w1. quietly2 Hinv Hheap Hp MExit.
    + (* MExit *) cbn in Hs. destruct Hs as (? & [] & _).
    + (* MCrash *) cbn in Hs. destruct Hs as (? & [] & _).
    + (* MFinished *) destruct Hs.
    + (* ALoad *) next_op Hs. destruct Hs as (-> & Hx).
      pose proof (load_socket cfg server pcs (State w ths) t x Hinv Hheap Hp Hx) as Hso.
      cbn [the_world] in Hso.
      quietly2 Hinv Hheap Hp (AAccept x).
    + (* AAccept *) next_op Hs. destruct Hs as (rest & Hin & ->).
      destruct (x <? 0) eqn:E.
      * there Hinv Hp ALog. split; [still_quietly Hinv Hp ALog|].
        pose proof (heap_accept cfg server pcs w ths t listen_fd x
                      (open_fd x (set_incoming rest w)) Hinv Hheap Hp) as H.
        rewrite E in H. apply H; hside.
      * there Hinv Hp (ACalloc x). split; [still_quietly Hinv Hp (ACalloc x)|].
        pose proof (heap_accept cfg server pcs w ths t listen_fd x
                      (open_fd x (set_incoming rest w)) Hinv Hheap Hp) as H.
        rewrite E in H. apply H; hside.
    + (* ACalloc *) next_op Hs. destruct Hs as [(-> & ->)|(-> & ->)].
      * quietly2 Hinv Hheap Hp ACrash.
      * there Hinv Hp (AStore fd (next_block w)).
        split; [still_quietly Hinv Hp (AStore fd (next_block w))|].
        eapply heap_quiet; [exact Hinv|exact Hheap|exact Hp|try hside..].
        intros fd0 c0 [= <- <-]. cbn. rewrite lookup_insert_eq. split; [eauto|].
        pose proof (shape_main_zero _ _ _ _ (inv_shape _ _ _ _ Hinv) Hp eq_refl) as ->.
        destruct (hp_server _ _ _ _ Hheap _ Hp) as (_ & _ & H3).
        destruct (H3 eq_refl) as (_ & Hlt & _). exact Hlt.
    + (* AStore *) next_op Hs. subst w1.
      there Hinv Hp (ALock c). split; [still_quietly Hinv Hp (ALock c)|].
      eapply heap_store_id; eassumption.
    + (* ALock *) next_op Hs. destruct Hs as (Hfree & ->).
      moving2 Hinv Hheap Hp (AEnqueue c).
    + (* AEnqueue *) next_op Hs. destruct Hs as (Hheld & ->).
      there Hinv Hp ASignal. pose proof Hinv as Hinv0.
      split; [still_moving Hinv|].
      eapply heap_enqueue; try eassumption; hside.
    + (* ASignal *) next_op Hs. destruct Hs as [(Hempty & ->)|(t' & Hin & ->)].
      * moving2 Hinv Hheap Hp AUnlock.
      * destruct (wake_up cfg server pcs w ths t' Hinv Hin) as (Hinv' & _ & Hp').
        assert (Hp1 : <[t':=WWoken]> pcs !! t = Some ASignal).
        { rewrite list_lookup_insert_ne by congruence. exact Hp. }
        assert (Hne : t <> t') by (intros ->; congruence).
        assert (Hwoken : <[t':=WWoken]> pcs !! t' = Some WWoken).
        { apply list_lookup_insert_eq. eapply lookup_lt_Some. exact Hp'. }
        assert (Hheap' : heap_invariant cfg server (<[t':=WWoken]> pcs)
                           (set_waiting (waiting w ∖ {[t']}) w)).
        { eapply heap_rename;
            [exact Hheap|apply (inv_shape _ _ _ _ Hinv)|exact Hp'|reflexivity|reflexivity
            |intros; exact I|reflexivity..]. }
        clear Hinv Hheap. revert Hinv' Hheap' Hp1 Hwoken.
        generalize (<[t':=WWoken]> pcs).
        generalize (set_waiting (waiting w ∖ {[t']}) w).
        intros w2 pcs2 Hinv2 Hheap2 Hp2 Hwoken.
        clear Hp Hth.
        exists server, (<[t:=AUnlock]> pcs2). pose proof Hinv2 as Hinv0. split.
        -- destruct Hinv2 as [Hcode Hshape Hmutex Hwaiting Hsleep Hearly Hfifo Hflight Hfresh
                                Hprogress Hdispatch Hcreated Hown];
             cbn [the_world threads] in *;
             constructor; cbn [the_world threads];
             [ f_code | f_shape | f_mutex | f_waiting | f_sleep | f_early | f_fifo | f_flight
             | f_fresh | | f_dispatch | f_created | f_own ].
           eapply progress_other with (t0 := t') (q := WWoken); [|reflexivity].
           rewrite list_lookup_insert_ne by congruence. exact Hwoken.
        -- eapply heap_quiet; [exact Hinv0|exact Hheap2|exact Hp2|hside..].
    + (* AUnlock *) next_op Hs. destruct Hs as (Hheld & ->).
      moving2 Hinv Hheap Hp ALoad.
    + (* ALog *) next_op Hs. subst w1. quietly2 Hinv Hheap Hp AExit.
    + (* AExit *) cbn in Hs. destruct Hs as (? & [] & _).
    + (* ACrash *) cbn in Hs. destruct Hs as (? & [] & _).
    + (* WLock *) next_op Hs. destruct Hs as (Hfree & ->).
      moving2 Hinv Hheap Hp WDeq1.
    + (* WDeq1 *) next_op Hs. destruct Hs as (Hheld & Hs).
      destruct (queue w) as [|c q] eqn:Hq; destruct Hs as (-> & ->).
      * moving2 Hinv Hheap Hp WSleep.
      * moving2 Hinv Hheap Hp (WUnlock (Some c)).
    + (* WSleep *) next_op Hs. destruct Hs as (Hheld & ->).
      assert (Hq : queue w = []) by (eapply (inv_sleep _ _ _ _ Hinv); exact Hp).
      moving2 Hinv Hheap Hp WBlocked.
    + (* WBlocked *) next_op Hs. destruct Hs as (Hout & _). exfalso. apply Hout.
      apply (inv_waiting _ _ _ _ Hinv). exact Hp.
    + (* WWoken *) next_op Hs. destruct Hs as (Hout & Hfree & ->).
      moving2 Hinv Hheap Hp WDeq2.
    + (* WDeq2 *) next_op Hs. destruct Hs as (Hheld & Hs).
      destruct (queue w) as [|c q] eqn:Hq; destruct Hs as (-> & ->).
      * moving2 Hinv Hheap Hp (WUnlock None).
      * moving2 Hinv Hheap Hp (WUnlock (Some c)).
    + (* WUnlock *) next_op Hs. destruct Hs as (Hheld & ->). destruct c as [c|].
      * moving2 Hinv Hheap Hp (WLoadHandler c).
      * moving2 Hinv Hheap Hp WLock.
    + (* WLoadHandler *) next_op Hs. destruct Hs as (-> & Hx).
      pose proof (load_handler cfg server pcs (State w ths) t _ x Hinv Hheap Hp eq_refl Hx) as Hh.
      quietly2 Hinv Hheap Hp (WLoadContext c x).
    + (* WLoadContext *) next_op Hs. destruct Hs as (-> & Hx).
      pose proof (load_context cfg server pcs (State w ths) t _ x Hinv Hheap Hp eq_refl Hx) as Hc.
      pose proof (regs_at _ _ _ _ _ (hp_regs _ _ _ _ Hheap) Hp) as Hh. cbn in Hh.
      there Hinv Hp (WCall c handler x). split; [still_quietly Hinv Hp (WCall c handler x)|].
      eapply heap_quiet; [exact Hinv|exact Hheap|exact Hp|try hside..].
    + (* WCall *) next_op Hs. destruct Hs as [->|(blk & _ & ->)].
      * there Hinv Hp (WFree c). pose proof Hinv as Hinv0.
        split; [still_moving Hinv|].
        eapply heap_call; try eassumption; hside.
      * there Hinv Hp (WFree c). pose proof Hinv as Hinv0.
        split; [still_moving Hinv|].
        eapply heap_call; try eassumption; hside.
    + (* WFree *) next_op Hs. subst w1.
      there Hinv Hp WLock. split; [still_quietly Hinv Hp WLock|].
      eapply heap_free; eassumption.
  - destruct st as [w ths]. cbn [the_world threads] in *.
    destruct (wake_up cfg server pcs w ths t Hinv Hw) as (Hinv' & _ & Hp').
    exists server, (<[t:=WWoken]> pcs). split.
    + apply invariant_spurious. exact Hinv'.
    + eapply heap_rename;
        [exact Hheap|apply (inv_shape _ _ _ _ Hinv)|exact Hp'|reflexivity|reflexivity
        |intros; exact I|reflexivity..].
Qed.

(** ** Every state of the process, with its heap *)

Lemma heap_steps cfg n st :
  steps n (initial cfg) st ->
  exists server pcs,
    invariant cfg server pcs st /\ heap_invariant cfg server pcs (the_world st).
Proof.
  remember (initial cfg) as st0 eqn:E. intros H. induction H as [st|n st1 st2 st3 H IH Hstep].
  - subst st. exists O, [MCalloc]. split; [apply invariant_initial|apply heap_initial].
  - destruct (IH E) as (server & pcs & Hinv & Hheap).
    eapply heap_step; eassumption.
Qed.

Lemma calling_code cfg server p c :
  calling (code_at cfg server p) = Some c -> exists handler context, p = WCall c handler context.
Proof. destruct p; try discriminate. intros [= ->]. eauto. Qed.

Lemma releasing_code cfg server p c :
  releasing (code_at cfg server p) = Some c -> p = WFree c.
Proof. destruct p; try discriminate. intros [= ->]. reflexivity. Qed.

(** The [k]-th handle enqueued. *)
Lemma enqueued_handle cfg server pcs st k c :
  invariant cfg server pcs st -> heap_invariant cfg server pcs (the_world st) ->
  enqueued (history (the_world st)) !! k = Some c ->
  exists fd,
    handles (history (the_world st)) !! k = Some (c, fd) /\
    accepted (history (the_world st)) !! k = Some fd /\
    (c ∉ freed (history (the_world st)) ->
     exists blk, mem (the_world st) !! c = Some blk /\ blk id = fd).
Proof.
  intros Hinv Hheap Hk. destruct (inv_shape _ _ _ _ Hinv) as (m & H0 & _).
  destruct (hp_handles _ _ _ _ Hheap m H0) as (H1 & _ & H3 & H4 & _).
  assert (Hc : (handles (history (the_world st))).*1 !! k = Some c).
  { rewrite H1. apply lookup_app_l_Some. exact Hk. }
  rewrite list_lookup_fmap in Hc.
  destruct (handles (history (the_world st)) !! k) as [[c' fd]|] eqn:Hh; [|discriminate].
  injection Hc as ->. exists fd. split; [reflexivity|]. split.
  - eapply prefix_lookup_Some; [|exact H3]. rewrite list_lookup_fmap, Hh. reflexivity.
  - intros Hnf. apply H4; [|exact Hnf]. eapply list_elem_of_lookup_2. exact Hh.
Qed.

(** What a worker holds was enqueued and has not been freed. *)
Lemma held_handle cfg server pcs st c :
  invariant cfg server pcs st -> heap_invariant cfg server pcs (the_world st) ->
  c ∈ omap holding pcs ->
  c ∈ enqueued (history (the_world st)) /\ c ∉ freed (history (the_world st)).
Proof.
  intros Hinv Hheap Hc.
  pose proof (inv_fifo _ _ _ _ Hinv) as Hfifo. unfold fifo_ok in Hfifo.
  pose proof (inv_flight _ _ _ _ Hinv) as Hflight. unfold flight_ok in Hflight.
  destruct (hp_freed _ _ _ _ Hheap) as (_ & Hperm & _).
  split.
  - rewrite <- Hfifo. apply elem_of_app. left. rewrite Hflight. apply elem_of_app. auto.
  - intros Hf. pose proof (dispatched_nodup _ _ _ _ Hinv) as Hnd.
    apply NoDup_app in Hnd. destruct Hnd as (_ & Hdis & _). apply (Hdis c); [|exact Hc].
    rewrite Hperm. apply elem_of_app. auto.
Qed.

(** What a worker is about to free was given to the handler and has not
    been freed. *)
Lemma freeing_handle cfg server pcs st t c :
  invariant cfg server pcs st -> heap_invariant cfg server pcs (the_world st) ->
  pcs !! t = Some (WFree c) ->
  c ∈ (dispatched (history (the_world st))).*2 /\ c ∉ freed (history (the_world st)).
Proof.
  intros Hinv Hheap Hp.
  destruct (hp_freed _ _ _ _ Hheap) as (_ & Hperm & _).
  pose proof (freeing_elem pcs t c Hp) as Hc.
  split; [rewrite Hperm; apply elem_of_app; auto|].
  pose proof (dispatched_nodup _ _ _ _ Hinv) as Hnd.
  apply NoDup_app in Hnd. destruct Hnd as (Hnd & _).
  rewrite Hperm in Hnd. apply NoDup_app in Hnd. destruct Hnd as (_ & Hdis & _).
  intros Hf. apply (Hdis c Hf Hc).
Qed.

Lemma enqueued_at {A} (l : list A) (x : A) : x ∈ l -> exists k, l !! k = Some x.
Proof. apply list_elem_of_lookup_1. Qed.

(** * The handler and the handles *)

(** X7.  Every call of a handler is a call of the handler given to
    [stream_server_create], with the server that [stream_server_create]
    has allocated and with the context given to it. *)
Theorem handler_called_as_registered cfg n st :
  steps n (initial cfg) st ->
  forall handler server context,
    (handler, server, context) ∈ calls (history (the_world st)) ->
    handler = cfg_handler cfg /\ context = cfg_handler_context cfg /\
    servers (history (the_world st)) = [server].
Proof.
  intros Hsteps handler server context Hin.
  destruct (heap_steps cfg n st Hsteps) as (s & pcs & Hinv & Hheap).
  pose proof (hp_calls _ _ _ _ Hheap) as Hc. rewrite Forall_forall in Hc.
  specialize (Hc _ Hin). injection Hc as -> -> ->.
  split; [reflexivity|]. split; [reflexivity|].
  destruct (dispatched (history (the_world st))) as [|[t c] l] eqn:Hd.
  { rewrite (calls_dispatched _ Hd) in Hin. apply elem_of_nil in Hin. destruct Hin. }
  pose proof (inv_dispatch _ _ _ _ Hinv) as Hdis. unfold dispatch_ok in Hdis.
  rewrite Hd in Hdis. apply Forall_cons in Hdis. destruct Hdis as (Ht & _). cbn in Ht.
  destruct (lookup_lt_is_Some_2 pcs t ltac:(lia)) as (p & Hp).
  destruct (inv_shape _ _ _ _ Hinv) as (m & H0 & _ & _ & _ & Hw).
  destruct t as [|t]; [lia|].
  destruct (worker_flags _ _ _ _ (inv_shape _ _ _ _ Hinv) Hp (Hw t p Hp))
    as (m' & H0' & Hpl & _).
  destruct (hp_server _ _ _ _ Hheap _ H0') as (_ & _ & H3).
  destruct (H3 Hpl) as (Hsv & _). exact Hsv.
Qed.

(** X7 on the run [to_rest]. *)
Lemma handler_called_as_registered_witness :
  steps (length to_rest) (initial one_worker) (after to_rest (initial one_worker)) /\
  (100, O, 200) ∈ calls (history (the_world (after to_rest (initial one_worker)))) /\
  100 = cfg_handler one_worker /\ 200 = cfg_handler_context one_worker /\
  servers (history (the_world (after to_rest (initial one_worker)))) = [O].
Proof.
  assert (Hrun : steps (length to_rest) (initial one_worker)
                   (after to_rest (initial one_worker))).
  { apply after_reachable. vm_compute. reflexivity. }
  assert (Hin : (100, O, 200) ∈ calls (history (the_world (after to_rest (initial one_worker))))).
  { replace (calls (history (the_world (after to_rest (initial one_worker)))))
      with [(100, O, 200)] by (vm_compute; reflexivity).
    apply list_elem_of_here. }
  split; [exact Hrun|]. split; [exact Hin|].
  exact (handler_called_as_registered one_worker _ _ Hrun 100 O 200 Hin).
Defined.

(** X8.  When a worker is about to call the handler on a connection, the
    handle is allocated and its [id] is the descriptor that [accept]
    returned for it: the handle is the [k]-th one enqueued and the
    descriptor the [k]-th one accepted, for some [k]. *)
Theorem handler_gets_accepted_descriptor cfg n st :
  steps n (initial cfg) st ->
  forall t th c,
    threads st !! t = Some th -> calling th = Some c ->
    exists blk k,
      mem (the_world st) !! c = Some blk /\
      enqueued (history (the_world st)) !! k = Some c /\
      accepted (history (the_world st)) !! k = Some (blk id).
Proof.
  intros Hsteps t th c Hth Hcall.
  destruct (heap_steps cfg n st Hsteps) as (s & pcs & Hinv & Hheap).
  destruct (thread_at _ _ _ _ _ _ Hinv Hth) as (p & Hp & ->).
  apply calling_code in Hcall. destruct Hcall as (handler & context & ->).
  assert (Hc : c ∈ omap holding pcs).
  { apply list_elem_of_omap. exists (WCall c handler context). split; [|reflexivity].
    eapply list_elem_of_lookup_2. exact Hp. }
  destruct (held_handle _ _ _ _ c Hinv Hheap Hc) as (Henq & Hnf).
  destruct (enqueued_at _ _ Henq) as (k & Hk).
  destruct (enqueued_handle _ _ _ _ k c Hinv Hheap Hk) as (fd & _ & Hacc & Hlive).
  destruct (Hlive Hnf) as (blk & Hblk & <-). exists blk, k. auto.
Qed.

(** X8 on the run [to_rest], stopped when the worker is about to call the
    handler. *)
Lemma handler_gets_accepted_descriptor_witness :
  steps (length (take 29 to_rest)) (initial one_worker)
        (after (take 29 to_rest) (initial one_worker)) /\
  exists th blk k,
    threads (after (take 29 to_rest) (initial one_worker)) !! 1%nat = Some th /\
    calling th = Some 2%nat /\
    mem (the_world (after (take 29 to_rest) (initial one_worker))) !! 2%nat = Some blk /\
    enqueued (history (the_world (after (take 29 to_rest) (initial one_worker)))) !! k
    = Some 2%nat /\
    accepted (history (the_world (after (take 29 to_rest) (initial one_worker)))) !! k
    = Some (blk id).
Proof.
  assert (Hrun : steps (length (take 29 to_rest)) (initial one_worker)
                   (after (take 29 to_rest) (initial one_worker))).
  { apply after_reachable. vm_compute. reflexivity. }
  split; [exact Hrun|].
  destruct (threads (after (take 29 to_rest) (initial one_worker)) !! 1%nat) as [th|] eqn:Hth;
    [|vm_compute in Hth; discriminate Hth].
  assert (Hc : calling th = Some 2%nat).
  { vm_compute in Hth. injection Hth as <-. reflexivity. }
  destruct (handler_gets_accepted_descriptor one_worker _ _ Hrun 1%nat th 2%nat Hth Hc)
    as (blk & k & H).
  exists th, blk, k. auto.
Defined.

(** X9.  [socket] is called at most once, and every [accept] is made on
    the descriptor that it returned ([server->socket_fd] is written once,
    line 100, and read back at line 150). *)
Theorem accept_on_listening_socket cfg n st :
  steps n (initial cfg) st ->
  (length (sockets (history (the_world st))) <= 1)%nat /\
  forall listen_fd,
    listen_fd ∈ accepts_on (history (the_world st)) ->
    sockets (history (the_world st)) = [listen_fd].
Proof.
  intros Hsteps.
  destruct (heap_steps cfg n st Hsteps) as (s & pcs & Hinv & Hheap).
  split.
  - destruct (inv_shape _ _ _ _ Hinv) as (m & H0 & Hm & _).
    destruct (hp_server _ _ _ _ Hheap _ H0) as (_ & H2 & H3).
    pose proof (regs_at _ _ _ _ _ (hp_regs _ _ _ _ Hheap) H0) as Hr.
    destruct (socket_called m) eqn:Hc.
    + destruct (socket_stored m) eqn:Hs.
      * assert (Hpl : placed m = true) by (destruct m; try discriminate; reflexivity).
        destruct (H3 Hpl) as (_ & _ & blk & _ & _ & _ & Hso). rewrite (Hso eq_refl). cbn. lia.
      * destruct m; try discriminate. cbn in Hr. rewrite Hr. cbn. lia.
    + destruct (H2 eq_refl) as (-> & _). cbn. lia.
  - intros listen_fd Hin. pose proof (hp_accepts _ _ _ _ Hheap) as Ha.
    rewrite Forall_forall in Ha. auto.
Qed.

(** X9 on the run [to_rest]. *)
Lemma accept_on_listening_socket_witness :
  steps (length to_rest) (initial one_worker) (after to_rest (initial one_worker)) /\
  accepts_on (history (the_world (after to_rest (initial one_worker)))) = [3] /\
  (length (sockets (history (the_world (after to_rest (initial one_worker))))) <= 1)%nat /\
  forall listen_fd,
    listen_fd ∈ accepts_on (history (the_world (after to_rest (initial one_worker)))) ->
    sockets (history (the_world (after to_rest (initial one_worker)))) = [listen_fd].
Proof.
  assert (Hrun : steps (length to_rest) (initial one_worker)
                   (after to_rest (initial one_worker))).
  { apply after_reachable. vm_compute. reflexivity. }
  split; [exact Hrun|]. split; [vm_compute; reflexivity|].
  exact (accept_on_listening_socket one_worker _ _ Hrun).
Defined.

(** X10.  The [k]-th handle that is enqueued holds the descriptor of the
    [k]-th connection accepted: connections are enqueued in the order in
    which they were accepted, and [connection->id] is not written again.
    The handle stays allocated until it is freed. *)
Theorem handles_follow_accepts cfg n st :
  steps n (initial cfg) st ->
  forall k c,
    enqueued (history (the_world st)) !! k = Some c ->
    exists fd,
      handles (history (the_world st)) !! k = Some (c, fd) /\
      accepted (history (the_world st)) !! k = Some fd /\
      (c ∉ freed (history (the_world st)) ->
       exists blk, mem (the_world st) !! c = Some blk /\ blk id = fd).
Proof.
  intros Hsteps k c Hk.
  destruct (heap_steps cfg n st Hsteps) as (s & pcs & Hinv & Hheap).
  eapply enqueued_handle; eassumption.
Qed.

(** X10 on the run [overtaking]: two connections, descriptors 10 and
    11, handles 2 and 3. *)
Lemma handles_follow_accepts_witness :
  steps (length overtaking) (initial two_workers) (after overtaking (initial two_workers)) /\
  enqueued (history (the_world (after overtaking (initial two_workers)))) !! 1%nat
  = Some 3%nat /\
  exists fd,
    handles (history (the_world (after overtaking (initial two_workers)))) !! 1%nat
    = Some (3%nat, fd) /\
    accepted (history (the_world (after overtaking (initial two_workers)))) !! 1%nat
    = Some fd /\
    (3%nat ∉ freed (history (the_world (after overtaking (initial two_workers)))) ->
     exists blk,
       mem (the_world (after overtaking (initial two_workers))) !! 3%nat = Some blk /\
       blk id = fd).
Proof.
  assert (Hrun : steps (length overtaking) (initial two_workers)
                   (after overtaking (initial two_workers))).
  { apply after_reachable. vm_compute. reflexivity. }
  assert (Hk : enqueued (history (the_world (after overtaking (initial two_workers))))
               !! 1%nat = Some 3%nat) by (vm_compute; reflexivity).
  split; [exact Hrun|]. split; [exact Hk|].
  exact (handles_follow_accepts two_workers _ _ Hrun 1%nat 3%nat Hk).
Defined.

(** * The release of the handles *)

(** X11.  A handle is freed at most once, and only after the handler has
    been called on it: a worker frees the handles it has given to the
    handler, in that order, each one before it takes another.  What is
    freed is no longer allocated, and a block that a worker is about to
    free is an allocated handle that has not been freed: there is no
    double free, and the server is never freed. *)
Theorem handles_freed_once cfg n st :
  steps n (initial cfg) st ->
  NoDup (freed (history (the_world st))) /\
  freed (history (the_world st)) ⊆+ (dispatched (history (the_world st))).*2 /\
  (forall t,
      freed_by t (history (the_world st)) `prefix_of` served_by t (history (the_world st)) /\
      (length (served_by t (history (the_world st)))
       <= S (length (freed_by t (history (the_world st)))))%nat) /\
  (forall c, c ∈ freed (history (the_world st)) -> mem (the_world st) !! c = None) /\
  (forall t th c,
      threads st !! t = Some th -> releasing th = Some c ->
      is_Some (mem (the_world st) !! c) /\
      c ∈ (dispatched (history (the_world st))).*2 /\
      (c ∉ freed (history (the_world st))) /\
      (c ∉ servers (history (the_world st)))).
Proof.
  intros Hsteps.
  destruct (heap_steps cfg n st Hsteps) as (s & pcs & Hinv & Hheap).
  destruct (hp_freed _ _ _ _ Hheap) as (F1 & F2 & F3).
  pose proof (dispatched_nodup _ _ _ _ Hinv) as Hnd.
  apply NoDup_app in Hnd. destruct Hnd as (Hnd & _).
  split; [|split; [|split; [|split]]].
  - rewrite F2 in Hnd. apply NoDup_app in Hnd. tauto.
  - rewrite F2. apply submseteq_inserts_r. reflexivity.
  - intros t. rewrite (F1 t). split; [apply prefix_app_r; reflexivity|].
    rewrite length_app. destruct (pcs !! t) as [p|]; [|cbn; lia].
    destruct (freeing p); cbn; lia.
  - exact F3.
  - intros t th c Hth Hrel.
    destruct (thread_at _ _ _ _ _ _ Hinv Hth) as (p & Hp & ->).
    apply releasing_code in Hrel. subst p.
    destruct (freeing_handle _ _ _ _ t c Hinv Hheap Hp) as (Hd & Hnf).
    destruct (freeing_enqueued _ _ _ _ t c Hinv Hheap Hp) as (Henq & Hlt).
    destruct (enqueued_at _ _ Henq) as (k & Hk).
    destruct (enqueued_handle _ _ _ _ k c Hinv Hheap Hk) as (fd & _ & _ & Hlive).
    destruct (Hlive Hnf) as (blk & Hblk & _).
    split; [eauto|]. split; [exact Hd|]. split; [exact Hnf|].
    destruct (worker_flags _ _ _ _ (inv_shape _ _ _ _ Hinv) Hp eq_refl)
      as (m & H0 & Hpl & _).
    destruct (hp_server _ _ _ _ Hheap _ H0) as (_ & _ & H3).
    destruct (H3 Hpl) as (-> & _). intros Hin. apply list_elem_of_singleton in Hin. lia.
Qed.

(** X11 on the run [to_rest], stopped when the worker is about to free
    the handle. *)
Lemma handles_freed_once_witness :
  steps (length (take 30 to_rest)) (initial one_worker)
        (after (take 30 to_rest) (initial one_worker)) /\
  exists th,
    threads (after (take 30 to_rest) (initial one_worker)) !! 1%nat = Some th /\
    releasing th = Some 2%nat /\
    is_Some (mem (the_world (after (take 30 to_rest) (initial one_worker))) !! 2%nat) /\
    2%nat ∈ (dispatched (history (the_world (after (take 30 to_rest) (initial one_worker))))).*2 /\
    (2%nat ∉ freed (history (the_world (after (take 30 to_rest) (initial one_worker))))) /\
    (2%nat ∉ servers (history (the_world (after (take 30 to_rest) (initial one_worker))))).
Proof.
  assert (Hrun : steps (length (take 30 to_rest)) (initial one_worker)
                   (after (take 30 to_rest) (initial one_worker))).
  { apply after_reachable. vm_compute. reflexivity. }
  split; [exact Hrun|].
  destruct (threads (after (take 30 to_rest) (initial one_worker)) !! 1%nat) as [th|] eqn:Hth;
    [|vm_compute in Hth; discriminate Hth].
  assert (Hc : releasing th = Some 2%nat).
  { vm_compute in Hth. injection Hth as <-. reflexivity. }
  exists th. split; [reflexivity|]. split; [exact Hc|].
  exact (proj2 (proj2 (proj2 (proj2 (handles_freed_once one_worker _ _ Hrun))))
           1%nat th 2%nat Hth Hc).
Defined.

(** X12.  No handle is lost.  With at least one worker running, when
    the process is at rest (and has not been ended by [exit] or by a
    crash) every handle that was enqueued has been freed and none is still
    allocated. *)
Theorem no_handle_left_at_rest cfg n st :
  Exists (fun th => is_worker th = true) (threads st) ->
  steps n (initial cfg) st -> running st -> quiescent st ->
  freed (history (the_world st)) ≡ₚ enqueued (history (the_world st)) /\
  forall c, c ∈ enqueued (history (the_world st)) -> mem (the_world st) !! c = None.
Proof.
  intros Hworker Hsteps Hrun Hq.
  destruct (heap_steps cfg n st Hsteps) as (s & pcs & Hinv & Hheap).
  destruct (hp_freed _ _ _ _ Hheap) as (_ & F2 & F3).
  destruct (rest_empty cfg s pcs st Hinv Hrun Hq) as (Hqueue & Hheld).
  specialize (Hqueue (worker_counted _ _ _ _ Hinv Hworker)).
  pose proof (at_rest cfg s pcs st Hinv Hrun Hq) as Hrest.
  assert (Hfr : omap freeing pcs = []).
  { apply omap_none. intros t p Hp.
    destruct (Hrest t p Hp) as [-> | [(l & ->) | ->]]; reflexivity. }
  pose proof (inv_fifo _ _ _ _ Hinv) as Hfifo. unfold fifo_ok in Hfifo.
  pose proof (inv_flight _ _ _ _ Hinv) as Hflight. unfold flight_ok in Hflight.
  assert (Hperm : freed (history (the_world st)) ≡ₚ enqueued (history (the_world st))).
  { rewrite <- Hfifo, Hqueue, app_nil_r, Hflight, Hheld, app_nil_r, F2, Hfr, app_nil_r.
    reflexivity. }
  split; [exact Hperm|]. intros c Hc. apply F3. rewrite Hperm. exact Hc.
Qed.

(** X12 on the run [to_rest]. *)
Lemma no_handle_left_at_rest_witness :
  Exists (fun th => is_worker th = true) (threads (after to_rest (initial one_worker))) /\
  steps (length to_rest) (initial one_worker) (after to_rest (initial one_worker)) /\
  running (after to_rest (initial one_worker)) /\
  quiescent (after to_rest (initial one_worker)) /\
  enqueued (history (the_world (after to_rest (initial one_worker)))) = [2%nat] /\
  freed (history (the_world (after to_rest (initial one_worker))))
  ≡ₚ enqueued (history (the_world (after to_rest (initial one_worker)))) /\
  forall c, c ∈ enqueued (history (the_world (after to_rest (initial one_worker)))) ->
            mem (the_world (after to_rest (initial one_worker))) !! c = None.
Proof.
  assert (Hworker : Exists (fun th => is_worker th = true)
                      (threads (after to_rest (initial one_worker)))).
  { apply Exists_exists. eexists. split; [|shelve].
    apply (list_elem_of_lookup_2 _ 1%nat). vm_compute. reflexivity.
    Unshelve. reflexivity. }
  destruct served_at_rest as (Hsteps & Hrun & Hq & Henq & _).
  split; [exact Hworker|]. split; [exact Hsteps|]. split; [exact Hrun|]. split; [exact Hq|].
  split; [exact Henq|].
  exact (no_handle_left_at_rest one_worker _ _ Hworker Hsteps Hrun Hq).
Defined.

(** * Connections in service *)





(** * The descriptors of the connections *)

(** ** What [accept] has returned and will return *)

Lemma op_connections {X} (o : op X) t w x w1 :
  op_step o t w x w1 ->
  accepted (history w1 ++ [(t, ev o x)]) ++ connections (incoming w1)
  = accepted (history w) ++ connections (incoming w).
Proof.
  intros H.
  destruct o; cbn in H;
    repeat match goal with
           | H : _ /\ _ |- _ => destruct H
           | H : _ \/ _ |- _ => destruct H
           | H : exists _, _ |- _ => destruct H
           | H : match queue ?w with _ => _ end |- _ => destruct (queue w)
           end;
    subst;
    try match goal with |- context [if ?b then _ else _] => destruct b end;
    rewrite ?open_fd_history, ?open_fd_incoming; cbn [history incoming];
    try (unfold accepted; rewrite omap_snoc_none by reflexivity; reflexivity).
  (* accept *)
  match goal with E : incoming _ = _ |- _ => rewrite E end.
  unfold accepted, connections. rewrite omap_app, <- app_assoc. cbn.
  destruct (x <? 0); reflexivity.
Qed.

Lemma step_connections st st' :
  step st st' ->
  accepted (history (the_world st')) ++ connections (incoming (the_world st'))
  = accepted (history (the_world st)) ++ connections (incoming (the_world st)).
Proof.
  intros [t th th' w' new Hrun Hth Hs|t n Hrun Hsp Hw]; [|reflexivity].
  cbn [the_world].
  assert (Hp : forall A (p p' : prog A),
             prog_step t p (the_world st) p' w' ->
             accepted (history w') ++ connections (incoming w')
             = accepted (history (the_world st)) ++ connections (incoming (the_world st))).
  { intros A p p' H. destruct p as [| | |X o k]; try (destruct H; fail).
    destruct H as (x & w1 & Hop & -> & _). cbn [history record incoming].
    apply op_connections. exact Hop. }
  destruct th as [p|s p|s p|]; cbn in Hs; try (destruct Hs; fail);
    destruct Hs as (p' & Hs & _); eapply Hp; exact Hs.
Qed.

(** The connections accepted and those still to come are the connections
    of the configuration. *)
Lemma connections_steps cfg n st :
  steps n (initial cfg) st ->
  accepted (history (the_world st)) ++ connections (incoming (the_world st))
  = connections (cfg_incoming cfg).
Proof.
  remember (initial cfg) as st0 eqn:E. intros H. induction H as [st|n st1 st2 st3 H IH Hstep].
  - subst st. reflexivity.
  - rewrite (step_connections _ _ Hstep). auto.
Qed.

(** ** A step keeps the descriptors of the waiting connections open *)

Lemma open_fd_more x w : fds w ⊆ fds (open_fd x w).
Proof.
  unfold open_fd. destruct (x <? 0); cbn; [reflexivity|].
  apply union_subseteq_r.
Qed.

Lemma open_keep w w' :
  open_ok w ->
  accepted (history w') = accepted (history w) ->
  handles (history w') = handles (history w) ->
  dispatched (history w') = dispatched (history w) ->
  fds w ⊆ fds w' ->
  open_ok w'.
Proof.
  intros Ho Ha Hh Hd Hf k fd. rewrite Ha, Hh, Hd. intros Hk Hpre.
  apply Hf. eapply Ho; eassumption.
Qed.

Lemma open_accept w t listen_fd x rest :
  open_ok w ->
  open_ok (record t (EvAccept listen_fd x) (open_fd x (set_incoming rest w))).
Proof.
  intros Ho k fd. cbn [history record]. rewrite open_fd_history. cbn [history set_incoming].
  replace (handles (history w ++ [(t, EvAccept listen_fd x)])) with (handles (history w))
    by (symmetry; apply omap_snoc_none; reflexivity).
  replace (dispatched (history w ++ [(t, EvAccept listen_fd x)])) with (dispatched (history w))
    by (symmetry; apply omap_snoc_none; reflexivity).
  assert (Ha : accepted (history w ++ [(t, EvAccept listen_fd x)])
               = accepted (history w) ++ (if x <? 0 then [] else [x])).
  { unfold accepted. rewrite omap_app. cbn. destruct (x <? 0); reflexivity. }
  rewrite Ha. intros Hk Hpre. cbn [fds record].
  destruct (x <? 0) eqn:E.
  - rewrite app_nil_r in Hk. apply (open_fd_more x (set_incoming rest w)).
    cbn. eapply Ho; eassumption.
  - apply lookup_app_Some in Hk. destruct Hk as [Hk|(Hge & Hk)].
    + apply (open_fd_more x (set_incoming rest w)). cbn. eapply Ho; eassumption.
    + apply list_lookup_singleton_Some in Hk. destruct Hk as (_ & <-).
      unfold open_fd. rewrite E. cbn. apply elem_of_union. left.
      apply elem_of_singleton. reflexivity.
Qed.

Lemma open_store w t c fd0 w1 :
  open_ok w -> history w1 = history w -> fds w1 = fds w ->
  open_ok (record t (EvStore c id fd0) w1).
Proof.
  intros Ho Hh Hf k fd. cbn [history record fds]. rewrite Hh, Hf.
  replace (accepted (history w ++ [(t, EvStore c id fd0)])) with (accepted (history w))
    by (symmetry; apply omap_snoc_none; reflexivity).
  replace (dispatched (history w ++ [(t, EvStore c id fd0)])) with (dispatched (history w))
    by (symmetry; apply omap_snoc_none; reflexivity).
  intros Hk Hpre. eapply Ho; [exact Hk|].
  intros c' fd' Hc'. apply (Hpre c' fd').
  unfold handles in *. rewrite omap_app. apply lookup_app_l_Some. exact Hc'.
Qed.

Lemma open_call w t c handler s context w1 kc fdc :
  open_ok w -> history w1 = history w ->
  NoDup (accepted (history w)) ->
  handles (history w) !! kc = Some (c, fdc) ->
  accepted (history w) !! kc = Some fdc ->
  fds w1 = fds w \/ fds w1 = fds w ∖ {[fdc]} ->
  open_ok (record t (EvCallHandler handler s c context) w1).
Proof.
  intros Ho Hh Hnd Hkc Hac Hf k fd. cbn [history record fds]. rewrite Hh.
  replace (accepted (history w ++ [(t, EvCallHandler handler s c context)]))
    with (accepted (history w)) by (symmetry; apply omap_snoc_none; reflexivity).
  replace (handles (history w ++ [(t, EvCallHandler handler s c context)]))
    with (handles (history w)) by (symmetry; apply omap_snoc_none; reflexivity).
  rewrite dispatched_snoc. cbn. rewrite fmap_app. cbn.
  intros Hk Hpre.
  assert (Hin : fd ∈ fds w).
  { eapply Ho; [exact Hk|]. intros c' fd' Hc' Hd. apply (Hpre c' fd' Hc').
    apply elem_of_app. auto. }
  destruct Hf as [->| ->]; [exact Hin|].
  apply elem_of_difference. split; [exact Hin|].
  intros Heq. apply elem_of_singleton in Heq. subst fd.
  assert (k = kc) by (eapply NoDup_lookup; eassumption). subst k.
  apply (Hpre c fdc Hkc). apply elem_of_app. right. apply list_elem_of_singleton. reflexivity.
Qed.

Ltac oside :=
  cbn [history record set_mem set_fds set_queue set_mutex set_waiting set_incoming
         set_spurious alloc];
  rewrite ?open_fd_history;
  cbn [history record set_mem set_fds set_queue set_mutex set_waiting set_incoming
         set_spurious alloc];
  first [ reflexivity | apply omap_snoc_none; reflexivity ].

Ltac fside :=
  cbn [fds record set_mem set_fds set_queue set_mutex set_waiting set_incoming
         set_spurious alloc];
  first [ reflexivity | apply open_fd_more ].

Ltac okeep Ho := eapply open_keep; [exact Ho|oside|oside|oside|fside].

Lemma open_step cfg server pcs st st' :
  invariant cfg server pcs st -> heap_invariant cfg server pcs (the_world st) ->
  NoDup (accepted (history (the_world st))) ->
  open_ok (the_world st) -> step st st' -> open_ok (the_world st').
Proof.
  intros Hinv Hheap Hnd Ho Hstep.
  destruct Hstep as [t th th' w' new Hrun Hth Hs|t n Hrun Hsp Hw].
  - destruct (thread_at _ _ _ _ _ _ Hinv Hth) as (p & Hp & ->).
    destruct st as [w ths]. cbn [the_world threads] in *.
    destruct p;
      try (cbn in Hs; destruct Hs as (? & [] & _); fail);
      try (destruct Hs; fail);
      next_op Hs.
    + (* MCalloc *) destruct Hs as [(-> & ->)|(-> & ->)]; okeep Ho.
    + subst w1. okeep Ho.
    + subst w1. okeep Ho.
    + subst w1. okeep Ho.
    + subst w1. okeep Ho.
    + subst w1. okeep Ho.
    + (* MCallocPool *) destruct Hs as [(-> & ->)|(-> & ->)]; okeep Ho.
    + (* MCreate *) subst w1. okeep Ho.
    + (* MSocket *) subst w1. okeep Ho.
    + subst w1. okeep Ho.
    + subst w1. okeep Ho.
    + subst w1. okeep Ho.
    + subst w1. okeep Ho.
    + (* MLog *) subst w1. okeep Ho.
    + (* ALoad *) destruct Hs as (-> & _). okeep Ho.
    + (* AAccept *) destruct Hs as (rest & _ & ->). apply open_accept. exact Ho.
    + (* ACalloc *) destruct Hs as [(-> & ->)|(-> & ->)]; okeep Ho.
    + (* AStore *) subst w1. eapply open_store; [exact Ho|reflexivity|reflexivity].
    + (* ALock *) destruct Hs as (_ & ->). okeep Ho.
    + (* AEnqueue *) destruct Hs as (_ & ->). okeep Ho.
    + (* ASignal *) destruct Hs as [(_ & ->)|(t' & _ & ->)]; okeep Ho.
    + (* AUnlock *) destruct Hs as (_ & ->). okeep Ho.
    + (* ALog *) subst w1. okeep Ho.
    + (* WLock *) destruct Hs as (_ & ->). okeep Ho.
    + (* WDeq1 *) destruct Hs as (_ & Hs).
      destruct (queue w) as [|c q]; destruct Hs as (-> & ->); okeep Ho.
    + (* WSleep *) destruct Hs as (_ & ->). okeep Ho.
    + (* WBlocked *) destruct Hs as (_ & _ & ->). okeep Ho.
    + (* WWoken *) destruct Hs as (_ & _ & ->). okeep Ho.
    + (* WDeq2 *) destruct Hs as (_ & Hs).
      destruct (queue w) as [|c q]; destruct Hs as (-> & ->); okeep Ho.
    + (* WUnlock *) destruct Hs as (_ & ->). okeep Ho.
    + (* WLoadHandler *) destruct Hs as (-> & _). okeep Ho.
    + (* WLoadContext *) destruct Hs as (-> & _). okeep Ho.
    + (* WCall *)
      assert (Hc : c ∈ omap holding pcs).
      { apply list_elem_of_omap. exists (WCall c handler context). split; [|reflexivity].
        eapply list_elem_of_lookup_2. exact Hp. }
      destruct (held_handle _ _ _ _ c Hinv Hheap Hc) as (Henq & Hnf). cbn [the_world] in *.
      destruct (enqueued_at _ _ Henq) as (k & Hk).
      destruct (enqueued_handle _ _ _ _ k c Hinv Hheap Hk) as (fd & Hh & Hacc & Hlive).
      cbn [the_world] in *. destruct (Hlive Hnf) as (blk & Hblk & Hid).
      eapply open_call with (kc := k) (fdc := fd); try eassumption.
      * destruct Hs as [->|(blk' & Hblk' & ->)]; reflexivity.
      * destruct Hs as [->|(blk' & Hblk' & ->)]; [left; reflexivity|].
        right. cbn. rewrite Hblk in Hblk'. injection Hblk' as <-. rewrite Hid. reflexivity.
    + (* WFree *) subst w1. okeep Ho.
  - cbn [the_world]. eapply open_keep; [exact Ho|reflexivity..].
Qed.

Lemma open_steps cfg n st :
  NoDup (connections (cfg_incoming cfg)) ->
  steps n (initial cfg) st -> open_ok (the_world st).
Proof.
  intros Hnd. remember (initial cfg) as st0 eqn:E. intros H.
  induction H as [st|n st1 st2 st3 H IH Hstep].
  - subst st. intros k fd Hk. discriminate Hk.
  - subst st1. destruct (heap_steps cfg n st2 H) as (s & pcs & Hinv & Hheap).
    eapply open_step; [exact Hinv|exact Hheap| |apply IH; reflexivity|exact Hstep].
    rewrite <- (connections_steps cfg n st2 H) in Hnd. apply NoDup_app in Hnd. tauto.
Qed.

(** X14.  When [accept] never returns a descriptor that it has returned
    before, the descriptor of a connection is open when the handler is
    called on it: between [accept] and the call of the handler nothing
    closes it.  (A handler may close the descriptor of its own
    connection, and only that one.) *)
Theorem descriptor_open_for_handler cfg n st :
  NoDup (connections (cfg_incoming cfg)) ->
  steps n (initial cfg) st ->
  forall t th c,
    threads st !! t = Some th -> calling th = Some c ->
    exists blk, mem (the_world st) !! c = Some blk /\ blk id ∈ fds (the_world st).
Proof.
  intros Hnd Hsteps t th c Hth Hcall.
  pose proof (open_steps cfg n st Hnd Hsteps) as Ho.
  destruct (heap_steps cfg n st Hsteps) as (s & pcs & Hinv & Hheap).
  destruct (thread_at _ _ _ _ _ _ Hinv Hth) as (p & Hp & ->).
  apply calling_code in Hcall. destruct Hcall as (handler & context & ->).
  assert (Hc : c ∈ omap holding pcs).
  { apply list_elem_of_omap. exists (WCall c handler context). split; [|reflexivity].
    eapply list_elem_of_lookup_2. exact Hp. }
  destruct (held_handle _ _ _ _ c Hinv Hheap Hc) as (Henq & Hnf).
  destruct (enqueued_at _ _ Henq) as (k & Hk).
  destruct (enqueued_handle _ _ _ _ k c Hinv Hheap Hk) as (fd & Hh & Hacc & Hlive).
  destruct (Hlive Hnf) as (blk & Hblk & <-). exists blk. split; [exact Hblk|].
  eapply Ho; [exact Hacc|]. intros c' fd' Hc'. rewrite Hh in Hc'. injection Hc' as <- <-.
  pose proof (dispatched_nodup _ _ _ _ Hinv) as Hnd'.
  apply NoDup_app in Hnd'. destruct Hnd' as (_ & Hdis & _).
  intros Hd. apply (Hdis c Hd Hc).
Qed.

(** X14 on the run [to_rest], stopped when the worker is about to call
    the handler. *)
Lemma descriptor_open_for_handler_witness :
  NoDup (connections (cfg_incoming one_worker)) /\
  steps (length (take 29 to_rest)) (initial one_worker)
        (after (take 29 to_rest) (initial one_worker)) /\
  exists th blk,
    threads (after (take 29 to_rest) (initial one_worker)) !! 1%nat = Some th /\
    calling th = Some 2%nat /\
    mem (the_world (after (take 29 to_rest) (initial one_worker))) !! 2%nat = Some blk /\
    blk id ∈ fds (the_world (after (take 29 to_rest) (initial one_worker))).
Proof.
  assert (Hnd : NoDup (connections (cfg_incoming one_worker))).
  { cbn. apply NoDup_singleton. }
  assert (Hrun : steps (length (take 29 to_rest)) (initial one_worker)
                   (after (take 29 to_rest) (initial one_worker))).
  { apply after_reachable. vm_compute. reflexivity. }
  split; [exact Hnd|]. split; [exact Hrun|].
  destruct (threads (after (take 29 to_rest) (initial one_worker)) !! 1%nat) as [th|] eqn:Hth;
    [|vm_compute in Hth; discriminate Hth].
  assert (Hc : calling th = Some 2%nat).
  { vm_compute in Hth. injection Hth as <-. reflexivity. }
  destruct (descriptor_open_for_handler one_worker _ _ Hnd Hrun 1%nat th 2%nat Hth Hc)
    as (blk & H).
  exists th, blk. auto.
Defined.
